(** * Touchpoint pipeline of [scripts/fetch_touchpoints.py]

    A shallow embedding of the touchpoint normalizer, the sorter and
    deduplicator, the cohort split and the falloff / gap analyzer of
    [scripts/fetch_touchpoints.py], and the properties of them.

    Conventions of the embedding.
    - A Python [str] is a [string]; a character is an 8-bit [ascii], read as
      the code point of the same number, so the model covers Latin-1 text.
      The arrow of the transition table's keys is written as its UTF-8 bytes.
    - A JSON value that the script only reads as text or [None] is a [value].
    - A Python exception that the script does not catch is [Raise]. *)

From Stdlib Require Import ZArith Lia Bool.
From Stdlib Require Ascii String.
Import Ascii (ascii(..)).

From stdpp Require Import gmap strings sorting.

(** ** Python values and exceptions *)

Inductive value : Type :=
| VNone
| VStr (s : string).

Global Instance value_eq_dec : EqDecision value.
Proof. solve_decision. Defined.

(** [bool(v)]: [None] and the empty string are false. *)
Definition truthy (v : value) : bool :=
  match v with
  | VNone => false
  | VStr "" => false
  | VStr _ => true
  end.

(** [str(v)], as an f-string formats it. *)
Definition str (v : value) : string :=
  match v with
  | VNone => "None"
  | VStr s => s
  end.

(** [v or d] for a default [d] that is a string. *)
Definition or_str (v : value) (d : string) : string :=
  match v with
  | VStr s => if truthy v then s else d
  | VNone => d
  end.

Inductive exn : Type :=
  TypeError | ValueError | KeyError | IndexError | AttributeError.

Inductive result (A : Type) : Type :=
| Ok (a : A)
| Raise (e : exn).
Arguments Ok {A} a.
Arguments Raise {A} e.

(** Sequencing: an exception ends the computation. *)
Global Instance result_ret : MRet result := @Ok.

Global Instance result_bind : MBind result := λ A B k r,
  match r with
  | Ok a => k a
  | Raise e => Raise e
  end.

Global Instance result_fmap : FMap result := λ A B f r,
  match r with
  | Ok a => Ok (f a)
  | Raise e => Raise e
  end.

(** ** Python string operations *)

(** [s[:n]] *)
Fixpoint str_take (n : nat) (s : string) : string :=
  match n, s with
  | S n', String c s' => String c (str_take n' s')
  | _, _ => ""
  end.

(** [s[n:]] *)
Fixpoint str_drop (n : nat) (s : string) : string :=
  match n, s with
  | S n', String _ s' => str_drop n' s'
  | _, _ => s
  end.

(** [c.isspace()] for a code point below 256. *)
Definition is_space (c : ascii) : bool :=
  let n := Ascii.nat_of_ascii c in
  ((9 <=? n) && (n <=? 13)) || ((28 <=? n) && (n <=? 32))
  || (n =? 133) || (n =? 160).

(** [s.lstrip()], [s.rstrip()] and [s.strip()] *)
Fixpoint lstrip (s : string) : string :=
  match s with
  | String c s' => if is_space c then lstrip s' else s
  | "" => ""
  end.

Fixpoint rstrip (s : string) : string :=
  match s with
  | String c s' =>
      match rstrip s' with
      | "" => if is_space c then "" else String c ""
      | r => String c r
      end
  | "" => ""
  end.

Definition strip (s : string) : string := rstrip (lstrip s).

(** [s.replace(a, b)] for single characters [a] and [b]. *)
Fixpoint replace_char (a b : ascii) (s : string) : string :=
  match s with
  | String c s' => String (if Ascii.eqb c a then b else c) (replace_char a b s')
  | "" => ""
  end.

(** [c.lower()] for a code point below 256: the ASCII capitals and the
    Latin-1 capitals (all of 192..222 but the multiplication sign 215). *)
Definition lower_char (c : ascii) : ascii :=
  let n := Ascii.nat_of_ascii c in
  if ((65 <=? n) && (n <=? 90)) || ((192 <=? n) && (n <=? 222) && negb (n =? 215))
  then Ascii.ascii_of_nat (n + 32) else c.

Fixpoint lower (s : string) : string :=
  match s with
  | String c s' => String (lower_char c) (lower s')
  | "" => ""
  end.

(** [sub in s] *)
Fixpoint contains (sub s : string) : bool :=
  String.prefix sub s ||
  match s with
  | String _ s' => contains sub s'
  | "" => false
  end.

(** The text before the first occurrence of [sep] in [s]; all of [s] when
    [sep] does not occur. *)
Fixpoint before_first (sep s : string) : string :=
  if String.prefix sep s then "" else
  match s with
  | String c s' => String c (before_first sep s')
  | "" => ""
  end.

(** The text after the first occurrence of [sep] in [s], when there is one. *)
Fixpoint after_first (sep s : string) : option string :=
  if String.prefix sep s then Some (str_drop (String.length sep) s) else
  match s with
  | String _ s' => after_first sep s'
  | "" => None
  end.

(** [s.split(sep)] for a separator that is not empty: the pieces between
    the occurrences of [sep], found from the left and not overlapping.
    Every round consumes a character, so [String.length s] rounds are
    enough. *)
Fixpoint split_rounds (n : nat) (sep s : string) : list string :=
  match after_first sep s with
  | None => [s]
  | Some rest =>
      before_first sep s ::
      match n with
      | S n' => split_rounds n' sep rest
      | O => [rest]
      end
  end.

Definition str_split (sep s : string) : result (list string) :=
  match sep with
  | "" => Raise ValueError
  | _ => Ok (split_rounds (String.length s) sep s)
  end.

(** [l[i]] *)
Definition item {A : Type} (l : list A) (i : nat) : result A :=
  match l !! i with
  | Some a => Ok a
  | None => Raise IndexError
  end.

(** A JSON object whose values the script reads as text or [None]. *)
Abbreviation dict := (gmap string value).

(** [d.get(k)] and [d.get(k, dflt)]: a key that is present with the value
    [None] gives [None], not the default. *)
Definition get (d : dict) (k : string) : value := default VNone (d !! k).
Definition get_or (d : dict) (k : string) (dflt : string) : value :=
  default (VStr dflt) (d !! k).

(** [d[k]] *)
Definition getitem (d : dict) (k : string) : result value :=
  match d !! k with
  | Some v => Ok v
  | None => Raise KeyError
  end.

Definition LF : ascii := Ascii.ascii_of_nat 10.
Definition CR : ascii := Ascii.ascii_of_nat 13.
Definition SP : ascii := Ascii.ascii_of_nat 32.

(** ** The constant tables *)

Definition STAGE_MAP : gmap string string :=
  list_to_map
    [ ("appointmentscheduled", "Prospect");
      ("1499838171", "Approached");
      ("qualifiedtobuy", "Lead");
      ("presentationscheduled", "Demo Scheduled");
      ("1955958510", "No-Show/Reschedule Demo");
      ("decisionmakerboughtin", "Demo Follow-Up");
      ("1955580622", "Budgetary quote sent");
      ("1559099077", "Payment Link Sent");
      ("1499827945", "Free Trial");
      ("1731122907", "Freemium");
      ("closedwon", "Closed Won");
      ("contractsent", "Ping Later");
      ("closedlost", "Closed Lost");
      ("1499784890", "Churn");
      ("1499784891", "Unlikely");
      ("1499827944", "On Hold");
      ("1718686448", "Internal+Friends and Family");
      ("2025131723", "Interested in a pilot") ].

(** In the order of iteration of the Python dictionary. *)
Definition ENGAGEMENT_TYPES : list (string * string) :=
  [ ("emails", "Email");
    ("calls", "Call");
    ("meetings", "Meeting");
    ("notes", "Note");
    ("tasks", "Task");
    ("communications", "Communication") ].

(** ** [truncate] *)

Definition truncate (text : value) (max_len : nat) : string :=
  if truthy text then
    let text := strip (replace_char CR SP (replace_char LF SP (str text))) in
    if max_len <? String.length text
    then str_take max_len text +:+ "..."
    else text
  else "".

(** ** The rate-limit retry of [hubspot_get] and [hubspot_post]

    One attempt of a call ends in a decoded body, in HTTP 429, in another
    HTTP error, or in another exception.  The CRM's answers to the
    successive attempts of one call are a list. *)

Inductive response : Type :=
| Body (data : dict)
| HTTPError (code : nat)
| OtherError.

(** What a call did: the value it returned, the attempts it made and the
    seconds it slept. *)
Record call : Type := {
  returned : option dict;
  attempts : nat;
  slept : nat;
}.

Definition retried (c : call) : call :=
  {| returned := returned c; attempts := S (attempts c); slept := 10 + slept c |}.

(** [hubspot_get] against the answers [rs].  The handler of HTTP 429 sleeps
    and calls the function again, and the code counts no retries; what ends
    them is the bound of Python on the depth of its stack
    ([sys.getrecursionlimit()], 1000 by default).  [depth] is the number of
    nested calls of the function whose request the stack still holds: in
    the call nested deeper the request raises [RecursionError] inside the
    [try], no answer is read, and the handler of [Exception] returns
    [None], which every enclosing call returns in turn.  The result is
    [None] when the call is still retrying after the last answer of
    [rs]. *)
Fixpoint hubspot_get (depth : nat) (rs : list response) : option call :=
  match depth with
  | O => Some {| returned := None; attempts := 0; slept := 0 |}
  | S depth' =>
      match rs with
      | [] => None
      | Body data :: _ =>
          Some {| returned := Some data; attempts := 1; slept := 0 |}
      | HTTPError code :: rs' =>
          if code =? 429 then retried <$> hubspot_get depth' rs'
          else Some {| returned := None; attempts := 1; slept := 0 |}
      | OtherError :: _ =>
          Some {| returned := None; attempts := 1; slept := 0 |}
      end
  end.

Fixpoint hubspot_post (depth : nat) (rs : list response) : option call :=
  match depth with
  | O => Some {| returned := None; attempts := 0; slept := 0 |}
  | S depth' =>
      match rs with
      | [] => None
      | Body data :: _ =>
          Some {| returned := Some data; attempts := 1; slept := 0 |}
      | HTTPError code :: rs' =>
          if code =? 429 then retried <$> hubspot_post depth' rs'
          else Some {| returned := None; attempts := 1; slept := 0 |}
      | OtherError :: _ =>
          Some {| returned := None; attempts := 1; slept := 0 |}
      end
  end.

(** ** Touchpoints *)

Record touchpoint : Type := {
  date : value;
  type : string;
  detail : string;
  source : string;
  contact : option string;
}.

Global Instance touchpoint_eq_dec : EqDecision touchpoint.
Proof. solve_decision. Defined.

(** ** The sorter and the deduplicator *)

(** The key of [company_touchpoints.sort]: [t.get("date") or "9999"]. *)
Definition sort_key (t : touchpoint) : string := or_str (date t) "9999".

(** [list.sort(key=...)] is a stable sort for the order of the keys, which
    for strings is the lexicographic order of the code points,
    [String.leb].  Insertion from the right is such a sort, and all stable
    sorts give the same list ([stable_sort_unique]). *)
Section Sort.

Context {A : Type} (key : A → string).

Fixpoint insert_by (x : A) (l : list A) : list A :=
  match l with
  | [] => [x]
  | y :: l' =>
      if String.leb (key x) (key y) then x :: l else y :: insert_by x l'
  end.

Definition sort_by (l : list A) : list A := foldr insert_by [] l.

(** The order that the sort establishes. *)
Definition key_le (a b : A) : Prop := (key a ≤ key b)%string.

End Sort.

Definition sort_touchpoints : list touchpoint → list touchpoint :=
  sort_by sort_key.

(** The key of the deduplication:
    [(tp.get("date", "")[:16], tp.get("type", ""), tp.get("detail", "")[:50])].
    Every touchpoint has the three fields, so no default is used, and a
    date that is [None] cannot be sliced. *)
Definition dedup_key (tp : touchpoint) : result (string * string * string) :=
  match date tp with
  | VNone => Raise TypeError
  | VStr d => Ok (str_take 16 d, type tp, str_take 50 (detail tp))
  end.

(** The loop over [company_touchpoints], with [seen_keys] and [deduped]. *)
Fixpoint dedup_loop (seen_keys : gset (string * string * string))
    (deduped : list touchpoint) (tps : list touchpoint)
    : result (list touchpoint) :=
  match tps with
  | [] => Ok deduped
  | tp :: tps' =>
      key ← dedup_key tp;
      if decide (key ∈ seen_keys)
      then dedup_loop seen_keys deduped tps'
      else dedup_loop ({[key]} ∪ seen_keys) (deduped ++ [tp]) tps'
  end.

Definition dedup (company_touchpoints : list touchpoint)
  : result (list touchpoint) :=
  dedup_loop ∅ [] company_touchpoints.

(** ** The CRM, as the normalizer sees it

    What the calls of one run return, as functions of the request: the hit
    of [get_contact_by_email], the associations that
    [get_contact_engagements] reads, the answer of [get_engagement_details]
    and the history that [get_deal_property_history] returns, with the
    [isinstance] tests of the caller already applied. *)

Record hs_contact : Type := {
  hs_id : string;
  hs_properties : dict;
}.

Record engagement : Type := {
  eng_properties : dict;
  createdAt : value;
}.

Record deal_history : Type := {
  dealstage : list dict;
  amount : list dict;
}.

Record crm : Type := {
  contact_by_email : string → option hs_contact;
  associations : string → string → list dict;
  engagement_details : string → string → option engagement;
  deal_property_history : string → option deal_history;
}.

Record contact_detail : Type := {
  email : string;
  hs_id_of : string;
  props : dict;
}.

(** One entry of [customer_journeys.json].  [j_fields] holds the scalar
    fields that are copied to the output.  [j_deals] and [j_unique_deals]
    are [deals] and [unique_deals] as the deal search of the script leaves
    them before it reads the histories. *)
Record journey : Type := {
  j_company : string;
  j_contacts : list dict;
  j_fields : dict;
  j_deals : list dict;
  j_unique_deals : list (string * string);
}.

(** One entry of [all_touchpoint_data]. *)
Record customer : Type := {
  company : string;
  tenant_id : value;
  lifecycle_stage : value;
  deal_stage : value;
  deal_amount : value;
  first_touch : value;
  cognito_signup : value;
  c_source : value;
  touchpoints : list touchpoint;
  contact_details : list contact_detail;
  total_touchpoints : nat;
}.

Definition QUOTE : string := String (Ascii.ascii_of_nat 34) "".

(** [STAGE_MAP.get(value, value)], as the f-string prints it. *)
Definition stage_name (v : value) : string :=
  match v with
  | VStr s => default s (STAGE_MAP !! s)
  | VNone => "None"
  end.

Section Normalizer.

Variable api : crm.

(** [str(int(int(duration) / 1000))] of the call formatter: Python's [int]
    of a string, its float division and the printing of the result;
    [Raise ValueError] when [duration] is no integer literal. *)
Variable call_seconds : string → result string.

Definition get_contact_engagements (contact_id : string)
  : list (string * string * string) :=
  flat_map
    (λ '(eng_type, eng_label),
      flat_map
        (λ assoc : dict,
          let eng_id :=
            if truthy (get assoc "id") then get assoc "id"
            else get assoc "toObjectId" in
          if truthy eng_id then [(eng_type, str eng_id, eng_label)] else [])
        (associations api contact_id eng_type))
    ENGAGEMENT_TYPES.

(** The touchpoint of one engagement (the body of the loop over
    [engagements[:30]]). *)
Definition engagement_touchpoint (email : string)
    (eng : string * string * string) : result (list touchpoint) :=
  let '(eng_type, eng_id, eng_label) := eng in
  match engagement_details api eng_type eng_id with
  | None => Ok []
  | Some details =>
      let eng_props := eng_properties details in
      let ts := get eng_props "hs_timestamp" in
      let ts := if truthy ts then ts else createdAt details in
      '(ts, detail_text) ←
        (if String.eqb eng_type "emails" then
           let subj := get_or eng_props "hs_email_subject" "" in
           let direction := get_or eng_props "hs_email_direction" "" in
           Ok (ts, if truthy subj
                   then "[" +:+ str direction +:+ "] " +:+ str subj
                   else "[" +:+ str direction +:+ "] Email")
         else if String.eqb eng_type "calls" then
           let title := get_or eng_props "hs_call_title" "" in
           let duration := get_or eng_props "hs_call_duration" "" in
           let disposition := get_or eng_props "hs_call_disposition" "" in
           dur_str ←
             (if truthy duration && negb (bool_decide (duration = VStr "0"))
              then secs ← call_seconds (str duration);
                   Ok (" (" +:+ secs +:+ "s)")
              else Ok "");
           Ok (ts, or_str title "Call" +:+ dur_str +:+
                   (if truthy disposition then " - " +:+ str disposition else ""))
         else if String.eqb eng_type "meetings" then
           let title := get_or eng_props "hs_meeting_title" "" in
           let outcome := get_or eng_props "hs_meeting_outcome" "" in
           let start := get_or eng_props "hs_meeting_start_time" "" in
           Ok (if truthy start then start else ts,
               or_str title "Meeting" +:+
               (if truthy outcome then " - " +:+ str outcome else ""))
         else if String.eqb eng_type "notes" then
           let body := truncate (get_or eng_props "hs_note_body" "") 150 in
           Ok (ts, if truthy (VStr body) then "Note: " +:+ body else "Note added")
         else if String.eqb eng_type "tasks" then
           let subj := get_or eng_props "hs_task_subject" "" in
           let status := get_or eng_props "hs_task_status" "" in
           Ok (ts, "Task: " +:+ str subj +:+
                   (if truthy status then " (" +:+ str status +:+ ")" else ""))
         else if String.eqb eng_type "communications" then
           let channel := get_or eng_props "hs_communication_channel_type" "" in
           let body := truncate (get_or eng_props "hs_communication_body" "") 100 in
           Ok (ts, if truthy channel then "[" +:+ str channel +:+ "] " +:+ body
                   else body)
         else Ok (ts, ""));
      Ok (if truthy ts
          then [ {| date := ts; type := eng_label; detail := detail_text;
                    source := "HubSpot Engagement"; contact := Some email |} ]
          else [])
  end.

Fixpoint engagement_touchpoints (email : string)
    (engs : list (string * string * string)) : result (list touchpoint) :=
  match engs with
  | [] => Ok []
  | eng :: engs' =>
      tps ← engagement_touchpoint email eng;
      tps' ← engagement_touchpoints email engs';
      Ok (tps ++ tps')
  end.

Definition when (b : bool) (tp : touchpoint) : list touchpoint :=
  if b then [tp] else [].

(** [contact["email"].strip().lower()] *)
Definition contact_email (contact : dict) : result string :=
  v ← getitem contact "email";
  match v with
  | VStr e => Ok (lower (strip e))
  | VNone => Raise AttributeError
  end.

(** The touchpoints of a contact that the CRM knows, before its
    engagements. *)
Definition property_touchpoints (contact : dict) (email : string)
    (props : dict) : list touchpoint :=
  let tp d t x s :=
    {| date := d; type := t; detail := x; source := s; contact := Some email |} in
  let first_touch := get props "hs_analytics_first_timestamp" in
  let source := get_or props "hs_analytics_source" "Unknown" in
  let sd1 := get_or props "hs_analytics_source_data_1" "" in
  let sd2 := get_or props "hs_analytics_source_data_2" "" in
  let first_url := get_or props "hs_analytics_first_url" "" in
  let first_ref := get_or props "hs_analytics_first_referrer" "" in
  let lead_date := get props "hs_lifecyclestage_lead_date" in
  let opp_date := get props "hs_lifecyclestage_opportunity_date" in
  let cust_date := get props "hs_lifecyclestage_customer_date" in
  let first_eng := get props "hs_sa_first_engagement_date" in
  let last_sales := get props "hs_last_sales_activity_date" in
  let latest_meeting := get props "hs_latest_meeting_activity" in
  let first_conv := get props "first_conversion_event_name" in
  let first_conv_date := get props "first_conversion_date" in
  let recent_conv := get props "recent_conversion_event_name" in
  let recent_conv_date := get props "recent_conversion_date" in
  let hs_created := get props "createdate" in
  let cognito_date := get_or contact "created" "" in
  when (truthy first_touch)
    (tp first_touch "First Touch"
       ("Source: " +:+ str source
        +:+ (if truthy sd1 then " | " +:+ str sd1 else "")
        +:+ (if truthy sd2 then " (" +:+ str sd2 +:+ ")" else "")
        +:+ (if truthy first_url then " | URL: " +:+ str first_url else "")
        +:+ (if truthy first_ref then " | Referrer: " +:+ str first_ref else ""))
       "HubSpot Analytics")
  ++ when (truthy lead_date)
    (tp lead_date "Lifecycle: Became Lead"
       (email +:+ " lifecycle stage changed to Lead") "HubSpot Lifecycle")
  ++ when (truthy opp_date)
    (tp opp_date "Lifecycle: Became Opportunity"
       (email +:+ " lifecycle stage changed to Opportunity") "HubSpot Lifecycle")
  ++ when (truthy cust_date)
    (tp cust_date "Lifecycle: Became Customer"
       (email +:+ " lifecycle stage changed to Customer") "HubSpot Lifecycle")
  ++ when (truthy first_eng)
    (tp first_eng "First Sales Engagement"
       ("First sales activity recorded for " +:+ email) "HubSpot Sales")
  ++ when (truthy last_sales)
    (tp last_sales "Last Sales Activity"
       ("Most recent sales activity for " +:+ email) "HubSpot Sales")
  ++ when (truthy latest_meeting)
    (tp latest_meeting "Meeting" ("Meeting with " +:+ email) "HubSpot Meetings")
  ++ when (truthy first_conv && truthy first_conv_date)
    (tp first_conv_date "First Form Submission"
       ("Form: " +:+ str first_conv) "HubSpot Forms")
  ++ when (truthy recent_conv && truthy recent_conv_date
           && negb (bool_decide (recent_conv_date = first_conv_date)))
    (tp recent_conv_date "Form Submission"
       ("Form: " +:+ str recent_conv) "HubSpot Forms")
  ++ when (truthy hs_created)
    (tp hs_created "HubSpot Contact Created"
       (email +:+ " added to HubSpot CRM") "HubSpot CRM")
  ++ when (truthy cognito_date)
    (tp cognito_date "Platform Signup"
       (email +:+ " created Arda account") "Cognito").

(** The body of the loop over [contacts], on the pair of
    [company_touchpoints] and [company_contact_details]. *)
Definition process_contact
    (st : list touchpoint * list contact_detail) (contact : dict)
    : result (list touchpoint * list contact_detail) :=
  let '(company_touchpoints, company_contact_details) := st in
  email ← contact_email contact;
  match contact_by_email api email with
  | None =>
      Ok (company_touchpoints ++
            [ {| date := get_or contact "created" "";
                 type := "Platform Signup";
                 detail := email +:+ " created Cognito account";
                 source := "Cognito";
                 contact := None |} ],
          company_contact_details)
  | Some hs_contact =>
      let contact_id := hs_id hs_contact in
      let props := hs_properties hs_contact in
      let engagements := get_contact_engagements contact_id in
      engs ← engagement_touchpoints email (take 30 engagements);
      Ok (company_touchpoints ++ property_touchpoints contact email props ++ engs,
          company_contact_details ++
            [ {| email := email; hs_id_of := contact_id; props := props |} ])
  end.

Fixpoint process_contacts
    (st : list touchpoint * list contact_detail) (contacts : list dict)
    : result (list touchpoint * list contact_detail) :=
  match contacts with
  | [] => Ok st
  | contact :: contacts' =>
      st' ← process_contact st contact;
      process_contacts st' contacts'
  end.

(** The touchpoints of the stage and amount history of one deal. *)
Definition history_touchpoints (deal : string * string) : list touchpoint :=
  let '(deal_name, deal_id) := deal in
  match deal_property_history api deal_id with
  | None => []
  | Some history =>
      map
        (λ entry : dict,
          let ts := get entry "timestamp" in
          let value := get_or entry "value" "" in
          let source_type := get_or entry "sourceType" "" in
          {| date := ts;
             type := "Deal Stage Change";
             detail := QUOTE +:+ deal_name +:+ QUOTE +:+ " moved to: "
                       +:+ stage_name value
                       +:+ " (via " +:+ str source_type +:+ ")";
             source := "HubSpot Deal";
             contact := None |})
        (dealstage history)
      ++ flat_map
        (λ entry : dict,
          let ts := get entry "timestamp" in
          let value := get_or entry "value" "" in
          when (truthy value)
            {| date := ts;
               type := "Deal Amount Changed";
               detail := QUOTE +:+ deal_name +:+ QUOTE +:+ " amount set to $"
                         +:+ str value;
               source := "HubSpot Deal";
               contact := None |})
        (amount history)
  end.

(** The explicit touchpoints of the creation and the close of a deal. *)
Definition deal_touchpoints (d : dict) : list touchpoint :=
  let describe (what : string) :=
    QUOTE +:+ str (get_or d "name" "Unknown") +:+ QUOTE +:+ what
    +:+ str (get_or d "stage" "N/A")
    +:+ (if truthy (get d "amount") then " | $" +:+ str (get d "amount") else "") in
  when (truthy (get d "created"))
    {| date := get d "created"; type := "Deal Created";
       detail := describe " created | Stage: ";
       source := "HubSpot Deal"; contact := None |}
  ++ when (truthy (get d "closed"))
    {| date := get d "closed"; type := "Deal Closed";
       detail := describe " closed | Final: ";
       source := "HubSpot Deal"; contact := None |}.

(** The body of the loop over [journeys]. *)
Definition process_journey (j : journey) : result customer :=
  '(tps, company_contact_details) ← process_contacts ([], []) (j_contacts j);
  let company_touchpoints :=
    tps ++ flat_map history_touchpoints (take 10 (j_unique_deals j))
        ++ flat_map deal_touchpoints (j_deals j) in
  let company_touchpoints := sort_touchpoints company_touchpoints in
  deduped ← dedup company_touchpoints;
  Ok {| company := j_company j;
        tenant_id := get (j_fields j) "tenant_id";
        lifecycle_stage := get_or (j_fields j) "lifecycle_stage" "Unknown";
        deal_stage := get (j_fields j) "deal_stage";
        deal_amount := get (j_fields j) "deal_amount";
        first_touch := get (j_fields j) "first_touch";
        cognito_signup := get (j_fields j) "cognito_signup";
        c_source := get_or (j_fields j) "source" "Unknown";
        touchpoints := deduped;
        contact_details := company_contact_details;
        total_touchpoints := length deduped |}.

(** [all_touchpoint_data], which [json.dump] writes as it is. *)
Fixpoint all_touchpoint_data (journeys : list journey) : result (list customer) :=
  match journeys with
  | [] => Ok []
  | j :: journeys' =>
      c ← process_journey j;
      cs ← all_touchpoint_data journeys';
      Ok (c :: cs)
  end.

End Normalizer.

(** ** The cohorts *)

(** [v in (s1, ..., sn)] for string constants. *)
Definition value_in (v : value) (l : list string) : bool :=
  existsb (λ s, bool_decide (v = VStr s)) l.

Definition in_closed_won (c : customer) : bool :=
  bool_decide (deal_stage c = VStr "Closed Won").

Definition in_churned (c : customer) : bool :=
  value_in (deal_stage c) ["Churn"; "Closed Lost"].

Definition in_stalled (c : customer) : bool :=
  value_in (deal_stage c)
    ["Demo Scheduled"; "Demo Follow-Up"; "Payment Link Sent"; "On Hold";
     "Free Trial"; "Freemium"; "Interested in a pilot"].

Definition in_no_deal (c : customer) : bool :=
  negb (truthy (deal_stage c)) || bool_decide (deal_stage c = VStr "No Deal").

Definition closed_won (all : list customer) : list customer := filter in_closed_won all.
Definition churned (all : list customer) : list customer := filter in_churned all.
Definition stalled (all : list customer) : list customer := filter in_stalled all.
Definition no_deal (all : list customer) : list customer := filter in_no_deal all.

(** ** The falloff and gap analyzer *)

(** [detail.split("moved to:")[1].split("(")[0].strip()] *)
Definition extract_stage (detail : string) : result string :=
  parts ← str_split "moved to:" detail;
  tail ← item parts 1;
  parts' ← str_split "(" tail;
  head ← item parts' 0;
  Ok (strip head).

(** [stages_seen] of one customer. *)
Fixpoint stages_seen (tps : list touchpoint) : result (list (value * string)) :=
  match tps with
  | [] => Ok []
  | tp :: tps' =>
      if String.eqb (type tp) "Deal Stage Change"
         && contains "moved to:" (detail tp)
      then
        stage ← extract_stage (detail tp);
        rest ← stages_seen tps';
        Ok ((date tp, stage) :: rest)
      else stages_seen tps'
  end.

(** [counts[k] += 1] on a [defaultdict(int)]. *)
Definition increment (k : string) (counts : gmap string nat) : gmap string nat :=
  <[k := S (default 0 (counts !! k))]> counts.

(** [f"{from_stage} → {to_stage}"] *)
Definition transition (from_stage to_stage : string) : string :=
  from_stage +:+ " → " +:+ to_stage.

(** The loop over [range(len(stages_seen) - 1)]. *)
Fixpoint track_sequences (stages : list string)
    (stage_sequence_counts : gmap string nat) : gmap string nat :=
  match stages with
  | from_stage :: (to_stage :: _) as stages' =>
      track_sequences stages'
        (increment (transition from_stage to_stage) stage_sequence_counts)
  | _ => stage_sequence_counts
  end.

Record touchpoint_gap : Type := {
  gap_company : string;
  gap_days : Z;
  from_type : string;
  to_type : string;
  outcome : value;
}.

Record falloff : Type := {
  stage_sequence_counts : gmap string nat;
  last_stage_before_stall : gmap string nat;
  touchpoint_gaps : list touchpoint_gap;
}.

Section Analyzer.

(** [days_between(d1, d2)]: the whole days from [d1] to [d2] as
    [datetime.fromisoformat] and the subtraction of datetimes give them,
    [None] when a date does not parse. *)
Variable days_between : string → string → option Z.

(** The loop that computes the gaps of one customer, with [prev_date] and
    [prev_type]; [prev_type] is read only once it has been assigned. *)
Fixpoint gap_loop (c : customer) (prev_date : value) (prev_type : string)
    (tps : list touchpoint) : list touchpoint_gap :=
  match tps with
  | [] => []
  | tp :: tps' =>
      if truthy (date tp) && negb (String.eqb (type tp) "Last Sales Activity")
      then
        (if truthy prev_date then
           match days_between (str prev_date) (str (date tp)) with
           | Some gap =>
               if (0 <? gap)%Z
               then [ {| gap_company := company c;
                         gap_days := gap;
                         from_type := prev_type;
                         to_type := type tp;
                         outcome := deal_stage c |} ]
               else []
           | None => []
           end
         else [])
        ++ gap_loop c (date tp) (type tp) tps'
      else gap_loop c prev_date prev_type tps'
  end.

Definition customer_gaps (c : customer) : list touchpoint_gap :=
  gap_loop c VNone "" (touchpoints c).

(** The body of the loop over [all_touchpoint_data] of the analysis. *)
Definition analyze_customer (st : falloff) (c : customer) : result falloff :=
  stages ← stages_seen (touchpoints c);
  Ok {| stage_sequence_counts :=
          track_sequences (stages.*2) (stage_sequence_counts st);
        last_stage_before_stall :=
          if value_in (deal_stage c)
               ["Demo Scheduled"; "Demo Follow-Up"; "Payment Link Sent";
                "On Hold"; "Free Trial"]
          then increment (str (deal_stage c)) (last_stage_before_stall st)
          else last_stage_before_stall st;
        touchpoint_gaps := touchpoint_gaps st ++ customer_gaps c |}.

Fixpoint analyze (st : falloff) (all : list customer) : result falloff :=
  match all with
  | [] => Ok st
  | c :: all' =>
      st' ← analyze_customer st c;
      analyze st' all'
  end.

End Analyzer.

(** ** The search for the deals of a company *)

(** [s.split()]: the words between the runs of white space. *)
Fixpoint words_go (s : string) : string * list string :=
  match s with
  | "" => ("", [])
  | String c s' =>
      let '(w, ws) := words_go s' in
      if is_space c
      then ("", match w with "" => ws | _ => w :: ws end)
      else (String c w, ws)
  end.

Definition words (s : string) : list string :=
  let '(w, ws) := words_go s in
  match w with "" => ws | _ => w :: ws end.

Global Instance value_countable : Countable value :=
  inj_countable'
    (λ v, match v with VNone => None | VStr s => Some s end)
    (λ o, match o with None => VNone | Some s => VStr s end)
    (λ v, match v with VNone => eq_refl | VStr _ => eq_refl end).

(** A deal as the search of the CRM returns it. *)
Record hs_deal : Type := {
  deal_id : value;
  deal_properties : dict;
}.

(** [STAGE_MAP.get(value, value)] *)
Definition stage_label (v : value) : value :=
  match v with
  | VStr s => VStr (default s (STAGE_MAP !! s))
  | VNone => VNone
  end.

Section Deals.

(** The answers of the two searches of [/crm/v3/objects/deals/search] for a
    token of the deal name: the one of [search_deals_for_company] (up to 50
    deals with their properties) and the one of the loop over the deals
    without id (up to 10 deals with their names).  [None] is an answer
    that is not truthy, and an answer without results gives the empty
    list. *)
Variable search_deals : string → option (list hs_deal).
Variable search_names : string → option (list hs_deal).

(** [words] in [search_deals_for_company]. *)
Definition search_words (company_name : string) : list string :=
  match List.filter (λ w, 3 <? String.length w) (words company_name) with
  | [] => take 1 (words company_name)
  | ws => ws
  end.

Definition search_term (company_name : string) : string :=
  match search_words company_name with
  | w :: _ => w
  | [] => company_name
  end.

(** The test of the loop over the results. *)
Definition deal_matches (company_name : string) (d : hs_deal) : bool :=
  let dname := lower (or_str (get (deal_properties d) "dealname") "") in
  contains (lower company_name) dname
  || existsb (λ w, contains (lower w) dname) (search_words company_name).

Fixpoint matched_loop (company_name : string) (matched results : list hs_deal)
    : list hs_deal :=
  match results with
  | [] => matched
  | d :: results' =>
      if deal_matches company_name d
      then matched_loop company_name (matched ++ [d]) results'
      else matched_loop company_name matched results'
  end.

Definition search_deals_for_company (company_name : string) : list hs_deal :=
  if negb (truthy (VStr company_name)) || (String.length company_name <? 3)
  then []
  else
    match search_deals (search_term company_name) with
    | Some results => matched_loop company_name [] results
    | None => []
    end.

(** The deal that the loop over [searched] appends. *)
Definition found_deal (sd : hs_deal) : dict :=
  {[ "name" := get (deal_properties sd) "dealname";
     "stage" := stage_label (get_or (deal_properties sd) "dealstage" "");
     "amount" := get (deal_properties sd) "amount";
     "created" := get (deal_properties sd) "createdate";
     "closed" := get (deal_properties sd) "closedate";
     "_id" := deal_id sd ]}.

(** The loop over [searched], which appends to [deals]. *)
Fixpoint add_searched (deals : list dict) (searched : list hs_deal) : list dict :=
  match searched with
  | [] => deals
  | sd :: searched' =>
      let dn := get (deal_properties sd) "dealname" in
      if truthy dn
         && negb (existsb (λ d : dict, bool_decide (get d "name" = dn)) deals)
      then add_searched (deals ++ [found_deal sd]) searched'
      else add_searched deals searched'
  end.

(** [deals] after "Also search for deals if we don't have many". *)
Definition company_deals (company : string) (all_deals : list dict) : list dict :=
  if length all_deals <? 2
  then add_searched all_deals (search_deals_for_company company)
  else all_deals.

(** [deal_ids_to_check] of the deals that have an id. *)
Fixpoint deal_ids (deals : list dict) : result (list (value * value)) :=
  match deals with
  | [] => Ok []
  | d :: deals' =>
      match d !! "_id" with
      | Some did =>
          name ← getitem d "name";
          ids ← deal_ids deals';
          Ok ((name, did) :: ids)
      | None => deal_ids deals'
      end
  end.

(** [dname.split(" - ")[0].split()[0] if " " in dname else dname] *)
Definition search_word (dname : string) : result string :=
  if contains " " dname then
    parts ← str_split " - " dname;
    head ← item parts 0;
    item (words head) 0
  else Ok dname.

(** The loop over the results of the search by name. *)
Fixpoint named_loop (company_name_lower : string)
    (deal_ids_to_check : list (value * value)) (results : list hs_deal)
    : result (list (value * value)) :=
  match results with
  | [] => Ok deal_ids_to_check
  | rd :: results' =>
      match get_or (deal_properties rd) "dealname" "" with
      | VNone => Raise AttributeError
      | VStr dealname =>
          let rn := lower dealname in
          if contains company_name_lower rn
             || existsb (λ w, contains w rn)
                  (List.filter (λ w, 3 <? String.length w)
                     (words company_name_lower))
          then
            name ← getitem (deal_properties rd) "dealname";
            named_loop company_name_lower
              (deal_ids_to_check ++ [(name, deal_id rd)]) results'
          else named_loop company_name_lower deal_ids_to_check results'
      end
  end.

(** The loop over [deals[:5]] of "Also search for deal IDs if we only have
    names". *)
Fixpoint search_ids (company_name_lower : string)
    (deal_ids_to_check : list (value * value)) (deals : list dict)
    : result (list (value * value)) :=
  match deals with
  | [] => Ok deal_ids_to_check
  | d :: deals' =>
      match get_or d "name" "" with
      | VStr (String _ _ as dname) =>
          w ← search_word dname;
          if 3 <? String.length w then
            match search_names w with
            | Some results =>
                ids ← named_loop company_name_lower deal_ids_to_check results;
                search_ids company_name_lower ids deals'
            | None => search_ids company_name_lower deal_ids_to_check deals'
            end
          else search_ids company_name_lower deal_ids_to_check deals'
      | _ => search_ids company_name_lower deal_ids_to_check deals'
      end
  end.

(** "Deduplicate deal IDs": the loop with [seen_ids] and [unique_deals]. *)
Fixpoint unique_loop (seen_ids : gset value) (unique_deals : list (value * value))
    (deal_ids_to_check : list (value * value)) : list (value * value) :=
  match deal_ids_to_check with
  | [] => unique_deals
  | (name, did) :: rest =>
      if decide (did ∈ seen_ids)
      then unique_loop seen_ids unique_deals rest
      else unique_loop ({[did]} ∪ seen_ids) (unique_deals ++ [(name, did)]) rest
  end.

(** [deals] and [unique_deals] of a company, from its name and the
    [all_deals] of its journey. *)
Definition find_deals (company : string) (all_deals : list dict)
    : result (list dict * list (value * value)) :=
  let deals := company_deals company all_deals in
  ids ← deal_ids deals;
  ids ← (match ids, deals with
         | [], _ :: _ => search_ids (lower company) [] (take 5 deals)
         | _, _ => Ok ids
         end);
  Ok (deals, unique_loop ∅ [] ids).

End Deals.

(** An entry of [customer_journeys.json] as it is read, and the journey
    that the loop body works on once the deals are found: the names and
    ids of [unique_deals] are used as text. *)
Record raw_journey : Type := {
  r_company : string;
  r_contacts : list dict;
  r_fields : dict;
  r_all_deals : list dict;
}.

Definition prepare_journey (search_deals search_names : string → option (list hs_deal))
    (r : raw_journey) : result journey :=
  '(deals, unique_deals) ←
    find_deals search_deals search_names (r_company r) (r_all_deals r);
  Ok {| j_company := r_company r;
        j_contacts := r_contacts r;
        j_fields := r_fields r;
        j_deals := deals;
        j_unique_deals := (λ '(name, did), (str name, str did)) <$> unique_deals |}.

(** ** The metrics of a cohort, the channels and the speed of signup *)

(** A quotient that Python computes in floating point, as its numerator
    and denominator; the constant [0] of an empty list is [0 / 1]. *)
Record quotient : Type := {
  numerator : Z;
  denominator : Z;
}.

(** [sum(l) / len(l) if l else 0] by [n]: the sum of [l] over [n]. *)
Definition average (l : list Z) (n : nat) : quotient :=
  match n with
  | O => {| numerator := 0; denominator := 1 |}
  | _ => {| numerator := foldr Z.add 0%Z l; denominator := Z.of_nat n |}
  end.

Record metrics : Type := {
  label : string;
  count : nat;
  avg_touchpoints : quotient;
  avg_days_to_signup : quotient;
  avg_days_to_close : quotient;
  touchpoint_type_counts : gmap string nat;
  source_counts : gmap value nat;
  has_email : nat;
  has_call : nat;
  has_meeting : nat;
  has_note : nat;
  has_form : nat;
  signup_days : list Z;
  close_days : list Z;
  touchpoint_counts : list nat;
  median_touchpoints : option nat;
}.

(** [counts[k] += 1] on a [defaultdict(int)] with keys that may be [None]. *)
Definition increment_value (k : value) (counts : gmap value nat) : gmap value nat :=
  <[k := S (default 0 (counts !! k))]> counts.

(** The loop over the touchpoints of a customer that counts the kinds. *)
Fixpoint count_types (tps : list touchpoint) (counts : gmap string nat)
    : gmap string nat :=
  match tps with
  | [] => counts
  | tp :: tps' => count_types tps' (increment (type tp) counts)
  end.

(** [tp_types] of a customer. *)
Definition tp_types (tps : list touchpoint) : gset string :=
  list_to_set (type <$> tps).

(** The date of the first touchpoint that passes [test], [None] without
    one: a loop that ends with [break]. *)
Fixpoint first_date (test : touchpoint → bool) (tps : list touchpoint) : value :=
  match tps with
  | [] => VNone
  | tp :: tps' => if test tp then date tp else first_date test tps'
  end.

(** [close_date] of a customer. *)
Definition close_date (tps : list touchpoint) : value :=
  let won :=
    first_date (λ tp, String.eqb (type tp) "Deal Closed"
                      && contains "Closed Won" (detail tp)) tps in
  if truthy won then won
  else first_date (λ tp, String.eqb (type tp) "Deal Closed") tps.

(** [sorted(counts)[len(counts) // 2] if counts else 0] *)
Definition median (counts : list nat) : nat :=
  default 0 (merge_sort (≤) counts !! (length counts / 2)).

Section Metrics.

Variable days_between : string → string → option Z.

(** The days from [d1] to [d2] when both are set and the difference is
    defined and not negative: the test before a day count is kept. *)
Definition kept_days (d1 d2 : value) : list Z :=
  if truthy d1 && truthy d2 then
    match days_between (str d1) (str d2) with
    | Some d => if (0 <=? d)%Z then [d] else []
    | None => []
    end
  else [].

(** The body of the loop over [group]. *)
Definition add_customer (m : metrics) (c : customer) : metrics :=
  let tps := touchpoints c in
  let types := tp_types tps in
  let bump (kind : bool) (n : nat) := if kind then S n else n in
  {| label := label m;
     count := count m;
     avg_touchpoints := avg_touchpoints m;
     avg_days_to_signup := avg_days_to_signup m;
     avg_days_to_close := avg_days_to_close m;
     touchpoint_type_counts := count_types tps (touchpoint_type_counts m);
     source_counts := increment_value (c_source c) (source_counts m);
     has_email := bump (bool_decide ("Email" ∈ types)) (has_email m);
     has_call := bump (bool_decide ("Call" ∈ types)) (has_call m);
     has_meeting := bump (bool_decide ("Meeting" ∈ types)) (has_meeting m);
     has_note := bump (bool_decide ("Note" ∈ types)) (has_note m);
     has_form := bump (bool_decide ("First Form Submission" ∈ types)
                       || bool_decide ("Form Submission" ∈ types)) (has_form m);
     signup_days := signup_days m ++ kept_days (first_touch c) (cognito_signup c);
     close_days := close_days m ++ kept_days (first_touch c) (close_date tps);
     touchpoint_counts := touchpoint_counts m ++ [length tps];
     median_touchpoints := median_touchpoints m |}.

Definition compute_group_metrics (group : list customer) (label_ : string)
    : metrics :=
  let metrics :=
    {| label := label_;
       count := length group;
       avg_touchpoints := average [] 0;
       avg_days_to_signup := average [] 0;
       avg_days_to_close := average [] 0;
       touchpoint_type_counts := ∅;
       source_counts := ∅;
       has_email := 0; has_call := 0; has_meeting := 0; has_note := 0;
       has_form := 0;
       signup_days := []; close_days := []; touchpoint_counts := [];
       median_touchpoints := None |} in
  match group with
  | [] => metrics
  | _ =>
      let m := foldl add_customer metrics group in
      {| label := label m;
         count := count m;
         avg_touchpoints :=
           average (Z.of_nat <$> touchpoint_counts m) (length group);
         avg_days_to_signup := average (signup_days m) (length (signup_days m));
         avg_days_to_close := average (close_days m) (length (close_days m));
         touchpoint_type_counts := touchpoint_type_counts m;
         source_counts := source_counts m;
         has_email := has_email m;
         has_call := has_call m;
         has_meeting := has_meeting m;
         has_note := has_note m;
         has_form := has_form m;
         signup_days := signup_days m;
         close_days := close_days m;
         touchpoint_counts := touchpoint_counts m;
         median_touchpoints := Some (median (touchpoint_counts m)) |}
  end.

(** [sum(outcomes.values())] *)
Definition channel_total (outcomes : gmap string nat) : nat :=
  map_fold (λ _ n total, n + total) 0 outcomes.

(** [outcomes.get("Closed Won", 0)] *)
Definition channel_won (outcomes : gmap string nat) : nat :=
  default 0 (outcomes !! "Closed Won").

(** The loop that fills [channel_outcomes], a table of tables. *)
Fixpoint channel_loop (all : list customer)
    (channel_outcomes : gmap value (gmap string nat))
    : gmap value (gmap string nat) :=
  match all with
  | [] => channel_outcomes
  | c :: all' =>
      let src := c_source c in
      let outcome := or_str (deal_stage c) "No Deal" in
      channel_loop all'
        (<[src := increment outcome (default ∅ (channel_outcomes !! src))]>
           channel_outcomes)
  end.

(** The bucket of a number of days that is not negative. *)
Definition speed_bucket (days : Z) : string :=
  if (days =? 0)%Z then "Same day (0)"
  else if (days <=? 7)%Z then "1-7 days"
  else if (days <=? 30)%Z then "8-30 days"
  else if (days <=? 90)%Z then "31-90 days"
  else "90+ days".

(** The loop that fills [speed_buckets]. *)
Fixpoint speed_loop (all : list customer)
    (speed_buckets : gmap string (list customer))
    : gmap string (list customer) :=
  match all with
  | [] => speed_buckets
  | c :: all' =>
      match kept_days (first_touch c) (cognito_signup c) with
      | days :: _ =>
          speed_loop all'
            (<[speed_bucket days :=
                 default [] (speed_buckets !! speed_bucket days) ++ [c]]>
               speed_buckets)
      | [] => speed_loop all' speed_buckets
      end
  end.

Definition speed_buckets (all : list customer) : gmap string (list customer) :=
  speed_loop all
    {[ "Same day (0)" := []; "1-7 days" := []; "8-30 days" := [];
       "31-90 days" := []; "90+ days" := [] ]}.

End Metrics.

(** ** The groups of the gaps *)

Definition gap_won (g : touchpoint_gap) : bool :=
  bool_decide (outcome g = VStr "Closed Won").

Definition gap_stalled (g : touchpoint_gap) : bool :=
  value_in (outcome g)
    ["Demo Scheduled"; "Demo Follow-Up"; "On Hold"; "Free Trial";
     "Payment Link Sent"].

Definition gap_churned (g : touchpoint_gap) : bool :=
  value_in (outcome g) ["Churn"; "Closed Lost"].

Definition gap_no_deal (g : touchpoint_gap) : bool :=
  bool_decide (outcome g = VNone) || value_in (outcome g) ["No Deal"; ""].

Definition won_gaps (gaps : list touchpoint_gap) : list Z :=
  gap_days <$> List.filter gap_won gaps.
Definition stall_gaps (gaps : list touchpoint_gap) : list Z :=
  gap_days <$> List.filter gap_stalled gaps.
Definition churn_gaps (gaps : list touchpoint_gap) : list Z :=
  gap_days <$> List.filter gap_churned gaps.
Definition nodeal_gaps (gaps : list touchpoint_gap) : list Z :=
  gap_days <$> List.filter gap_no_deal gaps.

(** [sum(1 for g in gaps if g > n)] *)
Definition over (n : Z) (gaps : list Z) : nat :=
  length (List.filter (λ g, (n <? g)%Z) gaps).

(** ** The largest gaps *)

(** [sorted(l, key=...)] with numbers as keys: a stable sort, as insertion
    from the right is. *)
Section SortNumbers.

Context {A : Type} (key : A → Z).

Fixpoint insert_by_number (x : A) (l : list A) : list A :=
  match l with
  | [] => [x]
  | y :: l' =>
      if (key x <=? key y)%Z then x :: l else y :: insert_by_number x l'
  end.

Definition sorted_by_number (l : list A) : list A :=
  foldr insert_by_number [] l.

End SortNumbers.

(** [sorted([g for g in touchpoint_gaps if g["gap_days"] > 30],
            key=lambda g: -g["gap_days"])[:20]] *)
Definition big_gaps (gaps : list touchpoint_gap) : list touchpoint_gap :=
  take 20
    (sorted_by_number (λ g, (- gap_days g)%Z)
       (List.filter (λ g, (30 <? gap_days g)%Z) gaps)).

(** ** The warnings of the timeline *)

Section Timeline.

Variable days_between : string → string → option Z.

(** The gaps that the timeline of a customer warns about: for every
    touchpoint but the last, when its date and the date of the next one are
    set, [gap = days_between(tp["date"], next_date)] is printed
    [if gap and gap > 7]. *)
Fixpoint timeline_warnings (tps : list touchpoint) : list Z :=
  match tps with
  | tp :: (next :: _) as tps' =>
      (if truthy (date tp) && truthy (date next) then
         match days_between (str (date tp)) (str (date next)) with
         | Some gap =>
             if negb (gap =? 0)%Z && (7 <? gap)%Z then [gap] else []
         | None => []
         end
       else [])
      ++ timeline_warnings tps'
  | _ => []
  end.

End Timeline.

(** ** Tests on customers, to state what the tables count *)

(** A customer with a touchpoint of the kind [k]. *)
Definition reached_by (k : string) (c : customer) : Prop :=
  k ∈ type <$> touchpoints c.

Global Instance reached_by_dec k c : Decision (reached_by k c).
Proof. unfold reached_by. apply _. Defined.

(** The outcome of a customer in the table of the channels. *)
Definition channel_outcome (c : customer) : string :=
  or_str (deal_stage c) "No Deal".

(** The bucket of a customer whose days to signup are kept. *)
Definition signup_bucket (days_between : string → string → option Z)
    (c : customer) : option string :=
  speed_bucket
  <$> head (kept_days days_between (first_touch c) (cognito_signup c)).

(** The gap days of the customers of a cohort, in the order of the
    cohort. *)
Definition cohort_gaps (days_between : string → string → option Z)
    (cohort : list customer) : list Z :=
  cohort ≫= λ c, gap_days <$> customer_gaps days_between c.

(** ** Tests on strings, to state what the string operations keep *)

(** The first, and the last, character of [s] is white space. *)
Definition head_space (s : string) : bool :=
  match s with
  | String c _ => is_space c
  | "" => false
  end.

Fixpoint last_space (s : string) : bool :=
  match s with
  | String c "" => is_space c
  | String _ s' => last_space s'
  | "" => false
  end.

(** [c in s] for a character [c]. *)
Fixpoint has_char (c : ascii) (s : string) : bool :=
  match s with
  | String c' s' => Ascii.eqb c' c || has_char c s'
  | "" => false
  end.

Definition LPAREN : ascii := Ascii.ascii_of_nat 40.

(** Some character of [s] is white space. *)
Fixpoint has_space (s : string) : bool :=
  match s with
  | String c s' => is_space c || has_space s'
  | "" => false
  end.

(** The last character of [s] is [c]. *)
Fixpoint last_is (c : ascii) (s : string) : bool :=
  match s with
  | String c' "" => Ascii.eqb c' c
  | String _ s' => last_is c s'
  | "" => false
  end.

(** The detail of a stage change, as [history_touchpoints] writes it. *)
Definition stage_change_detail (deal_name stage source_type : string) : string :=
  QUOTE +:+ deal_name +:+ QUOTE +:+ " moved to: " +:+ stage
  +:+ " (via " +:+ source_type +:+ ")".

(** * The statements of the specification

    Definitions that follow the words of the specification, to compare the
    code with. *)

(** A touchpoint with a timestamp; the others are the ones whose timestamp
    is missing ([None] or empty). *)
Definition dated (tp : touchpoint) : bool := truthy (date tp).

(** "Unknown-timestamp entries strictly last": no touchpoint without a
    timestamp stands before one with a timestamp. *)
Fixpoint missing_last (l : list touchpoint) : bool :=
  match l with
  | [] => true
  | tp :: l' =>
      (dated tp || forallb (λ tp', negb (dated tp')) l') && missing_last l'
  end.

(** A touchpoint whose date is text, which the deduplicator can slice. *)
Definition has_date (tp : touchpoint) : bool :=
  match date tp with
  | VStr _ => true
  | VNone => false
  end.

(** The key of the specification: the timestamp cut to the minute (the 16
    characters of [YYYY-MM-DDTHH:MM]), the kind, and the first 50
    characters of the detail. *)
Definition minute_key (tp : touchpoint) : string * string * string :=
  (str_take 16 (str (date tp)), type tp, str_take 50 (detail tp)).

(** "First occurrence wins": a touchpoint of [l] is kept when none of the
    touchpoints before it, [earlier] and the ones of [l], kept or dropped,
    has its key. *)
Fixpoint first_occurrences (earlier l : list touchpoint) : list touchpoint :=
  match l with
  | [] => []
  | tp :: l' =>
      (if bool_decide (minute_key tp ∈ minute_key <$> earlier) then [] else [tp])
      ++ first_occurrences (earlier ++ [tp]) l'
  end.

(** [s.endswith(suffix)] *)
Definition ends_with (suffix s : string) : bool :=
  String.eqb (str_drop (String.length s - String.length suffix) s) suffix.

(** The text that [truncate] measures and cuts: [text] with its line feeds
    and carriage returns replaced by spaces and its ends stripped, the empty
    text for a [text] that is not truthy. *)
Definition cleaned (text : value) : string :=
  if truthy text
  then strip (replace_char CR SP (replace_char LF SP (str text)))
  else "".

(** "Truncated at a fixed character cap with ellipsis marker": the first
    [cap] characters of a text longer than [cap], followed by the marker;
    a text that is not longer, whole. *)
Definition capped (cap : nat) (s : string) : string :=
  if cap <? String.length s then str_take cap s +:+ "..." else s.

(** The names of the cohorts whose membership test a customer passes. *)
Definition cohorts_of (c : customer) : list string :=
  (if in_closed_won c then ["Closed Won"] else [])
  ++ (if in_churned c then ["Churned"] else [])
  ++ (if in_stalled c then ["Stalled (Active)"] else [])
  ++ (if in_no_deal c then ["No Deal"] else []).

(** The pairs of neighbours of a sequence. *)
Fixpoint consecutive {A : Type} (l : list A) : list (A * A) :=
  match l with
  | a :: (b :: _) as l' => (a, b) :: consecutive l'
  | _ => []
  end.

(** A touchpoint that counts for the gaps: dated, and not of the kind
    "Last Sales Activity". *)
Definition counted (tp : touchpoint) : bool :=
  truthy (date tp) && negb (String.eqb (type tp) "Last Sales Activity").

(** The dates and kinds of the touchpoints that count, in their order. *)
Definition marks (tps : list touchpoint) : list (value * string) :=
  (λ tp, (date tp, type tp)) <$> filter counted tps.

(** "One TouchpointGap per consecutive pair with a strictly positive
    day-difference". *)
Definition gap_between (days_between : string → string → option Z)
    (c : customer) (p : (value * string) * (value * string))
    : list touchpoint_gap :=
  match days_between (str p.1.1) (str p.2.1) with
  | Some gap =>
      if (0 <? gap)%Z
      then [ {| gap_company := company c; gap_days := gap;
                from_type := p.1.2; to_type := p.2.2;
                outcome := deal_stage c |} ]
      else []
  | None => []
  end.

(** An answer that is the rate-limit signal, HTTP 429. *)
Definition rate_limited (r : response) : bool :=
  match r with
  | HTTPError code => code =? 429
  | _ => false
  end.

(** What one attempt gives when it is not rate limited. *)
Definition answer (r : response) : option dict :=
  match r with
  | Body data => Some data
  | _ => None
  end.

(** "Retried once with fixed delay; if still failing, that call's data is
    treated as absent": the call of the specification. *)
Definition retry_once (rs : list response) : option call :=
  match rs with
  | [] => None
  | r :: rs' =>
      if rate_limited r then
        match rs' with
        | [] => None
        | r' :: _ => Some {| returned := answer r'; attempts := 2; slept := 10 |}
        end
      else Some {| returned := answer r; attempts := 1; slept := 0 |}
  end.

(** "The text between [moved to:] and the first [(]", stripped. *)
Definition claimed_stage (detail : string) : string :=
  strip (before_first "(" (default "" (after_first "moved to:" detail))).

(** A "Deal Stage Change" touchpoint whose detail holds the phrase
    "moved to:". *)
Definition stage_changed (tp : touchpoint) : bool :=
  String.eqb (type tp) "Deal Stage Change" && contains "moved to:" (detail tp).

(** The text after the first "moved to:" of a detail, up to the next
    "moved to:" or "(", whichever comes first, or to the end of the detail,
    stripped. *)
Definition extracted_stage (detail : string) : string :=
  strip (before_first "("
           (before_first "moved to:"
              (default "" (after_first "moved to:" detail)))).

(** The stages of a customer: the stage of each of its stage changes, in
    the order of its touchpoints. *)
Definition customer_stages (c : customer) : list string :=
  (λ tp, extracted_stage (detail tp))
  <$> List.filter stage_changed (touchpoints c).

(** The number of neighbours in [stages] whose transition is [k]. *)
Definition transitions_of (k : string) (stages : list string) : nat :=
  length (filter (λ p, transition p.1 p.2 = k) (consecutive stages)).

(** ** Example touchpoints *)

(** The signup of a contact that the CRM does not know and whose journey
    entry has no [created] field. *)
Definition signup_undated : touchpoint :=
  {| date := VStr ""; type := "Platform Signup";
     detail := "ann@acme.io created Cognito account";
     source := "Cognito"; contact := None |}.

(** The close of a deal whose close date is in the year 9999. *)
Definition deal_closed_9999 : touchpoint :=
  {| date := VStr "9999-12-31T23:59:59Z"; type := "Deal Closed";
     detail := QUOTE +:+ "Acme" +:+ QUOTE +:+ " closed | Final: On Hold";
     source := "HubSpot Deal"; contact := None |}.

(** Two fetches of one email, thirty seconds apart. *)
Definition email_10_00_00 : touchpoint :=
  {| date := VStr "2024-03-01T10:00:00Z"; type := "Email";
     detail := "[EMAIL] Welcome to Arda";
     source := "HubSpot Engagement"; contact := Some "ann@acme.io" |}.

(** An email half a second after [email_10_00_00], with the fraction of the
    second that the CRM prints when it is not zero. *)
Definition email_10_00_00_500 : touchpoint :=
  {| date := VStr "2024-03-01T10:00:00.500Z"; type := "Email";
     detail := "[EMAIL] Re: Welcome to Arda";
     source := "HubSpot Engagement"; contact := Some "ann@acme.io" |}.

Definition email_10_00_30 : touchpoint :=
  {| date := VStr "2024-03-01T10:00:30Z"; type := "Email";
     detail := "[EMAIL] Welcome to Arda";
     source := "HubSpot Engagement"; contact := Some "ann@acme.io" |}.

(** ** An example run: a note of 151 characters *)

Fixpoint repeat_char (c : ascii) (n : nat) : string :=
  match n with
  | O => ""
  | S n' => String c (repeat_char c n')
  end.

Definition long_note_body : string := repeat_char (Ascii.ascii_of_nat 97) 151.

(** A CRM that knows every contact, with one note of 151 letters. *)
Definition crm_long_note : crm :=
  {| contact_by_email := λ _, Some {| hs_id := "101"; hs_properties := ∅ |};
     associations := λ _ eng_type,
       if String.eqb eng_type "notes" then [ {[ "id" := VStr "7" ]} ] else [];
     engagement_details := λ _ _,
       Some {| eng_properties :=
                 {[ "hs_timestamp" := VStr "2024-03-01T10:00:00Z";
                    "hs_note_body" := VStr long_note_body ]};
               createdAt := VNone |};
     deal_property_history := λ _, None |}.

Definition no_call_seconds : string → result string := λ _, Raise ValueError.

Definition journey_acme : journey :=
  {| j_company := "Acme";
     j_contacts := [ {[ "email" := VStr "Ann@Acme.io " ]} ];
     j_fields := {[ "deal_stage" := VStr "Closed Won" ]};
     j_deals := [];
     j_unique_deals := [] |}.

(** A CRM that knows nobody, and a contact of a journey. *)
Definition crm_unknown : crm :=
  {| contact_by_email := λ _, None;
     associations := λ _ _, [];
     engagement_details := λ _ _, None;
     deal_property_history := λ _, None |}.

Definition contact_bob : dict :=
  {[ "email" := VStr " Bob@Acme.io"; "created" := VStr "2024-02-01T09:30:00Z" ]}.

(** Deal stage changes: the example of the specification, the stage
    before it, and a deal whose name holds the phrase of the convention. *)
Definition detail_demo_scheduled : string :=
  QUOTE +:+ "Acme Deal" +:+ QUOTE +:+ " moved to: Demo Scheduled (via CRM_UI)".

Definition detail_lead : string :=
  QUOTE +:+ "Acme Deal" +:+ QUOTE +:+ " moved to: Lead (via CRM_UI)".

Definition detail_two_phrases : string :=
  QUOTE +:+ "Q3 moved to: Q4" +:+ QUOTE +:+ " moved to: Demo Scheduled (via CRM_UI)".

Definition stage_change (d detail : string) : touchpoint :=
  {| date := VStr d; type := "Deal Stage Change"; detail := detail;
     source := "HubSpot Deal"; contact := None |}.

(** A customer for the analysis: two stage changes, an email, a touchpoint
    of the kind that the gaps skip, and a meeting a week after the email;
    and a table of day differences for its dates. *)
Definition customer_acme : customer :=
  {| company := "Acme"; tenant_id := VStr "t-1";
     lifecycle_stage := VStr "customer"; deal_stage := VStr "Closed Won";
     deal_amount := VNone; first_touch := VNone; cognito_signup := VNone;
     c_source := VStr "PAID_SEARCH";
     touchpoints :=
       [ stage_change "2024-01-05T09:00:00Z" detail_lead;
         email_10_00_00;
         {| date := VStr "2024-03-02T08:00:00Z"; type := "Last Sales Activity";
            detail := "Most recent sales activity for ann@acme.io";
            source := "HubSpot Sales"; contact := Some "ann@acme.io" |};
         stage_change "2024-03-02T09:00:00Z" detail_demo_scheduled;
         {| date := VStr "2024-03-08T10:00:00Z"; type := "Meeting";
            detail := "Meeting with ann@acme.io";
            source := "HubSpot Meetings"; contact := Some "ann@acme.io" |} ];
     contact_details := [];
     total_touchpoints := 5 |}.

Definition days_between_acme (d1 d2 : string) : option Z :=
  if String.eqb d1 "2024-01-05T09:00:00Z" && String.eqb d2 "2024-03-01T10:00:00Z"
  then Some 56%Z
  else if String.eqb d1 "2024-03-01T10:00:00Z" && String.eqb d2 "2024-03-02T09:00:00Z"
  then Some 0%Z
  else if String.eqb d1 "2024-03-02T09:00:00Z" && String.eqb d2 "2024-03-08T10:00:00Z"
  then Some 6%Z
  else None.

(** A CRM with the history of one deal: two stage changes and a change of
    the amount. *)
Definition crm_acme_deal : crm :=
  {| contact_by_email := λ _, None;
     associations := λ _ _, [];
     engagement_details := λ _ _, None;
     deal_property_history := λ deal_id,
       if String.eqb deal_id "9" then
         Some {| dealstage :=
                   [ {[ "timestamp" := VStr "2024-01-05T09:00:00Z";
                        "value" := VStr "qualifiedtobuy";
                        "sourceType" := VStr "CRM_UI" ]};
                     {[ "timestamp" := VStr "2024-03-02T09:00:00Z";
                        "value" := VStr "presentationscheduled";
                        "sourceType" := VStr "CRM_UI" ]} ];
                 amount :=
                   [ {[ "timestamp" := VStr "2024-03-02T09:05:00Z";
                        "value" := VStr "1200" ]} ] |}
       else None |}.

(** The customer Acme without its touchpoint of the kind "Last Sales
    Activity": every touchpoint counts for the gaps. *)
Definition customer_acme_counted : customer :=
  {| company := "Acme"; tenant_id := VStr "t-1";
     lifecycle_stage := VStr "customer"; deal_stage := VStr "Closed Won";
     deal_amount := VNone; first_touch := VNone; cognito_signup := VNone;
     c_source := VStr "PAID_SEARCH";
     touchpoints := List.filter counted (touchpoints customer_acme);
     contact_details := [];
     total_touchpoints := 4 |}.

(** A contact of a journey whose [created] is null, the signup that the
    loop appends for it when the CRM does not know it, and two journeys
    with one such contact: one with [created] null, one without the
    field. *)
Definition contact_null_created : dict :=
  {[ "email" := VStr "bob@acme.io"; "created" := VNone ]}.

Definition signup_null : touchpoint :=
  {| date := VNone; type := "Platform Signup";
     detail := "bob@acme.io created Cognito account";
     source := "Cognito"; contact := None |}.

Definition journey_null_created : journey :=
  {| j_company := "Acme";
     j_contacts := [contact_null_created];
     j_fields := ∅;
     j_deals := [];
     j_unique_deals := [] |}.

Definition journey_no_created : journey :=
  {| j_company := "Acme";
     j_contacts := [ {[ "email" := VStr "bob@acme.io" ]} ];
     j_fields := ∅;
     j_deals := [];
     j_unique_deals := [] |}.

(** A CRM that lists the history of the deal 9 newest first, with the
    first stage change fetched twice in one minute, and the journey of the
    company with that deal. *)
Definition crm_newest_first : crm :=
  {| contact_by_email := λ _, None;
     associations := λ _ _, [];
     engagement_details := λ _ _, None;
     deal_property_history := λ deal_id,
       if String.eqb deal_id "9" then
         Some {| dealstage :=
                   [ {[ "timestamp" := VStr "2024-03-02T09:00:00Z";
                        "value" := VStr "presentationscheduled";
                        "sourceType" := VStr "CRM_UI" ]};
                     {[ "timestamp" := VStr "2024-01-05T09:00:30Z";
                        "value" := VStr "qualifiedtobuy";
                        "sourceType" := VStr "CRM_UI" ]};
                     {[ "timestamp" := VStr "2024-01-05T09:00:00Z";
                        "value" := VStr "qualifiedtobuy";
                        "sourceType" := VStr "CRM_UI" ]} ];
                 amount := [] |}
       else None |}.

Definition journey_acme_deal : journey :=
  {| j_company := "Acme";
     j_contacts := [];
     j_fields := ∅;
     j_deals := [];
     j_unique_deals := [("Acme Deal", "9")] |}.

(** A CRM that knows ann@acme.io alone, with one email that it lists
    twice, fetched thirty seconds apart, and the journey of a company with
    her and with the contact whose [created] is null. *)
Definition crm_two_emails : crm :=
  {| contact_by_email := λ email,
       if String.eqb email "ann@acme.io"
       then Some {| hs_id := "101"; hs_properties := ∅ |}
       else None;
     associations := λ _ eng_type,
       if String.eqb eng_type "emails"
       then [ {[ "id" := VStr "1" ]}; {[ "id" := VStr "2" ]} ]
       else [];
     engagement_details := λ _ eng_id,
       Some {| eng_properties :=
                 {[ "hs_timestamp" :=
                      VStr (if String.eqb eng_id "1"
                            then "2024-03-01T10:00:00Z"
                            else "2024-03-01T10:00:30Z");
                    "hs_email_subject" := VStr "Welcome to Arda";
                    "hs_email_direction" := VStr "EMAIL" ]};
               createdAt := VNone |};
     deal_property_history := λ _, None |}.

Definition journey_ann_bob : journey :=
  {| j_company := "Acme";
     j_contacts := [ {[ "email" := VStr "ann@acme.io" ]}; contact_null_created ];
     j_fields := ∅;
     j_deals := [];
     j_unique_deals := [] |}.

(** * Properties *)

(** ** Strings *)

Lemma length_str_take (n : nat) (s : string) :
  String.length (str_take n s) = n `min` String.length s.
Proof.
  revert s; induction n as [|n IH]; intros [|c s]; simpl; auto.
Qed.

Lemma length_app (s1 s2 : string) :
  String.length (s1 +:+ s2) = String.length s1 + String.length s2.
Proof. induction s1 as [|c s1 IH]; simpl; auto. Qed.

Lemma app_cons (c : ascii) (s1 s2 : string) :
  String c s1 +:+ s2 = String c (s1 +:+ s2).
Proof. reflexivity. Qed.

Lemma app_empty (s : string) : "" +:+ s = s.
Proof. reflexivity. Qed.

Lemma str_app_assoc (a b c : string) : (a +:+ b) +:+ c = a +:+ (b +:+ c).
Proof.
  induction a as [|x a IH]; rewrite ?app_cons, ?app_empty; [done|].
  by rewrite IH.
Qed.

Lemma str_take_all (n : nat) (s : string) :
  String.length s ≤ n → str_take n s = s.
Proof.
  revert s; induction n as [|n IH]; intros [|c s]; simpl; intros H;
    try reflexivity; try lia.
  f_equal. apply IH. lia.
Qed.

Lemma str_take_idemp (n : nat) (s : string) :
  str_take n (str_take n s) = str_take n s.
Proof. apply str_take_all. rewrite length_str_take. lia. Qed.

Lemma leb_le (s1 s2 : string) : String.leb s1 s2 = true ↔ (s1 ≤ s2)%string.
Proof. unfold String.le. rewrite Is_true_true. reflexivity. Qed.

Lemma leb_false_le (s1 s2 : string) :
  String.leb s1 s2 = false → (s2 ≤ s1)%string ∧ s1 ≠ s2.
Proof.
  intros H. split.
  - destruct (total String.le s1 s2) as [Hle|Hle]; [|exact Hle].
    apply leb_le in Hle. congruence.
  - intros ->. assert (Hr : (s2 ≤ s2)%string) by reflexivity.
    apply leb_le in Hr. congruence.
Qed.

(** ** Stable sorting by a key *)

Section SortFacts.

Context {A : Type} (key : A → string).

Lemma insert_by_perm (x : A) (l : list A) : insert_by key x l ≡ₚ x :: l.
Proof.
  induction l as [|y l IH]; simpl; [reflexivity|].
  destruct (String.leb (key x) (key y)); [reflexivity|].
  rewrite IH. apply Permutation_swap.
Qed.

Lemma sort_by_perm (l : list A) : sort_by key l ≡ₚ l.
Proof.
  induction l as [|x l IH]; simpl; [reflexivity|].
  rewrite insert_by_perm. by f_equiv.
Qed.

Lemma insert_by_sorted (x : A) (l : list A) :
  StronglySorted (key_le key) l → StronglySorted (key_le key) (insert_by key x l).
Proof.
  induction 1 as [|y l Hl IH Hy]; simpl.
  - repeat constructor.
  - destruct (String.leb (key x) (key y)) eqn:E.
    + apply leb_le in E. constructor; [by constructor|].
      constructor; [exact E|].
      eapply Forall_impl; [exact Hy|].
      intros z Hz. unfold key_le in *. by etrans.
    + apply leb_false_le in E as [E _]. constructor; [exact IH|].
      rewrite insert_by_perm. by constructor.
Qed.

Lemma sort_by_sorted (l : list A) : StronglySorted (key_le key) (sort_by key l).
Proof.
  induction l as [|x l IH]; simpl; [constructor|].
  by apply insert_by_sorted.
Qed.

Lemma insert_by_stable (k : string) (x : A) (l : list A) :
  filter (λ a, key a = k) (insert_by key x l)
  = filter (λ a, key a = k) (x :: l).
Proof.
  induction l as [|y l IH]; simpl; [reflexivity|].
  destruct (String.leb (key x) (key y)) eqn:E; [reflexivity|].
  apply leb_false_le in E as [_ E].
  rewrite filter_cons, IH, !filter_cons.
  repeat case_decide; congruence.
Qed.

Lemma sort_by_stable (k : string) (l : list A) :
  filter (λ a, key a = k) (sort_by key l) = filter (λ a, key a = k) l.
Proof.
  induction l as [|x l IH]; simpl; [reflexivity|].
  rewrite insert_by_stable, !filter_cons, IH. reflexivity.
Qed.

(** Two lists in the order of the keys that hold, for every key, the same
    elements in the same order are equal. *)
Lemma sorted_stable_eq (l1 l2 : list A) :
  StronglySorted (key_le key) l1 → StronglySorted (key_le key) l2 →
  (∀ k, filter (λ a, key a = k) l1 = filter (λ a, key a = k) l2) →
  l1 = l2.
Proof.
  revert l2; induction l1 as [|a l1 IH]; intros l2 H1 H2 Hf.
  - destruct l2 as [|b l2]; [reflexivity|].
    specialize (Hf (key b)). rewrite filter_cons_True in Hf by done.
    discriminate.
  - destruct l2 as [|b l2].
    { specialize (Hf (key a)). rewrite filter_cons_True in Hf by done.
      discriminate. }
    apply StronglySorted_cons in H1 as [Ha H1].
    apply StronglySorted_cons in H2 as [Hb H2].
    assert (Hkey : key a = key b).
    { apply (anti_symm String.le).
      - assert (Hin : b ∈ a :: l1).
        { eapply (proj1 (list_elem_of_filter (λ x, key x = key b) _ _)).
          rewrite Hf, filter_cons_True by done. left. }
        apply elem_of_cons in Hin as [->|Hin]; [reflexivity|].
        rewrite Forall_forall in Ha. by apply Ha.
      - assert (Hin : a ∈ b :: l2).
        { eapply (proj1 (list_elem_of_filter (λ x, key x = key a) _ _)).
          rewrite <- Hf, filter_cons_True by done. left. }
        apply elem_of_cons in Hin as [->|Hin]; [reflexivity|].
        rewrite Forall_forall in Hb. by apply Hb. }
    assert (a = b) as ->.
    { specialize (Hf (key a)).
      rewrite !filter_cons_True in Hf by done. congruence. }
    f_equal. apply IH; [done..|].
    intros k. specialize (Hf k). rewrite !filter_cons in Hf.
    case_decide; congruence.
Qed.

(** Every stable sort by [key] is [sort_by key]. *)
Lemma stable_sort_unique (l l' : list A) :
  StronglySorted (key_le key) l' →
  (∀ k, filter (λ a, key a = k) l' = filter (λ a, key a = k) l) →
  l' = sort_by key l.
Proof.
  intros Hs Hf. apply sorted_stable_eq; [done|apply sort_by_sorted|].
  intros k. by rewrite Hf, sort_by_stable.
Qed.

End SortFacts.

Lemma StronglySorted_sublist {A : Type} (R : relation A) (l1 l2 : list A) :
  l1 `sublist_of` l2 → StronglySorted R l2 → StronglySorted R l1.
Proof.
  induction 1 as [|x l1 l2 Hsub IH|x l1 l2 Hsub IH]; intros Hs.
  - constructor.
  - apply StronglySorted_cons in Hs as [Hx Hs].
    apply StronglySorted_cons. split; [|by apply IH].
    rewrite Forall_forall in Hx |- *.
    intros y Hy. apply Hx. by eapply elem_of_sublist.
  - apply StronglySorted_cons in Hs as [_ Hs]. by apply IH.
Qed.

Lemma StronglySorted_lookup {A : Type} (R : relation A) (l : list A)
    (i j : nat) (a b : A) :
  StronglySorted R l → i < j → l !! i = Some a → l !! j = Some b → R a b.
Proof.
  intros Hs. revert i j. induction Hs as [|x l Hs IH Hx]; intros i j Hij Hi Hj.
  - by rewrite lookup_nil in Hi.
  - destruct j as [|j]; [lia|]. destruct i as [|i]; simpl in *.
    + injection Hi as ->. rewrite Forall_forall in Hx.
      apply Hx. by eapply list_elem_of_lookup_2.
    + apply (IH i j); [lia|done..].
Qed.

(** ** The deduplicator *)

Lemma dedup_key_has_date (tp : touchpoint) :
  dedup_key tp = if has_date tp then Ok (minute_key tp) else Raise TypeError.
Proof. unfold dedup_key, has_date, minute_key. by destruct (date tp). Qed.

Lemma dedup_loop_spec (seen_keys : gset (string * string * string))
    (deduped earlier l : list touchpoint) :
  (∀ k, k ∈ seen_keys ↔ k ∈ minute_key <$> earlier) →
  dedup_loop seen_keys deduped l
  = if forallb has_date l
    then Ok (deduped ++ first_occurrences earlier l)
    else Raise TypeError.
Proof.
  revert seen_keys deduped earlier.
  induction l as [|tp l IH]; intros seen_keys deduped earlier Hseen; simpl.
  - by rewrite app_nil_r.
  - rewrite dedup_key_has_date. destruct (has_date tp); simpl; [|reflexivity].
    destruct (decide (minute_key tp ∈ seen_keys)) as [Hin|Hin].
    + rewrite (IH _ _ (earlier ++ [tp])).
      * rewrite bool_decide_eq_true_2 by (by apply Hseen). reflexivity.
      * intros k. rewrite fmap_app, elem_of_app, <- Hseen. simpl.
        rewrite list_elem_of_singleton. split; [auto|].
        by intros [?| ->].
    + rewrite (IH _ _ (earlier ++ [tp])).
      * rewrite bool_decide_eq_false_2 by (by rewrite <- Hseen).
        by rewrite <- app_assoc.
      * intros k. rewrite fmap_app, elem_of_app, <- Hseen. simpl.
        rewrite list_elem_of_singleton, elem_of_union, elem_of_singleton.
        tauto.
Qed.

Lemma dedup_spec (l : list touchpoint) :
  dedup l
  = if forallb has_date l then Ok (first_occurrences [] l) else Raise TypeError.
Proof.
  unfold dedup. rewrite (dedup_loop_spec ∅ [] []); [done|].
  intros k. rewrite elem_of_empty. simpl. by rewrite elem_of_nil.
Qed.

Lemma first_occurrences_sublist (earlier l : list touchpoint) :
  first_occurrences earlier l `sublist_of` l.
Proof.
  revert earlier; induction l as [|tp l IH]; intros earlier; simpl; [done|].
  case_bool_decide; simpl.
  - by apply sublist_cons.
  - by apply sublist_skip.
Qed.

Lemma first_occurrences_fresh (earlier l : list touchpoint) :
  NoDup (minute_key <$> first_occurrences earlier l)
  ∧ ∀ tp, tp ∈ first_occurrences earlier l →
          minute_key tp ∉ minute_key <$> earlier.
Proof.
  revert earlier; induction l as [|tp l IH]; intros earlier; simpl.
  - split; [constructor|]. intros tp Htp. by apply elem_of_nil in Htp.
  - destruct (IH (earlier ++ [tp])) as [Hnd Hfresh].
    assert (Hweak : ∀ tp', tp' ∈ first_occurrences (earlier ++ [tp]) l →
                           (minute_key tp' ∉ minute_key <$> earlier)
                           ∧ minute_key tp' ≠ minute_key tp).
    { intros tp' Htp'. apply Hfresh in Htp'.
      rewrite fmap_app, elem_of_app in Htp'. simpl in Htp'.
      rewrite list_elem_of_singleton in Htp'. split; intros ?; tauto. }
    case_bool_decide as Hin; simpl.
    + split; [done|]. intros tp' Htp'. by apply Hweak.
    + split.
      * constructor; [|done]. intros Hk.
        apply list_elem_of_fmap in Hk as (tp' & Hk & Htp').
        apply Hweak in Htp' as [_ Hne]. congruence.
      * intros tp' [->|Htp']%elem_of_cons; [done|]. by apply Hweak.
Qed.

Lemma first_occurrences_fixed (earlier l : list touchpoint) :
  NoDup (minute_key <$> l) →
  (∀ tp, tp ∈ l → minute_key tp ∉ minute_key <$> earlier) →
  first_occurrences earlier l = l.
Proof.
  revert earlier; induction l as [|tp l IH]; intros earlier Hnd Hfresh;
    simpl; [done|].
  rewrite fmap_cons in Hnd. apply NoDup_cons in Hnd as [Htp Hnd].
  rewrite bool_decide_eq_false_2 by (apply Hfresh; left).
  simpl. f_equal. apply IH; [done|].
  intros tp' Htp'. rewrite fmap_app, elem_of_app. intros [Hin|Hin].
  - apply (Hfresh tp'); [by right|done].
  - apply list_elem_of_fmap in Hin as (tp'' & Hk & ->%list_elem_of_singleton).
    apply Htp. rewrite <- Hk. by apply list_elem_of_fmap_2.
Qed.

Lemma first_occurrences_app (earlier l1 l2 : list touchpoint) :
  first_occurrences earlier (l1 ++ l2)
  = first_occurrences earlier l1 ++ first_occurrences (earlier ++ l1) l2.
Proof.
  revert earlier; induction l1 as [|tp l1 IH]; intros earlier; cbn.
  - by rewrite app_nil_r.
  - rewrite IH, <- !app_assoc. reflexivity.
Qed.

Lemma forallb_sublist {A : Type} (f : A → bool) (l1 l2 : list A) :
  l1 `sublist_of` l2 → forallb f l2 = true → forallb f l1 = true.
Proof.
  induction 1 as [|x l1 l2 _ IH|x l1 l2 _ IH]; simpl;
    rewrite ?andb_true_iff; [done|intros [? ?]; auto|intros [_ ?]; auto].
Qed.

Lemma dedup_sublist (l out : list touchpoint) :
  dedup l = Ok out → out `sublist_of` l.
Proof.
  rewrite dedup_spec. destruct (forallb has_date l); [|discriminate].
  intros [= <-]. apply first_occurrences_sublist.
Qed.

(** ** The sorter *)

Lemma sort_key_order (a b : touchpoint) :
  key_le sort_key a b →
  if dated a
  then (if dated b then (str (date a) ≤ str (date b))%string
        else (str (date a) ≤ "9999")%string)
  else (if dated b then ("9999" ≤ str (date b))%string else True).
Proof.
  unfold key_le, sort_key, dated, or_str.
  destruct (date a) as [|[|c s]], (date b) as [|[|c' s']]; simpl; auto.
Qed.

Lemma process_journey_sorted (api : crm) (call_seconds : string → result string)
    (j : journey) (c : customer) :
  process_journey api call_seconds j = Ok c →
  StronglySorted (key_le sort_key) (touchpoints c).
Proof.
  unfold process_journey.
  destruct (process_contacts _ _ _ _) as [[tps details]|e]; cbn; [|discriminate].
  destruct (dedup _) as [deduped|e] eqn:Hd; cbn; [|discriminate].
  intros [= <-]. cbn. eapply StronglySorted_sublist.
  - by apply dedup_sublist.
  - apply sort_by_sorted.
Qed.

(** C1, as the code has it: the sort is a stable sort by the date string,
    in the lexicographic order of strings, where a missing date counts as
    the string "9999".  The sorted list is a permutation of the input, in
    the order of the keys, with the touchpoints of every key in their
    original order, and it is the only such list.  So touchpoints with a
    date are in the order of their date strings, a touchpoint without a
    date comes after every dated one whose date string is below "9999",
    and the deduplicated sequence of every customer keeps that order. *)
Theorem sort_touchpoints_stable (l : list touchpoint) :
  sort_touchpoints l ≡ₚ l
  ∧ StronglySorted (key_le sort_key) (sort_touchpoints l)
  ∧ (∀ k, filter (λ tp, sort_key tp = k) (sort_touchpoints l)
          = filter (λ tp, sort_key tp = k) l)
  ∧ (∀ l', StronglySorted (key_le sort_key) l' →
           (∀ k, filter (λ tp, sort_key tp = k) l'
                 = filter (λ tp, sort_key tp = k) l) →
           l' = sort_touchpoints l)
  ∧ (∀ i j a b, i < j →
        sort_touchpoints l !! i = Some a → sort_touchpoints l !! j = Some b →
        if dated a
        then (if dated b then (str (date a) ≤ str (date b))%string
              else (str (date a) ≤ "9999")%string)
        else (if dated b then ("9999" ≤ str (date b))%string else True))
  ∧ (∀ out, dedup (sort_touchpoints l) = Ok out →
        StronglySorted (key_le sort_key) out)
  ∧ (∀ api call_seconds j c,
        process_journey api call_seconds j = Ok c →
        StronglySorted (key_le sort_key) (touchpoints c)).
Proof.
  unfold sort_touchpoints.
  split; [apply sort_by_perm|].
  split; [apply sort_by_sorted|].
  split; [intros k; apply sort_by_stable|].
  split; [intros l'; apply stable_sort_unique|].
  split; [|split].
  - intros i j a b Hij Ha Hb. apply sort_key_order.
    eapply StronglySorted_lookup; [apply sort_by_sorted|done..].
  - intros out Hout. eapply StronglySorted_sublist.
    + by apply dedup_sublist.
    + apply sort_by_sorted.
  - intros api call_seconds j c. apply process_journey_sorted.
Qed.

(** C1, as it is stated, fails: the undated signup is sorted, and kept by the
    deduplicator, before the deal that closes in the year 9999, whose date
    string is above the "9999" that stands for a missing date.  And the
    order is the one of the strings: the email of 10:00:00.500 is sorted
    before the email of 10:00:00, as "." is below "Z". *)
Lemma sort_touchpoints_missing_not_last :
  sort_touchpoints [signup_undated; deal_closed_9999]
  = [signup_undated; deal_closed_9999]
  ∧ dedup (sort_touchpoints [signup_undated; deal_closed_9999])
    = Ok [signup_undated; deal_closed_9999]
  ∧ dated signup_undated = false
  ∧ dated deal_closed_9999 = true
  ∧ missing_last (sort_touchpoints [signup_undated; deal_closed_9999]) = false
  ∧ sort_touchpoints [email_10_00_00; email_10_00_00_500]
    = [email_10_00_00_500; email_10_00_00].
Proof. repeat split; vm_compute; reflexivity. Qed.

(** C2: the deduplication of a deduplicated sequence returns it unchanged. *)
Theorem dedup_idempotent (l out : list touchpoint) :
  dedup l = Ok out → dedup out = Ok out.
Proof.
  intros Hl. pose proof (dedup_sublist _ _ Hl) as Hsub.
  rewrite dedup_spec in Hl |- *.
  destruct (forallb has_date l) eqn:Hdates; [|discriminate].
  injection Hl as <-.
  rewrite (forallb_sublist _ _ _ Hsub Hdates). f_equal.
  destruct (first_occurrences_fresh [] l) as [Hnd _].
  apply first_occurrences_fixed; [done|].
  intros tp _. simpl. apply not_elem_of_nil.
Qed.

Lemma dedup_idempotent_witness :
  dedup [email_10_00_00; email_10_00_30; signup_undated]
  = Ok [email_10_00_00; signup_undated]
  ∧ dedup [email_10_00_00; signup_undated]
    = Ok [email_10_00_00; signup_undated].
Proof.
  split.
  - vm_compute; reflexivity.
  - apply (dedup_idempotent [email_10_00_00; email_10_00_30; signup_undated]).
    vm_compute; reflexivity.
Defined.

(** The deduplicator on a sequence whose dates are all text keeps exactly
    the first touchpoint of every key (date cut to 16 characters, kind,
    detail cut to 50 characters): the touchpoint after [before] is kept if
    and only if no touchpoint of [before] has its key, and two touchpoints
    collapse to the first one exactly when their keys agree, as the two
    emails of 10:00:00 and 10:00:30 do.  On a sequence with a date that is
    [None] it raises. *)
Lemma dedup_first_occurrences :
  (∀ l, dedup l = if forallb has_date l
                  then Ok (first_occurrences [] l)
                  else Raise TypeError)
  ∧ (∀ before tp after,
       first_occurrences [] (before ++ tp :: after)
       = first_occurrences [] before
         ++ (if bool_decide (minute_key tp ∈ minute_key <$> before)
             then [] else [tp])
         ++ first_occurrences (before ++ [tp]) after)
  ∧ (∀ a b, dedup [a; b]
            = if has_date a && has_date b
              then Ok (if bool_decide (minute_key a = minute_key b)
                       then [a] else [a; b])
              else Raise TypeError)
  ∧ minute_key email_10_00_00 = minute_key email_10_00_30
  ∧ dedup [email_10_00_00; email_10_00_30] = Ok [email_10_00_00].
Proof.
  split; [exact dedup_spec|].
  split; [intros before tp after; by rewrite first_occurrences_app|].
  split; [|split; vm_compute; reflexivity].
  intros a b. rewrite dedup_spec. simpl. rewrite andb_true_r.
  destruct (has_date a && has_date b); [|reflexivity].
  f_equal. rewrite app_nil_r.
  destruct (decide (minute_key a = minute_key b)) as [E|E].
  - rewrite (bool_decide_eq_true_2 (minute_key a = minute_key b)) by done.
    rewrite bool_decide_eq_true_2; [done|]. rewrite E. left.
  - rewrite (bool_decide_eq_false_2 (minute_key a = minute_key b)) by done.
    rewrite bool_decide_eq_false_2; [done|].
    intros H%list_elem_of_singleton. congruence.
Qed.

(** C3, where the code fails it.  The contacts of [journey_ann_bob] give
    the emails of 10:00:00 and 10:00:30 and the signup of the contact that
    the CRM does not know, whose date is [None].  The sequence is sorted,
    with the signup under the key "9999", and the first occurrences of its
    keys are the first email and the signup; but the deduplicator does not
    return them: it raises [TypeError] when it slices the date that is
    [None], and so does the processing of the journey.  With an empty text
    for the date the deduplicator returns the first occurrences. *)
Theorem dedup_null_date_raises :
  fst <$> process_contacts crm_two_emails no_call_seconds ([], [])
            (j_contacts journey_ann_bob)
  = Ok [email_10_00_00; email_10_00_30; signup_null]
  ∧ sort_touchpoints [email_10_00_00; email_10_00_30; signup_null]
    = [email_10_00_00; email_10_00_30; signup_null]
  ∧ first_occurrences [] [email_10_00_00; email_10_00_30; signup_null]
    = [email_10_00_00; signup_null]
  ∧ dedup [email_10_00_00; email_10_00_30; signup_null] = Raise TypeError
  ∧ process_journey crm_two_emails no_call_seconds journey_ann_bob
    = Raise TypeError
  ∧ dedup [email_10_00_00; email_10_00_30; signup_undated]
    = Ok [email_10_00_00; signup_undated].
Proof. repeat split; vm_compute; reflexivity. Qed.

(** ** [truncate] and the length of the details *)

Lemma str_drop_app (s1 s2 : string) (k : nat) :
  str_drop (String.length s1 + k) (s1 +:+ s2) = str_drop k s2.
Proof. induction s1 as [|c s1 IH]; simpl; [by destruct k, s2|exact IH]. Qed.

Lemma ends_with_app (s suffix : string) : ends_with suffix (s +:+ suffix) = true.
Proof.
  unfold ends_with. rewrite length_app.
  replace (String.length s + String.length suffix - String.length suffix)
    with (String.length s + 0) by lia.
  rewrite str_drop_app. destruct suffix; apply String.eqb_refl.
Qed.

Lemma ends_with_prepend (s1 s2 suffix : string) :
  String.length suffix ≤ String.length s2 →
  ends_with suffix s2 = true → ends_with suffix (s1 +:+ s2) = true.
Proof.
  unfold ends_with. intros Hlen H. rewrite length_app.
  replace (String.length s1 + String.length s2 - String.length suffix)
    with (String.length s1 + (String.length s2 - String.length suffix)) by lia.
  by rewrite str_drop_app.
Qed.

(** The text that [truncate] cuts: [text] with its line breaks replaced and
    its ends stripped. *)
Lemma truncate_cases (text : value) (max_len : nat) :
  ∃ cleaned : string,
    (String.length cleaned ≤ max_len ∧ truncate text max_len = cleaned)
    ∨ (max_len < String.length cleaned
       ∧ truncate text max_len = str_take max_len cleaned +:+ "...").
Proof.
  unfold truncate. destruct (truthy text).
  - eexists. destruct (max_len <? _) eqn:E.
    + right. apply Nat.ltb_lt in E. split; [exact E|reflexivity].
    + left. apply Nat.ltb_ge in E. split; [exact E|reflexivity].
  - exists "". left. split; [simpl; lia|reflexivity].
Qed.

Lemma truncate_length (text : value) (max_len : nat) :
  String.length (truncate text max_len) ≤ max_len + 3.
Proof.
  destruct (truncate_cases text max_len) as [t [[Hlen ->]|[Hlen ->]]]; [lia|].
  rewrite length_app, length_str_take. simpl. lia.
Qed.

Lemma truncate_ellipsis (text : value) (max_len : nat) :
  max_len < String.length (truncate text max_len) →
  String.length (truncate text max_len) = max_len + 3
  ∧ ends_with "..." (truncate text max_len) = true.
Proof.
  destruct (truncate_cases text max_len) as [t [[Hlen ->]|[Hlen ->]]]; [lia|].
  intros _. split; [|apply ends_with_app].
  rewrite length_app, length_str_take. simpl. lia.
Qed.

Lemma truncate_capped (text : value) (max_len : nat) :
  truncate text max_len = capped max_len (cleaned text).
Proof.
  unfold truncate, capped, cleaned. destruct (truthy text); [reflexivity|].
  by destruct max_len.
Qed.

Lemma capped_long (cap : nat) (s : string) :
  cap < String.length s →
  capped cap s = str_take cap s +:+ "..."
  ∧ String.length (str_take cap s) = cap
  ∧ String.length (capped cap s) = cap + 3
  ∧ ends_with "..." (capped cap s) = true.
Proof.
  intros Hlen. unfold capped. rewrite (proj2 (Nat.ltb_lt _ _) Hlen).
  split; [reflexivity|]. rewrite length_app, length_str_take.
  split; [lia|]. split; [cbn; lia|apply ends_with_app].
Qed.

Lemma capped_short (cap : nat) (s : string) :
  String.length s ≤ cap → capped cap s = s.
Proof.
  intros Hlen. unfold capped. by rewrite (proj2 (Nat.ltb_ge _ _) Hlen).
Qed.

Lemma capped_empty (cap : nat) (s : string) :
  truthy (VStr (capped cap s)) = truthy (VStr s).
Proof.
  unfold capped. destruct (cap <? String.length s) eqn:E; [|reflexivity].
  apply Nat.ltb_lt in E. destruct s as [|c s]; [cbn in E; lia|].
  by destruct cap.
Qed.

(** The detail of the touchpoint of a note. *)
Lemma note_detail (api : crm) (call_seconds : string → result string)
    (email eng_id eng_label : string) (tps : list touchpoint) (tp : touchpoint)
    (details : engagement) :
  engagement_touchpoint api call_seconds email ("notes", eng_id, eng_label) = Ok tps →
  tp ∈ tps →
  engagement_details api "notes" eng_id = Some details →
  detail tp
  = if truthy (VStr (cleaned (get_or (eng_properties details) "hs_note_body" "")))
    then "Note: "
         +:+ capped 150 (cleaned (get_or (eng_properties details) "hs_note_body" ""))
    else "Note added".
Proof.
  unfold engagement_touchpoint. intros H Htp Hd. rewrite Hd in H. cbn in H.
  destruct (truthy (if truthy _ then _ else _)); injection H as <-;
    [|by apply elem_of_nil in Htp].
  apply list_elem_of_singleton in Htp as ->. cbn [detail].
  change (match ?b with "" => false | String _ _ => true end)
    with (truthy (VStr b)).
  by rewrite truncate_capped, capped_empty.
Qed.

(** The detail of the touchpoint of a communication. *)
Lemma communication_detail (api : crm) (call_seconds : string → result string)
    (email eng_id eng_label : string) (tps : list touchpoint) (tp : touchpoint)
    (details : engagement) :
  engagement_touchpoint api call_seconds email
    ("communications", eng_id, eng_label) = Ok tps →
  tp ∈ tps →
  engagement_details api "communications" eng_id = Some details →
  detail tp
  = (if truthy (get_or (eng_properties details)
                  "hs_communication_channel_type" "")
     then "[" +:+ str (get_or (eng_properties details)
                         "hs_communication_channel_type" "") +:+ "] "
     else "")
    +:+ capped 100
          (cleaned (get_or (eng_properties details) "hs_communication_body" "")).
Proof.
  unfold engagement_touchpoint. intros H Htp Hd. rewrite Hd in H. cbn in H.
  destruct (truthy (if truthy _ then _ else _)); injection H as <-;
    [|by apply elem_of_nil in Htp].
  apply list_elem_of_singleton in Htp as ->. cbn [detail].
  rewrite truncate_capped.
  destruct (truthy (get_or _ "hs_communication_channel_type" ""));
    [|reflexivity].
  by rewrite !str_app_assoc.
Qed.

(** The detail of the touchpoint of an email. *)
Lemma email_detail (api : crm) (call_seconds : string → result string)
    (email eng_id eng_label : string) (tps : list touchpoint) (tp : touchpoint)
    (details : engagement) :
  engagement_touchpoint api call_seconds email ("emails", eng_id, eng_label) = Ok tps →
  tp ∈ tps →
  engagement_details api "emails" eng_id = Some details →
  detail tp
  = "[" +:+ str (get_or (eng_properties details) "hs_email_direction" "")
    +:+ "] "
    +:+ (if truthy (get_or (eng_properties details) "hs_email_subject" "")
         then str (get_or (eng_properties details) "hs_email_subject" "")
         else "Email").
Proof.
  unfold engagement_touchpoint. intros H Htp Hd. rewrite Hd in H. cbn in H.
  destruct (truthy (if truthy _ then _ else _)); injection H as <-;
    [|by apply elem_of_nil in Htp].
  apply list_elem_of_singleton in Htp as ->. cbn [detail].
  by destruct (truthy (get_or _ "hs_email_subject" "")).
Qed.

(** The detail of the first touch of a contact. *)
Lemma first_touch_detail (contact : dict) (email : string) (props : dict) :
  truthy (get props "hs_analytics_first_timestamp") = true →
  {| date := get props "hs_analytics_first_timestamp";
     type := "First Touch";
     detail :=
       "Source: " +:+ str (get_or props "hs_analytics_source" "Unknown")
       +:+ (if truthy (get_or props "hs_analytics_source_data_1" "")
            then " | " +:+ str (get_or props "hs_analytics_source_data_1" "")
            else "")
       +:+ (if truthy (get_or props "hs_analytics_source_data_2" "")
            then " (" +:+ str (get_or props "hs_analytics_source_data_2" "")
                 +:+ ")"
            else "")
       +:+ (if truthy (get_or props "hs_analytics_first_url" "")
            then " | URL: " +:+ str (get_or props "hs_analytics_first_url" "")
            else "")
       +:+ (if truthy (get_or props "hs_analytics_first_referrer" "")
            then " | Referrer: "
                 +:+ str (get_or props "hs_analytics_first_referrer" "")
            else "");
     source := "HubSpot Analytics";
     contact := Some email |}
  ∈ property_touchpoints contact email props.
Proof.
  intros Hft. unfold property_touchpoints. rewrite Hft. cbn [when].
  apply elem_of_app. left. by apply list_elem_of_singleton.
Qed.

(** C4, as the code has it.  [truncate] returns its text cleaned (line
    breaks replaced by spaces, ends stripped) and capped: at most
    [max_len + 3] characters; a cleaned text longer than [max_len] comes
    back as its first [max_len] characters followed by the marker "...",
    [max_len + 3] characters in all, and a cleaned text that is not longer
    comes back whole.  In the output the body of a note is capped at 150
    and the body of a communication at 100: the detail of a note is
    "Note: " and the capped body, at most 159 characters, and the detail of
    a communication is the capped body after its channel tag, so both end
    with "..." when the body was cut.  The detail of an email holds its
    whole subject and the detail of a first touch its whole landing URL and
    referrer, whatever their lengths. *)
Theorem truncate_bounds_details :
  (∀ text max_len,
     truncate text max_len = capped max_len (cleaned text)
     ∧ String.length (truncate text max_len) ≤ max_len + 3)
  ∧ (∀ text max_len,
       max_len < String.length (cleaned text) →
       truncate text max_len = str_take max_len (cleaned text) +:+ "..."
       ∧ String.length (str_take max_len (cleaned text)) = max_len
       ∧ String.length (truncate text max_len) = max_len + 3
       ∧ ends_with "..." (truncate text max_len) = true)
  ∧ (∀ text max_len,
       String.length (cleaned text) ≤ max_len →
       truncate text max_len = cleaned text)
  ∧ (∀ api call_seconds email eng_id eng_label tps tp details,
       engagement_touchpoint api call_seconds email ("notes", eng_id, eng_label)
       = Ok tps →
       tp ∈ tps →
       engagement_details api "notes" eng_id = Some details →
       let body :=
         cleaned (get_or (eng_properties details) "hs_note_body" "") in
       detail tp = (if truthy (VStr body) then "Note: " +:+ capped 150 body
                    else "Note added")
       ∧ String.length (detail tp) ≤ 159
       ∧ (150 < String.length body →
          detail tp = "Note: " +:+ str_take 150 body +:+ "..."
          ∧ String.length (detail tp) = 159
          ∧ ends_with "..." (detail tp) = true))
  ∧ (∀ api call_seconds email eng_id eng_label tps tp details,
       engagement_touchpoint api call_seconds email
         ("communications", eng_id, eng_label) = Ok tps →
       tp ∈ tps →
       engagement_details api "communications" eng_id = Some details →
       let channel :=
         get_or (eng_properties details) "hs_communication_channel_type" "" in
       let body :=
         cleaned (get_or (eng_properties details) "hs_communication_body" "") in
       detail tp = (if truthy channel then "[" +:+ str channel +:+ "] " else "")
                   +:+ capped 100 body
       ∧ (100 < String.length body →
          ends_with "..." (detail tp) = true
          ∧ String.length (detail tp)
            = (if truthy channel then String.length (str channel) + 3 else 0)
              + 103))
  ∧ (∀ api call_seconds email eng_id eng_label tps tp details,
       engagement_touchpoint api call_seconds email ("emails", eng_id, eng_label)
       = Ok tps →
       tp ∈ tps →
       engagement_details api "emails" eng_id = Some details →
       let subj := get_or (eng_properties details) "hs_email_subject" "" in
       detail tp
       = "[" +:+ str (get_or (eng_properties details) "hs_email_direction" "")
         +:+ "] " +:+ (if truthy subj then str subj else "Email")
       ∧ String.length (str subj) ≤ String.length (detail tp))
  ∧ (∀ contact email props,
       truthy (get props "hs_analytics_first_timestamp") = true →
       ∃ tp, tp ∈ property_touchpoints contact email props
             ∧ type tp = "First Touch"
             ∧ ends_with
                 ((if truthy (get_or props "hs_analytics_first_url" "")
                   then " | URL: "
                        +:+ str (get_or props "hs_analytics_first_url" "")
                   else "")
                  +:+ (if truthy (get_or props "hs_analytics_first_referrer" "")
                       then " | Referrer: "
                            +:+ str (get_or props "hs_analytics_first_referrer" "")
                       else ""))
                 (detail tp) = true
             ∧ String.length (str (get_or props "hs_analytics_first_url" ""))
               + String.length (str (get_or props "hs_analytics_first_referrer" ""))
               ≤ String.length (detail tp)).
Proof.
  split; [|split; [|split; [|split; [|split; [|split]]]]].
  - intros text max_len. split; [apply truncate_capped|apply truncate_length].
  - intros text max_len Hlen. rewrite truncate_capped.
    by apply capped_long.
  - intros text max_len Hlen. rewrite truncate_capped. by apply capped_short.
  - intros api call_seconds email eng_id eng_label tps tp details H Htp Hd body.
    pose proof (note_detail _ _ _ _ _ _ _ _ H Htp Hd) as Hdetail.
    fold body in Hdetail. split; [exact Hdetail|]. rewrite Hdetail.
    split.
    + destruct (truthy (VStr body)); [|cbn; lia].
      rewrite length_app. change (String.length "Note: ") with 6.
      unfold capped. destruct (150 <? String.length body) eqn:E.
      * rewrite length_app, length_str_take.
        change (String.length "...") with 3. lia.
      * apply Nat.ltb_ge in E. lia.
    + intros Hlong. destruct (capped_long 150 body Hlong) as (Hc & Ht & Hl & He).
      assert (truthy (VStr body) = true) as ->.
      { destruct body; [cbn in Hlong; lia|reflexivity]. }
      split; [by rewrite Hc|]. split.
      * rewrite length_app, Hl. reflexivity.
      * apply ends_with_prepend; [rewrite Hl; cbn; lia|exact He].
  - intros api call_seconds email eng_id eng_label tps tp details H Htp Hd
      channel body.
    pose proof (communication_detail _ _ _ _ _ _ _ _ H Htp Hd) as Hdetail.
    fold channel body in Hdetail. split; [exact Hdetail|]. rewrite Hdetail.
    intros Hlong. destruct (capped_long 100 body Hlong) as (Hc & Ht & Hl & He).
    split.
    + apply ends_with_prepend; [rewrite Hl; cbn; lia|exact He].
    + rewrite length_app, Hl. destruct (truthy channel); [|reflexivity].
      rewrite !length_app. cbn. lia.
  - intros api call_seconds email eng_id eng_label tps tp details H Htp Hd subj.
    pose proof (email_detail _ _ _ _ _ _ _ _ H Htp Hd) as Hdetail.
    fold subj in Hdetail. split; [exact Hdetail|]. rewrite Hdetail.
    rewrite !length_app.
    destruct subj as [|[|c subj']]; cbn; lia.
  - intros contact email props Hft.
    eexists. split; [by apply first_touch_detail|]. split; [reflexivity|].
    cbn [detail]. split.
    + rewrite <- !str_app_assoc.
      rewrite (str_app_assoc _ (if truthy (get_or props "hs_analytics_first_url" "")
                                then _ else _)).
      apply ends_with_app.
    + rewrite !length_app.
      destruct (get_or props "hs_analytics_first_url" "") as [|[|c url]],
        (get_or props "hs_analytics_first_referrer" "") as [|[|c' ref]];
        cbn; rewrite ?length_app; cbn; lia.
Qed.

(** C4, as it is stated, fails: the run on [journey_acme] puts a note in the
    output whose detail has 159 characters, above the cap of 150 of its
    body, which [truncate] returns with 153 characters. *)
Lemma note_detail_exceeds_cap :
  (λ c, (λ tp, String.length (detail tp)) <$> touchpoints c)
    <$> process_journey crm_long_note no_call_seconds journey_acme
  = Ok [159]
  ∧ String.length (truncate (VStr long_note_body) 150) = 153
  ∧ String.length long_note_body = 151.
Proof. repeat split; vm_compute; reflexivity. Qed.

(** ** The cohorts *)

Ltac stage_cases s :=
  repeat match goal with
  | |- context [bool_decide (VStr s = VStr ?k)] =>
      destruct (decide (s = k)) as [->|];
      [vm_compute; try reflexivity; try lia
      |rewrite (bool_decide_eq_false_2 (VStr s = VStr k)) by congruence]
  end.

Lemma cohorts_of_length (c : customer) : length (cohorts_of c) ≤ 1.
Proof.
  unfold cohorts_of, in_closed_won, in_churned, in_stalled, in_no_deal, value_in.
  destruct (deal_stage c) as [|s]; [vm_compute; lia|].
  cbn [existsb]. stage_cases s.
  destruct s; cbn; lia.
Qed.

Lemma cohorts_exclusive (c : customer) :
  (in_closed_won c → ¬ in_churned c ∧ ¬ in_stalled c ∧ ¬ in_no_deal c)
  ∧ (in_churned c → ¬ in_stalled c ∧ ¬ in_no_deal c)
  ∧ (in_stalled c → ¬ in_no_deal c).
Proof.
  pose proof (cohorts_of_length c) as H. unfold cohorts_of in H.
  destruct (in_closed_won c), (in_churned c), (in_stalled c), (in_no_deal c);
    cbn in H; try lia; cbn; tauto.
Qed.

(** C5: the membership tests of the four cohorts are mutually exclusive:
    a customer passes at most one of them, one that passes none of
    Closed-Won, Churned and Stalled-Active is at most in No-Deal, and no
    customer is in two of the four lists. *)
Theorem cohorts_mutually_exclusive :
  (∀ c, length (cohorts_of c) ≤ 1)
  ∧ (∀ c, in_closed_won c = false → in_churned c = false →
          in_stalled c = false →
          cohorts_of c = [] ∨ cohorts_of c = ["No Deal"])
  ∧ (∀ all c,
       (c ∈ closed_won all →
          (c ∉ churned all) ∧ (c ∉ stalled all) ∧ (c ∉ no_deal all))
       ∧ (c ∈ churned all → (c ∉ stalled all) ∧ (c ∉ no_deal all))
       ∧ (c ∈ stalled all → c ∉ no_deal all)).
Proof.
  split; [exact cohorts_of_length|]. split.
  - intros c H1 H2 H3. unfold cohorts_of. rewrite H1, H2, H3.
    destruct (in_no_deal c); auto.
  - intros all c. unfold closed_won, churned, stalled, no_deal.
    rewrite !list_elem_of_filter.
    destruct (cohorts_exclusive c) as (Hw & Hc & Hs). tauto.
Qed.

(** ** The records of the output *)

Lemma process_journey_total (api : crm) (call_seconds : string → result string)
    (j : journey) (c : customer) :
  process_journey api call_seconds j = Ok c →
  total_touchpoints c = length (touchpoints c).
Proof.
  unfold process_journey.
  destruct (process_contacts _ _ _ _) as [[tps details]|e]; cbn; [|discriminate].
  destruct (dedup _) as [deduped|e] eqn:Hd; cbn; [|discriminate].
  intros [= <-]. reflexivity.
Qed.

(** C10: in every record of [all_touchpoint_data], which is serialized as it
    is, [total_touchpoints] is the length of [touchpoints]. *)
Theorem total_touchpoints_length (api : crm)
    (call_seconds : string → result string)
    (journeys : list journey) (all : list customer) :
  all_touchpoint_data api call_seconds journeys = Ok all →
  Forall (λ c, total_touchpoints c = length (touchpoints c)) all.
Proof.
  revert all. induction journeys as [|j journeys IH]; intros all; cbn.
  - intros [= <-]. constructor.
  - destruct (process_journey api call_seconds j) as [c|e] eqn:Hc; cbn;
      [|discriminate].
    destruct (all_touchpoint_data api call_seconds journeys) as [cs|e]; cbn;
      [|discriminate].
    intros [= <-]. constructor.
    + by eapply process_journey_total.
    + by apply IH.
Qed.

Lemma total_touchpoints_length_witness :
  ∃ all,
    all_touchpoint_data crm_long_note no_call_seconds [journey_acme; journey_acme]
    = Ok all
    ∧ length all = 2
    ∧ Forall (λ c, total_touchpoints c = length (touchpoints c)) all.
Proof.
  eexists. split; [vm_compute; reflexivity|]. split; [reflexivity|].
  apply (total_touchpoints_length crm_long_note no_call_seconds
           [journey_acme; journey_acme]).
  vm_compute; reflexivity.
Defined.

(** ** Contacts that the CRM does not know *)

(** For a contact whose email the CRM does not match, the loop body does
    not raise: it appends exactly one "Platform Signup" touchpoint of the
    source "Cognito", dated with the [created] field of the journey's
    contact as it is, leaves the contact details as they are, and the
    loop goes on with the next contact. *)
Lemma missing_contact_signup (api : crm)
    (call_seconds : string → result string)
    (company_touchpoints : list touchpoint)
    (company_contact_details : list contact_detail)
    (contact : dict) (email : string) (contacts : list dict) :
  contact_email contact = Ok email →
  contact_by_email api email = None →
  let signup :=
    {| date := get_or contact "created" "";
       type := "Platform Signup";
       detail := email +:+ " created Cognito account";
       source := "Cognito";
       contact := None |} in
  process_contact api call_seconds
    (company_touchpoints, company_contact_details) contact
  = Ok (company_touchpoints ++ [signup], company_contact_details)
  ∧ process_contacts api call_seconds
      (company_touchpoints, company_contact_details) (contact :: contacts)
    = process_contacts api call_seconds
        (company_touchpoints ++ [signup], company_contact_details) contacts.
Proof.
  intros Hemail Hnone signup.
  assert (Hstep : process_contact api call_seconds
            (company_touchpoints, company_contact_details) contact
          = Ok (company_touchpoints ++ [signup], company_contact_details)).
  { unfold process_contact. rewrite Hemail. cbn. rewrite Hnone. reflexivity. }
  split; [exact Hstep|].
  cbn [process_contacts]. rewrite Hstep. reflexivity.
Qed.

Lemma missing_contact_signup_witness :
  process_contacts crm_unknown no_call_seconds
    ([email_10_00_00], []) [contact_bob; contact_bob]
  = process_contacts crm_unknown no_call_seconds
      ([email_10_00_00;
        {| date := VStr "2024-02-01T09:30:00Z"; type := "Platform Signup";
           detail := "bob@acme.io created Cognito account";
           source := "Cognito"; contact := None |}], [])
      [contact_bob].
Proof.
  apply (missing_contact_signup crm_unknown no_call_seconds
           [email_10_00_00] [] contact_bob "bob@acme.io" [contact_bob]);
    vm_compute; reflexivity.
Defined.

(** C8, where the code fails it.  For the contact of [journey_null_created],
    which the CRM does not know and whose [created] is null, the loop over
    the contacts appends the one "Platform Signup" touchpoint, with the
    date [None], and ends; the deduplication then raises [TypeError] on that
    date, so the customer has no record and the run ends with the error.
    Without the field [created] the same contact gives a record with the
    one signup. *)
Theorem missing_contact_null_created_raises :
  process_contacts crm_unknown no_call_seconds ([], [])
    (j_contacts journey_null_created)
  = Ok ([signup_null], [])
  ∧ process_journey crm_unknown no_call_seconds journey_null_created
    = Raise TypeError
  ∧ all_touchpoint_data crm_unknown no_call_seconds
      [journey_null_created; journey_acme]
    = Raise TypeError
  ∧ touchpoints
    <$> process_journey crm_unknown no_call_seconds journey_no_created
    = Ok [ {| date := VStr ""; type := "Platform Signup";
              detail := "bob@acme.io created Cognito account";
              source := "Cognito"; contact := None |} ].
Proof. repeat split; vm_compute; reflexivity. Qed.

(** A touchpoint whose date is [None], as the signup of an unknown contact
    whose [created] is null or a history entry without a timestamp give
    it, is sorted but not deduplicated: the slice of [None] raises. *)
Lemma dedup_none_date_raises (l : list touchpoint) (tp : touchpoint) :
  tp ∈ l → date tp = VNone → dedup l = Raise TypeError.
Proof.
  intros Hin Hdate. rewrite dedup_spec.
  destruct (forallb has_date l) eqn:E; [|reflexivity].
  rewrite forallb_forall in E. apply list_elem_of_In, E in Hin.
  unfold has_date in Hin. rewrite Hdate in Hin. discriminate.
Qed.

(** ** The gaps *)

Section GapFacts.

Variable days_between : string → string → option Z.

Lemma marks_cons (tp : touchpoint) (tps : list touchpoint) :
  marks (tp :: tps)
  = if counted tp then (date tp, type tp) :: marks tps else marks tps.
Proof.
  unfold marks. rewrite filter_cons.
  destruct (counted tp) eqn:E; case_decide as H; rewrite ?E in H;
    try reflexivity; by destruct H.
Qed.

Lemma gap_loop_dated (c : customer) (prev_date : value) (prev_type : string)
    (tps : list touchpoint) :
  truthy prev_date = true →
  gap_loop days_between c prev_date prev_type tps
  = flat_map (gap_between days_between c)
      (consecutive ((prev_date, prev_type) :: marks tps)).
Proof.
  revert prev_date prev_type.
  induction tps as [|tp tps IH]; intros prev_date prev_type Hprev;
    [reflexivity|].
  rewrite marks_cons. cbn [gap_loop]. fold (counted tp).
  destruct (counted tp) eqn:E; [|by apply IH].
  rewrite Hprev, IH; [reflexivity|].
  unfold counted in E. by apply andb_true_iff in E as [? _].
Qed.

Lemma gap_loop_start (c : customer) (prev_type : string) (tps : list touchpoint) :
  gap_loop days_between c VNone prev_type tps
  = flat_map (gap_between days_between c) (consecutive (marks tps)).
Proof.
  induction tps as [|tp tps IH]; [reflexivity|].
  rewrite marks_cons. cbn [gap_loop]. fold (counted tp).
  destruct (counted tp) eqn:E; [|exact IH].
  cbn [truthy app]. apply gap_loop_dated.
  unfold counted in E. by apply andb_true_iff in E as [? _].
Qed.

Lemma gap_between_positive (c : customer)
    (p : (value * string) * (value * string)) :
  Forall (λ g, (0 < gap_days g)%Z) (gap_between days_between c p).
Proof.
  unfold gap_between. destruct (days_between _ _) as [gap|]; [|constructor].
  destruct (0 <? gap)%Z eqn:E; [|constructor].
  apply Z.ltb_lt in E. by repeat constructor.
Qed.

Lemma customer_gaps_positive (c : customer) :
  Forall (λ g, (0 < gap_days g)%Z) (customer_gaps days_between c).
Proof.
  unfold customer_gaps. rewrite gap_loop_start.
  induction (consecutive (marks (touchpoints c))) as [|p ps IH]; cbn;
    [constructor|].
  apply Forall_app. split; [apply gap_between_positive|exact IH].
Qed.

Lemma analyze_gaps (st st' : falloff) (all : list customer) :
  analyze days_between st all = Ok st' →
  touchpoint_gaps st'
  = touchpoint_gaps st ++ flat_map (customer_gaps days_between) all.
Proof.
  revert st. induction all as [|c all IH]; intros st; cbn.
  - intros [= <-]. by rewrite app_nil_r.
  - unfold analyze_customer.
    destruct (stages_seen (touchpoints c)) as [stages|e]; cbn; [|discriminate].
    intros H. apply IH in H. rewrite H. cbn. by rewrite <- app_assoc.
Qed.

End GapFacts.

(** C6: the gaps of a customer are the pairs of neighbours, among its
    touchpoints that are dated and not of the kind "Last Sales Activity",
    whose difference in days is defined and strictly positive; so every
    gap that the analysis records has [gap_days > 0], and a customer with
    at most one touchpoint contributes none. *)
Theorem gaps_strictly_positive (days_between : string → string → option Z) :
  (∀ c, customer_gaps days_between c
        = flat_map (gap_between days_between c)
            (consecutive (marks (touchpoints c))))
  ∧ (∀ c, Forall (λ g, (0 < gap_days g)%Z) (customer_gaps days_between c))
  ∧ (∀ c, length (touchpoints c) ≤ 1 → customer_gaps days_between c = [])
  ∧ (∀ all st,
       analyze days_between
         {| stage_sequence_counts := ∅; last_stage_before_stall := ∅;
            touchpoint_gaps := [] |} all = Ok st →
       touchpoint_gaps st = flat_map (customer_gaps days_between) all
       ∧ Forall (λ g, (0 < gap_days g)%Z) (touchpoint_gaps st)).
Proof.
  split; [intros c; apply gap_loop_start|].
  split; [intros c; apply customer_gaps_positive|].
  split.
  - intros c Hlen. unfold customer_gaps. rewrite gap_loop_start.
    destruct (touchpoints c) as [|tp [|tp' tps]]; [reflexivity| |cbn in Hlen; lia].
    rewrite marks_cons. by destruct (counted tp).
  - intros all st Hst. apply analyze_gaps in Hst. cbn in Hst.
    split; [exact Hst|]. rewrite Hst. clear Hst.
    induction all as [|c all IH]; cbn; [constructor|].
    apply Forall_app. split; [apply customer_gaps_positive|exact IH].
Qed.

(** ** The retry on a rate limit *)

Lemma hubspot_post_get (depth : nat) (rs : list response) :
  hubspot_post depth rs = hubspot_get depth rs.
Proof. reflexivity. Qed.

Lemma hubspot_get_settled (depth : nat) (r : response) (rs : list response) :
  rate_limited r = false →
  hubspot_get (S depth) (r :: rs)
  = Some {| returned := answer r; attempts := 1; slept := 0 |}.
Proof. destruct r as [data|code|]; cbn; intros H; by rewrite ?H. Qed.

Lemma hubspot_get_retries (depth n : nat) (r : response) (rs : list response) :
  n < depth → rate_limited r = false →
  hubspot_get depth (replicate n (HTTPError 429) ++ r :: rs)
  = Some {| returned := answer r; attempts := S n; slept := 10 * n |}.
Proof.
  intros Hn Hr. revert depth Hn.
  induction n as [|n IH]; intros [|depth] Hn; try lia.
  - by apply hubspot_get_settled.
  - cbn. rewrite IH by lia. cbn. unfold retried. cbn. do 2 f_equal. lia.
Qed.

(** As many answers 429 as the stack holds nested calls: the call gives
    up and returns no data. *)
Lemma hubspot_get_gives_up (depth : nat) (rs : list response) :
  hubspot_get depth (replicate depth (HTTPError 429) ++ rs)
  = Some {| returned := None; attempts := depth; slept := 10 * depth |}.
Proof.
  induction depth as [|depth IH]; [reflexivity|].
  cbn. rewrite IH. cbn. unfold retried. cbn. do 2 f_equal. lia.
Qed.

(** The call returns when the CRM answers every attempt. *)
Lemma hubspot_get_returns (depth : nat) (rs : list response) :
  depth ≤ length rs → is_Some (hubspot_get depth rs).
Proof.
  revert rs. induction depth as [|depth IH]; intros rs Hlen; [by eexists|].
  destruct rs as [|[data|code|] rs]; cbn in *; try lia; try by eexists.
  destruct (code =? 429); [|by eexists].
  destruct (IH rs) as [c Hc]; [lia|]. rewrite Hc. by eexists.
Qed.

(** C7, as the code has it: a call is tried again, ten seconds later, after
    every answer that is HTTP 429, and the code counts no retries.  After
    [n] such answers, with room on the stack for more than [n] nested
    calls, it has made [n + 1] attempts and returns what the first other
    answer gives: the data of a body, or no data after another failure.
    Only the bound of the interpreter on the depth of recursion ends the
    retries: after as many answers 429 as the stack holds nested calls,
    the call returns no data.  So the call returns whenever the CRM
    answers its attempts, and with one rate-limited answer and room for
    two calls it does what the specification says. *)
Theorem rate_limit_retried_until_settled :
  (∀ depth n r rs, n < depth → rate_limited r = false →
     hubspot_get depth (replicate n (HTTPError 429) ++ r :: rs)
     = Some {| returned := answer r; attempts := S n; slept := 10 * n |}
     ∧ hubspot_post depth (replicate n (HTTPError 429) ++ r :: rs)
       = Some {| returned := answer r; attempts := S n; slept := 10 * n |})
  ∧ (∀ depth rs,
       hubspot_get depth (replicate depth (HTTPError 429) ++ rs)
       = Some {| returned := None; attempts := depth; slept := 10 * depth |}
       ∧ hubspot_post depth (replicate depth (HTTPError 429) ++ rs)
         = Some {| returned := None; attempts := depth; slept := 10 * depth |})
  ∧ (∀ depth rs, depth ≤ length rs →
       is_Some (hubspot_get depth rs) ∧ is_Some (hubspot_post depth rs))
  ∧ (∀ depth r r' rs, 2 ≤ depth → rate_limited r' = false →
       hubspot_get depth (r :: r' :: rs) = retry_once (r :: r' :: rs)
       ∧ hubspot_post depth (r :: r' :: rs) = retry_once (r :: r' :: rs)).
Proof.
  split; [|split; [|split]].
  - intros depth n r rs Hn Hr.
    split; exact (hubspot_get_retries depth n r rs Hn Hr).
  - intros depth rs.
    split; exact (hubspot_get_gives_up depth rs).
  - intros depth rs Hlen.
    split; by apply hubspot_get_returns.
  - intros depth r r' rs Hdepth Hr'.
    assert (hubspot_get depth (r :: r' :: rs) = retry_once (r :: r' :: rs))
      as H; [|split; exact H].
    unfold retry_once. destruct (rate_limited r) eqn:Hr.
    + destruct r as [data|code|]; try discriminate. cbn in Hr.
      apply Nat.eqb_eq in Hr as ->.
      exact (hubspot_get_retries depth 1 r' rs Hdepth Hr').
    + destruct depth as [|depth]; [lia|]. by apply hubspot_get_settled.
Qed.

(** C7, as it is stated, fails: after two answers 429 the call, with room
    for a thousand nested calls, makes a third attempt and returns its
    data, where a single retry would have returned no data after the second
    attempt. *)
Lemma rate_limit_retried_twice :
  hubspot_get 1000 [HTTPError 429; HTTPError 429; Body {[ "id" := VStr "7" ]}]
  = Some {| returned := Some {[ "id" := VStr "7" ]}; attempts := 3; slept := 20 |}
  ∧ retry_once [HTTPError 429; HTTPError 429; Body {[ "id" := VStr "7" ]}]
    = Some {| returned := None; attempts := 2; slept := 10 |}
  ∧ hubspot_get 1000 [HTTPError 429; HTTPError 429; Body {[ "id" := VStr "7" ]}]
    ≠ retry_once [HTTPError 429; HTTPError 429; Body {[ "id" := VStr "7" ]}].
Proof. repeat split; try (vm_compute; reflexivity). cbn. discriminate. Qed.

(** ** The stages of the deal stage changes *)

Lemma prefix_length (sep s : string) :
  String.prefix sep s = true → String.length sep ≤ String.length s.
Proof.
  revert s; induction sep as [|c sep IH]; intros [|c' s]; cbn;
    try lia; try discriminate.
  destruct (Ascii.ascii_dec c c'); [|discriminate].
  intros H%IH. lia.
Qed.

Lemma length_str_drop (n : nat) (s : string) :
  String.length (str_drop n s) = String.length s - n.
Proof. revert s; induction n as [|n IH]; intros [|c s]; cbn; auto. Qed.

Lemma after_first_length (sep s rest : string) :
  after_first sep s = Some rest →
  String.length sep + String.length rest ≤ String.length s.
Proof.
  induction s as [|c s IH]; cbn [after_first].
  - destruct (String.prefix sep "") eqn:E; [|discriminate].
    intros [= <-]. apply prefix_length in E. rewrite length_str_drop. lia.
  - destruct (String.prefix sep (String c s)) eqn:E.
    + intros [= <-]. apply prefix_length in E. rewrite length_str_drop. lia.
    + intros H%IH. cbn. lia.
Qed.

Lemma after_first_none (sep s : string) :
  after_first sep s = None → before_first sep s = s.
Proof.
  induction s as [|c s IH]; cbn [after_first before_first];
    destruct (String.prefix sep _); try discriminate; [reflexivity|].
  intros H%IH. by rewrite H.
Qed.

Lemma contains_after_first (sub s : string) :
  contains sub s = bool_decide (is_Some (after_first sub s)).
Proof.
  induction s as [|c s IH]; cbn [contains after_first];
    destruct (String.prefix sub _); cbn; try reflexivity.
  exact IH.
Qed.

Lemma split_rounds_head (n : nat) (sep s : string) :
  split_rounds n sep s !! 0 = Some (before_first sep s).
Proof.
  destruct n; cbn; destruct (after_first sep s) eqn:E; cbn;
    by rewrite ?(after_first_none _ _ E).
Qed.

Lemma split_rounds_second (n : nat) (sep s rest : string) :
  String.length s ≤ n → sep ≠ "" → after_first sep s = Some rest →
  split_rounds n sep s !! 1 = Some (before_first sep rest).
Proof.
  intros Hn Hsep Hrest. pose proof (after_first_length _ _ _ Hrest) as Hlen.
  destruct n as [|n].
  - destruct sep; [done|]. cbn in Hlen. lia.
  - cbn. rewrite Hrest. apply split_rounds_head.
Qed.

(** More rounds than the length of the text change nothing. *)
Lemma split_rounds_enough (n m : nat) (sep s : string) :
  sep ≠ "" → String.length s ≤ n → String.length s ≤ m →
  split_rounds n sep s = split_rounds m sep s.
Proof.
  intros Hsep. revert m s. induction n as [|n IH]; intros m s Hn Hm.
  - destruct s; [|cbn in Hn; lia]. destruct sep; [done|].
    by destruct m.
  - destruct m as [|m].
    + destruct s; [|cbn in Hm; lia]. by destruct sep.
    + cbn. destruct (after_first sep s) as [rest|] eqn:E; [|reflexivity].
      apply after_first_length in E. f_equal. destruct sep; [done|].
      cbn in E. apply IH; lia.
Qed.

Lemma extract_stage_spec (detail rest : string) :
  after_first "moved to:" detail = Some rest →
  extract_stage detail
  = Ok (strip (before_first "(" (before_first "moved to:" rest))).
Proof.
  intros Hrest. unfold extract_stage, str_split, item. cbn [mbind result_bind].
  rewrite (split_rounds_second _ _ _ rest); [|lia|done|exact Hrest].
  cbn [mbind result_bind]. by rewrite split_rounds_head.
Qed.

Lemma stages_seen_ok (tps : list touchpoint) :
  ∃ stages, stages_seen tps = Ok stages.
Proof.
  induction tps as [|tp tps [stages IH]]; cbn [stages_seen]; [by eexists|].
  destruct (_ && _) eqn:E; [|by eexists].
  apply andb_true_iff in E as [_ E]. rewrite contains_after_first in E.
  apply bool_decide_eq_true in E as [rest E].
  rewrite (extract_stage_spec _ _ E), IH. cbn. by eexists.
Qed.

(** ** The table of the stage transitions *)

Lemma increment_lookup (k k' : string) (counts : gmap string nat) :
  default 0 (increment k counts !! k')
  = default 0 (counts !! k') + (if decide (k = k') then 1 else 0).
Proof.
  unfold increment. destruct (decide (k = k')) as [->|Hne].
  - rewrite lookup_insert_eq. cbn. lia.
  - rewrite lookup_insert_ne by done. lia.
Qed.

Lemma track_sequences_lookup (stages : list string)
    (counts : gmap string nat) (k : string) :
  default 0 (track_sequences stages counts !! k)
  = default 0 (counts !! k) + transitions_of k stages.
Proof.
  unfold transitions_of. revert counts.
  induction stages as [|from_stage [|to_stage stages] IH]; intros counts;
    [cbn; lia..|].
  change (track_sequences (from_stage :: to_stage :: stages) counts)
    with (track_sequences (to_stage :: stages)
            (increment (transition from_stage to_stage) counts)).
  change (consecutive (from_stage :: to_stage :: stages))
    with ((from_stage, to_stage) :: consecutive (to_stage :: stages)).
  rewrite IH, increment_lookup, filter_cons. cbn [fst snd].
  case_decide; cbn [length]; lia.
Qed.

Lemma extract_stage_extracted (detail : string) :
  contains "moved to:" detail = true →
  extract_stage detail = Ok (extracted_stage detail).
Proof.
  intros H. rewrite contains_after_first in H.
  apply bool_decide_eq_true in H as [rest H].
  rewrite (extract_stage_spec _ _ H). unfold extracted_stage. by rewrite H.
Qed.

(** The analyzer reads a stage from every stage change, and from nothing
    else. *)
Lemma stages_seen_spec (tps : list touchpoint) :
  stages_seen tps
  = Ok ((λ tp, (date tp, extracted_stage (detail tp)))
        <$> List.filter stage_changed tps).
Proof.
  induction tps as [|tp tps IH]; [reflexivity|].
  cbn [stages_seen List.filter]. fold (stage_changed tp).
  destruct (stage_changed tp) eqn:E; [|exact IH].
  apply andb_true_iff in E as [_ E].
  by rewrite (extract_stage_extracted _ E), IH.
Qed.

Lemma customer_stages_seen (c : customer) :
  stages_seen (touchpoints c)
  = Ok ((λ tp, (date tp, extracted_stage (detail tp)))
        <$> List.filter stage_changed (touchpoints c))
  ∧ ((λ tp, (date tp, extracted_stage (detail tp)))
     <$> List.filter stage_changed (touchpoints c)).*2
    = customer_stages c.
Proof.
  split; [apply stages_seen_spec|].
  unfold customer_stages. by rewrite <- list_fmap_compose.
Qed.

Lemma analyze_transitions (days_between : string → string → option Z)
    (all : list customer) (st : falloff) :
  ∃ st',
    analyze days_between st all = Ok st'
    ∧ ∀ k, default 0 (stage_sequence_counts st' !! k)
           = default 0 (stage_sequence_counts st !! k)
             + sum_list ((λ c, transitions_of k (customer_stages c)) <$> all).
Proof.
  revert st. induction all as [|c all IH]; intros st; cbn [analyze].
  - exists st. split; [reflexivity|]. intros k.
    change (sum_list _) with 0. lia.
  - unfold analyze_customer.
    destruct (customer_stages_seen c) as [-> Hstages].
    cbn [mbind result_bind]. rewrite Hstages.
    match goal with
    | |- context [analyze _ ?st1 all] => destruct (IH st1) as (st' & Hst' & Hk)
    end.
    exists st'. split; [exact Hst'|]. intros k. rewrite Hk.
    cbn [stage_sequence_counts]. rewrite track_sequences_lookup.
    rewrite fmap_cons.
    change (sum_list (?x :: ?l)) with (x + sum_list l). lia.
Qed.

(** C9, as the code has it.  The analyzer reads a stage from every "Deal
    Stage Change" touchpoint of a customer whose detail holds "moved to:",
    and from no other touchpoint, in the order of the touchpoints: the text
    after the first "moved to:" up to the next "moved to:" or "(",
    whichever comes first, or to the end, stripped.  When "moved to:" occurs
    once this is the text between it and the first "(" after it, "Demo
    Scheduled" in the example.  The analysis never raises, and it adds to
    the count of every transition, for every customer, the number of
    neighbours among the stages of the customer that make it: one for each
    consecutive pair. *)
Theorem stage_transitions_counted :
  (∀ tps, stages_seen tps
          = Ok ((λ tp, (date tp, extracted_stage (detail tp)))
                <$> List.filter stage_changed tps))
  ∧ (∀ detail, contains "moved to:" detail = true →
       extract_stage detail = Ok (extracted_stage detail))
  ∧ (∀ detail rest,
       after_first "moved to:" detail = Some rest →
       contains "moved to:" rest = false →
       extracted_stage detail = claimed_stage detail)
  ∧ extracted_stage detail_demo_scheduled = "Demo Scheduled"
  ∧ (∀ days_between st c,
       ∃ st',
         analyze_customer days_between st c = Ok st'
         ∧ ∀ k, default 0 (stage_sequence_counts st' !! k)
                = default 0 (stage_sequence_counts st !! k)
                  + transitions_of k (customer_stages c))
  ∧ (∀ days_between all,
       ∃ st,
         analyze days_between
           {| stage_sequence_counts := ∅; last_stage_before_stall := ∅;
              touchpoint_gaps := [] |} all = Ok st
         ∧ ∀ k, default 0 (stage_sequence_counts st !! k)
                = sum_list ((λ c, transitions_of k (customer_stages c))
                            <$> all))
  ∧ (∀ from_stage to_stage stages,
       transitions_of (transition from_stage to_stage)
         (from_stage :: to_stage :: stages)
       = S (transitions_of (transition from_stage to_stage)
              (to_stage :: stages)))
  ∧ track_sequences ["Lead"; "Demo Scheduled"] ∅
    = {[ "Lead → Demo Scheduled" := 1 ]}.
Proof.
  split; [exact stages_seen_spec|].
  split; [exact extract_stage_extracted|].
  split; [|split; [|split; [|split; [|split]]]].
  - intros detail rest H Hnone. unfold extracted_stage, claimed_stage.
    rewrite H. change (default "" (Some rest)) with rest.
    rewrite contains_after_first in Hnone.
    apply bool_decide_eq_false in Hnone.
    destruct (after_first "moved to:" rest) as [rest'|] eqn:E;
      [by destruct Hnone|].
    by rewrite (after_first_none _ _ E).
  - vm_compute; reflexivity.
  - intros days_between st c. unfold analyze_customer.
    destruct (customer_stages_seen c) as [-> Hstages].
    cbn [mbind result_bind]. rewrite Hstages.
    eexists. split; [reflexivity|].
    intros k. cbn [stage_sequence_counts]. apply track_sequences_lookup.
  - intros days_between all.
    destruct (analyze_transitions days_between all
                {| stage_sequence_counts := ∅; last_stage_before_stall := ∅;
                   touchpoint_gaps := [] |}) as (st & Hst & Hk).
    exists st. split; [exact Hst|]. intros k. rewrite Hk.
    cbn [stage_sequence_counts]. by rewrite lookup_empty.
  - intros from_stage to_stage stages. unfold transitions_of.
    change (consecutive (from_stage :: to_stage :: stages))
      with ((from_stage, to_stage) :: consecutive (to_stage :: stages)).
    rewrite filter_cons. cbn [fst snd].
    by rewrite decide_True by reflexivity.
  - vm_compute; reflexivity.
Qed.

(** C9, as it is stated, fails: for a deal whose name holds "moved to:" the
    analyzer stops at the second "moved to:", before the first "(". *)
Lemma stage_of_two_phrases :
  contains "moved to:" detail_two_phrases = true
  ∧ extract_stage detail_two_phrases = Ok ("Q4" +:+ QUOTE)
  ∧ claimed_stage detail_two_phrases
    = "Q4" +:+ QUOTE +:+ " moved to: Demo Scheduled"
  ∧ extract_stage detail_two_phrases ≠ Ok (claimed_stage detail_two_phrases).
Proof.
  repeat split; try (vm_compute; reflexivity).
  vm_compute. discriminate.
Qed.

(** ** The analysis of an example customer *)

Lemma analyze_customer_acme :
  analyze days_between_acme
    {| stage_sequence_counts := ∅; last_stage_before_stall := ∅;
       touchpoint_gaps := [] |}
    [customer_acme]
  = Ok {| stage_sequence_counts := {[ "Lead → Demo Scheduled" := 1 ]};
          last_stage_before_stall := ∅;
          touchpoint_gaps :=
            [ {| gap_company := "Acme"; gap_days := 56;
                 from_type := "Deal Stage Change"; to_type := "Email";
                 outcome := VStr "Closed Won" |};
              {| gap_company := "Acme"; gap_days := 6;
                 from_type := "Deal Stage Change"; to_type := "Meeting";
                 outcome := VStr "Closed Won" |} ] |}
  ∧ cohorts_of customer_acme = ["Closed Won"].
Proof. split; vm_compute; reflexivity. Qed.

(** * Further properties of the code *)

(** ** The accounting of a call *)

(** X1.  A call of [hubspot_get] that returns, and the call of
    [hubspot_post] on the same answers, which returns the same, slept ten
    seconds after each of the [n] answers that it read as HTTP 429, and
    nothing else.  Either the stack had room for another call: then it made
    [n + 1] attempts, one per answer read, and returns what the answer
    after the 429s gives, which is not 429.  Or the [n] answers 429 used all
    the room for nested calls on the stack: then it made [n] attempts and
    returns no data. *)
Theorem hubspot_get_accounting (depth : nat) (rs : list response) (c : call) :
  hubspot_get depth rs = Some c →
  hubspot_post depth rs = Some c
  ∧ ∃ n,
      slept c = 10 * n
      ∧ n ≤ depth
      ∧ (∀ i, i < n → rs !! i = Some (HTTPError 429))
      ∧ ((n < depth ∧ attempts c = S n
          ∧ ∃ r, rs !! n = Some r
                 ∧ rate_limited r = false
                 ∧ returned c = answer r)
         ∨ (n = depth ∧ attempts c = n ∧ returned c = None)).
Proof.
  intros Hc. split; [exact Hc|].
  revert rs c Hc. induction depth as [|depth IH]; intros rs c.
  { intros [= <-]. exists 0. cbn. split; [reflexivity|]. split; [lia|].
    split; [intros i Hi; lia|]. by right. }
  destruct rs as [|r rs]; [discriminate|].
  destruct (rate_limited r) eqn:Hr.
  - destruct r as [data|code|]; try discriminate. cbn in Hr.
    cbn [hubspot_get]. rewrite Hr. apply Nat.eqb_eq in Hr as ->.
    destruct (hubspot_get depth rs) as [c'|] eqn:Hc'; [|discriminate].
    intros [= <-].
    destruct (IH rs c' Hc') as (n & Hs & Hn & Hpre & Hend).
    exists (S n). cbn [retried attempts slept returned].
    split; [lia|]. split; [lia|]. split.
    + intros [|i] Hi; [reflexivity|]. cbn. apply Hpre. lia.
    + destruct Hend as [(Hlt & Ha & r' & Hr' & Hnr & Hret)|(-> & Ha & Hret)].
      * left. split; [lia|]. split; [lia|]. by exists r'.
      * right. split; [reflexivity|]. split; [lia|exact Hret].
  - rewrite (hubspot_get_settled depth r rs Hr). intros [= <-].
    exists 0. cbn. split; [reflexivity|]. split; [lia|].
    split; [intros i Hi; lia|]. left. split; [lia|]. split; [reflexivity|].
    by exists r.
Qed.

Lemma hubspot_get_accounting_witness :
  (∃ c, hubspot_get 1000
          [HTTPError 429; HTTPError 429; HTTPError 500; Body ∅] = Some c
        ∧ attempts c = 3 ∧ slept c = 20 ∧ returned c = None
        ∧ hubspot_post 1000
            [HTTPError 429; HTTPError 429; HTTPError 500; Body ∅] = Some c)
  ∧ hubspot_get 2 [HTTPError 429; HTTPError 429; Body ∅]
    = Some {| returned := None; attempts := 2; slept := 20 |}.
Proof.
  split; [|vm_compute; reflexivity].
  eexists. split; [vm_compute; reflexivity|].
  split; [reflexivity|]. split; [reflexivity|]. split; [reflexivity|].
  apply (hubspot_get_accounting 1000
           [HTTPError 429; HTTPError 429; HTTPError 500; Body ∅]).
  vm_compute; reflexivity.
Defined.

(** ** What the deduplicator keeps and what the sorter changes *)

Lemma first_occurrences_cover (earlier l : list touchpoint) (tp : touchpoint) :
  tp ∈ l →
  minute_key tp ∈ minute_key <$> earlier ++ first_occurrences earlier l.
Proof.
  revert earlier; induction l as [|tp' l IH]; intros earlier Hin;
    [by apply elem_of_nil in Hin|].
  cbn [first_occurrences]. rewrite fmap_app, elem_of_app.
  apply elem_of_cons in Hin as [->|Hin].
  - case_bool_decide as Hk; [by left|]. right. cbn. left.
  - specialize (IH (earlier ++ [tp']) Hin).
    rewrite !fmap_app, !elem_of_app in IH. cbn in IH.
    rewrite list_elem_of_singleton in IH.
    destruct IH as [[Hk|Hk]|Hk].
    + by left.
    + case_bool_decide as Hk'; [left; by rewrite Hk|].
      right. cbn. rewrite Hk. left.
    + right. rewrite fmap_app, elem_of_app. by right.
Qed.

Lemma dedup_key_minute_key (l : list touchpoint) :
  forallb has_date l = true →
  dedup_key <$> l = Ok <$> (minute_key <$> l).
Proof.
  induction l as [|tp l IH]; cbn; [done|].
  rewrite andb_true_iff. intros [Htp Hl].
  rewrite dedup_key_has_date, Htp, IH by done. reflexivity.
Qed.

Global Instance Ok_inj {A : Type} : Inj (=) (=) (@Ok A).
Proof. by intros x y [= ->]. Qed.

(** A sequence with pairwise distinct keys passes through the deduplicator
    unchanged. *)
Lemma dedup_nodup_fixed (l : list touchpoint) :
  forallb has_date l = true → NoDup (minute_key <$> l) → dedup l = Ok l.
Proof.
  intros Hd Hnd. rewrite dedup_spec, Hd. f_equal.
  apply first_occurrences_fixed; [done|].
  intros tp _. cbn. apply not_elem_of_nil.
Qed.

(** X2.  The output of the deduplicator holds every key of its input exactly
    once, on a touchpoint of the input, in the order of the input. *)
Theorem dedup_keys_exactly_once (l out : list touchpoint) :
  dedup l = Ok out →
  out `sublist_of` l
  ∧ NoDup (dedup_key <$> out)
  ∧ (∀ tp, tp ∈ l → ∃ tp', tp' ∈ out ∧ dedup_key tp' = dedup_key tp).
Proof.
  intros Hl. pose proof (dedup_sublist _ _ Hl) as Hsub.
  rewrite dedup_spec in Hl.
  destruct (forallb has_date l) eqn:Hdates; [|discriminate].
  injection Hl as <-.
  pose proof (forallb_sublist _ _ _ Hsub Hdates) as Hout.
  split; [exact Hsub|]. split.
  - rewrite (dedup_key_minute_key _ Hout). apply (NoDup_fmap_2 _).
    apply first_occurrences_fresh.
  - intros tp Htp.
    pose proof (first_occurrences_cover [] l tp Htp) as Hk. cbn in Hk.
    apply list_elem_of_fmap in Hk as (tp' & Hk & Htp').
    exists tp'. split; [exact Htp'|].
    rewrite !dedup_key_has_date.
    rewrite forallb_forall in Hdates, Hout.
    rewrite (Hdates tp), (Hout tp') by (by apply list_elem_of_In).
    by rewrite Hk.
Qed.

Lemma dedup_keys_exactly_once_witness :
  dedup [email_10_00_00; signup_undated; email_10_00_30]
  = Ok [email_10_00_00; signup_undated]
  ∧ NoDup (dedup_key <$> [email_10_00_00; signup_undated]).
Proof.
  split; [vm_compute; reflexivity|].
  apply (dedup_keys_exactly_once
           [email_10_00_00; signup_undated; email_10_00_30]).
  vm_compute; reflexivity.
Defined.

(** X3.  Sorting keeps the number of touchpoints, leaves a sequence that is in
    the order of the keys as it is, and so changes nothing when it is done
    twice. *)
Theorem sort_touchpoints_idempotent :
  (∀ l, length (sort_touchpoints l) = length l)
  ∧ (∀ l, StronglySorted (key_le sort_key) l → sort_touchpoints l = l)
  ∧ (∀ l, sort_touchpoints (sort_touchpoints l) = sort_touchpoints l).
Proof.
  assert (Hfix : ∀ l, StronglySorted (key_le sort_key) l →
                      sort_touchpoints l = l).
  { intros l Hs. symmetry. by apply stable_sort_unique. }
  split; [|split; [exact Hfix|]].
  - intros l. apply Permutation_length, sort_by_perm.
  - intros l. apply Hfix, sort_by_sorted.
Qed.

(** X4.  The sort and deduplication step, run again on its own output, returns
    that output. *)
Theorem sort_dedup_step_idempotent (l out : list touchpoint) :
  dedup (sort_touchpoints l) = Ok out →
  sort_touchpoints out = out ∧ dedup (sort_touchpoints out) = Ok out.
Proof.
  intros Hl. pose proof (dedup_sublist _ _ Hl) as Hsub.
  assert (Hs : sort_touchpoints out = out).
  { symmetry. apply stable_sort_unique; [|done].
    eapply StronglySorted_sublist; [exact Hsub|apply sort_by_sorted]. }
  split; [exact Hs|]. rewrite Hs.
  rewrite dedup_spec in Hl.
  destruct (forallb has_date (sort_touchpoints l)) eqn:Hdates; [|discriminate].
  injection Hl as <-.
  apply dedup_nodup_fixed.
  - by apply (forallb_sublist _ _ _ Hsub).
  - apply first_occurrences_fresh.
Qed.

Lemma sort_dedup_step_idempotent_witness :
  dedup (sort_touchpoints [email_10_00_30; signup_undated; email_10_00_00])
  = Ok [email_10_00_00; signup_undated]
  ∧ dedup (sort_touchpoints [email_10_00_00; signup_undated])
    = Ok [email_10_00_00; signup_undated].
Proof.
  split; [vm_compute; reflexivity|].
  apply (sort_dedup_step_idempotent
           [email_10_00_30; signup_undated; email_10_00_00]).
  vm_compute; reflexivity.
Defined.

(** ** Stripping, lower case and [truncate] *)

Lemma lstrip_head (s : string) : head_space (lstrip s) = false.
Proof.
  induction s as [|c s IH]; cbn; [done|].
  destruct (is_space c) eqn:E; [exact IH|]. cbn. exact E.
Qed.

Lemma lstrip_fixed (s : string) : head_space s = false → lstrip s = s.
Proof. destruct s as [|c s]; cbn; [done|]. by intros ->. Qed.

Lemma rstrip_last (s : string) : last_space (rstrip s) = false.
Proof.
  induction s as [|c s IH]; cbn; [done|].
  destruct (rstrip s) as [|c' r].
  - destruct (is_space c) eqn:E; cbn; [done|exact E].
  - exact IH.
Qed.

Lemma rstrip_fixed (s : string) : last_space s = false → rstrip s = s.
Proof.
  induction s as [|c s IH]; cbn; [done|].
  destruct s as [|c' s'].
  - cbn. by intros ->.
  - intros H. rewrite (IH H). reflexivity.
Qed.

Lemma rstrip_head (s : string) : head_space s = false → head_space (rstrip s) = false.
Proof.
  destruct s as [|c s]; cbn; [done|]. intros Hc.
  destruct (rstrip s) as [|c' r]; cbn; [|exact Hc].
  rewrite Hc. cbn. exact Hc.
Qed.

Lemma strip_ends (s : string) :
  head_space (strip s) = false ∧ last_space (strip s) = false.
Proof.
  unfold strip. split; [apply rstrip_head, lstrip_head|apply rstrip_last].
Qed.

Lemma strip_fixed (s : string) :
  head_space s = false → last_space s = false → strip s = s.
Proof.
  intros Hh Hl. unfold strip. rewrite (lstrip_fixed _ Hh). by apply rstrip_fixed.
Qed.

Lemma strip_idemp (s : string) : strip (strip s) = strip s.
Proof. apply strip_fixed; apply strip_ends. Qed.

Lemma lower_char_idemp (c : ascii) : lower_char (lower_char c) = lower_char c.
Proof. destruct c as [[] [] [] [] [] [] [] []]; vm_compute; reflexivity. Qed.

Lemma lower_char_space (c : ascii) : is_space (lower_char c) = is_space c.
Proof. destruct c as [[] [] [] [] [] [] [] []]; vm_compute; reflexivity. Qed.

Lemma lower_idemp (s : string) : lower (lower s) = lower s.
Proof.
  induction s as [|c s IH]; cbn; [done|]. by rewrite lower_char_idemp, IH.
Qed.

Lemma lower_head_space (s : string) : head_space (lower s) = head_space s.
Proof. destruct s as [|c s]; cbn; [done|]. apply lower_char_space. Qed.

Lemma lower_last_space (s : string) : last_space (lower s) = last_space s.
Proof.
  induction s as [|c s IH]; cbn; [done|].
  destruct s as [|c' s']; cbn in *; [apply lower_char_space|exact IH].
Qed.

(** X5.  The address that the loop looks up is in one spelling: stripping it or
    lowering it again changes nothing, whatever the journey holds. *)
Theorem contact_email_canonical (contact : dict) (email : string) :
  contact_email contact = Ok email →
  strip email = email ∧ lower email = email
  ∧ contact_email (<["email" := VStr email]> contact) = Ok email.
Proof.
  unfold contact_email, getitem.
  destruct (contact !! "email") as [[|e]|] eqn:He; cbn; try discriminate.
  intros [= <-].
  assert (Hs : strip (lower (strip e)) = lower (strip e)).
  { apply strip_fixed.
    - rewrite lower_head_space. apply strip_ends.
    - rewrite lower_last_space. apply strip_ends. }
  split; [exact Hs|]. split; [apply lower_idemp|].
  rewrite lookup_insert_eq. cbn. by rewrite Hs, lower_idemp.
Qed.

Lemma contact_email_canonical_witness :
  contact_email contact_bob = Ok "bob@acme.io"
  ∧ strip "bob@acme.io" = "bob@acme.io".
Proof.
  split; [vm_compute; reflexivity|].
  apply (contact_email_canonical contact_bob "bob@acme.io").
  vm_compute; reflexivity.
Defined.

Lemma has_char_replaced (a b : ascii) (s : string) :
  a ≠ b → has_char a (replace_char a b s) = false.
Proof.
  intros Hab. induction s as [|c s IH]; cbn; [done|]. rewrite IH, orb_false_r.
  destruct (Ascii.eqb_spec c a) as [->|Hc]; by apply Ascii.eqb_neq.
Qed.

Lemma has_char_replace_other (c a b : ascii) (s : string) :
  c ≠ a → c ≠ b → has_char c (replace_char a b s) = has_char c s.
Proof.
  intros Ha Hb. induction s as [|c' s IH]; cbn; [done|]. rewrite IH. f_equal.
  destruct (Ascii.eqb_spec c' a) as [->|Hc]; [|done].
  transitivity false; [|symmetry]; by apply Ascii.eqb_neq.
Qed.

Lemma replace_char_fixed (a b : ascii) (s : string) :
  has_char a s = false → replace_char a b s = s.
Proof.
  induction s as [|c s IH]; cbn; [done|].
  intros [Hc Hs]%orb_false_iff. by rewrite Hc, IH.
Qed.

Lemma has_char_app (c : ascii) (s1 s2 : string) :
  has_char c (s1 +:+ s2) = has_char c s1 || has_char c s2.
Proof.
  induction s1 as [|c' s1 IH]; rewrite ?app_cons, ?app_empty; cbn; [done|].
  by rewrite IH, orb_assoc.
Qed.

Lemma has_char_lstrip (c : ascii) (s : string) :
  has_char c s = false → has_char c (lstrip s) = false.
Proof.
  induction s as [|c' s IH]; cbn; [done|].
  intros H. destruct (is_space c'); [|exact H].
  apply IH. by apply orb_false_iff in H as [_ ?].
Qed.

Lemma has_char_rstrip (c : ascii) (s : string) :
  has_char c s = false → has_char c (rstrip s) = false.
Proof.
  induction s as [|c' s IH]; cbn; [done|].
  intros [Hc Hs]%orb_false_iff. specialize (IH Hs).
  destruct (rstrip s) as [|c'' r].
  - destruct (is_space c'); cbn; [done|]. by rewrite Hc.
  - cbn in *. by rewrite Hc, IH.
Qed.

Lemma has_char_take (c : ascii) (n : nat) (s : string) :
  has_char c s = false → has_char c (str_take n s) = false.
Proof.
  revert s; induction n as [|n IH]; intros [|c' s]; cbn; try done.
  intros [Hc Hs]%orb_false_iff. by rewrite Hc, IH.
Qed.

Lemma last_space_app (s1 s2 : string) :
  s2 ≠ "" → last_space (s1 +:+ s2) = last_space s2.
Proof.
  intros Hs2. induction s1 as [|c s1 IH]; rewrite ?app_cons, ?app_empty;
    cbn; [done|].
  destruct (s1 +:+ s2) as [|c' s'] eqn:E; [|exact IH].
  destruct s1, s2; rewrite ?app_cons, ?app_empty in E; congruence.
Qed.

Lemma head_space_take_app (n : nat) (s t : string) :
  n < String.length s → head_space t = false →
  head_space (str_take n s +:+ t) = if n is O then false else head_space s.
Proof.
  destruct n as [|n], s as [|c s]; cbn [str_take String.length];
    rewrite ?app_cons, ?app_empty; try lia; intros _ Ht; by rewrite ?Ht.
Qed.

Lemma str_take_app_exact (n : nat) (s t : string) :
  String.length s = n → str_take n (s +:+ t) = s.
Proof.
  revert s; induction n as [|n IH]; intros [|c s] H;
    rewrite ?app_cons, ?app_empty; cbn [String.length] in H; try done.
  cbn [str_take]. injection H as H. by rewrite IH.
Qed.

(** X6.  What [truncate] returns has no line break and no white space at its
    ends, and [truncate] with the same cap returns it as it is. *)
Theorem truncate_clean_idempotent (text : value) (max_len : nat) :
  has_char LF (truncate text max_len) = false
  ∧ has_char CR (truncate text max_len) = false
  ∧ strip (truncate text max_len) = truncate text max_len
  ∧ truncate (VStr (truncate text max_len)) max_len = truncate text max_len.
Proof.
  assert (Hclean : ∀ r,
    has_char LF r = false → has_char CR r = false →
    head_space r = false → last_space r = false →
    (String.length r ≤ max_len
     ∨ ∃ t, r = t +:+ "..." ∧ String.length t = max_len) →
    has_char LF r = false ∧ has_char CR r = false ∧ strip r = r
    ∧ truncate (VStr r) max_len = r).
  { intros r HLF HCR Hh Hl Hlen.
    split; [done|]. split; [done|]. split; [by apply strip_fixed|].
    unfold truncate. destruct r as [|c r']; [done|]. cbn [truthy str].
    rewrite (replace_char_fixed LF) by done.
    rewrite (replace_char_fixed CR) by done.
    rewrite strip_fixed by done.
    destruct Hlen as [Hlen|(t & -> & Hlen)].
    - by apply Nat.ltb_ge in Hlen as ->.
    - rewrite length_app, Hlen. cbn [String.length].
      replace (max_len <? max_len + 3) with true
        by (symmetry; apply Nat.ltb_lt; lia).
      by rewrite str_take_app_exact. }
  cut (has_char LF (truncate text max_len) = false
       ∧ has_char CR (truncate text max_len) = false
       ∧ head_space (truncate text max_len) = false
       ∧ last_space (truncate text max_len) = false
       ∧ (String.length (truncate text max_len) ≤ max_len
          ∨ ∃ t, truncate text max_len = t +:+ "..."
                 ∧ String.length t = max_len)).
  { intros (? & ? & ? & ? & ?). by apply Hclean. }
  clear Hclean. unfold truncate.
  destruct (truthy text); [|cbn; repeat split; left; lia].
  set (t := strip _).
  assert (HLF : has_char LF t = false).
  { apply has_char_rstrip, has_char_lstrip.
    rewrite has_char_replace_other by (vm_compute; discriminate).
    apply has_char_replaced. vm_compute; discriminate. }
  assert (HCR : has_char CR t = false).
  { apply has_char_rstrip, has_char_lstrip, has_char_replaced.
    vm_compute; discriminate. }
  destruct (strip_ends (replace_char CR SP (replace_char LF SP (str text))))
    as [Hh Hl]. fold t in Hh, Hl.
  destruct (max_len <? String.length t) eqn:E.
  - apply Nat.ltb_lt in E. repeat split.
    + rewrite has_char_app, has_char_take by done. reflexivity.
    + rewrite has_char_app, has_char_take by done. reflexivity.
    + rewrite head_space_take_app by done. by destruct max_len.
    + by rewrite last_space_app.
    + right. exists (str_take max_len t). split; [done|].
      rewrite length_str_take. lia.
  - apply Nat.ltb_ge in E. repeat split; auto.
Qed.

(** ** What the normalizer emits for a contact *)

Lemma when_shape (P : touchpoint → Prop) (b : bool) (tp : touchpoint) :
  (b = true → P tp) → length (when b tp) ≤ 1 ∧ Forall P (when b tp).
Proof.
  destruct b; cbn; intros H; split; try lia; repeat constructor. by apply H.
Qed.

Lemma shape_app (P : touchpoint → Prop) (n m : nat) (l1 l2 : list touchpoint) :
  length l1 ≤ n ∧ Forall P l1 → length l2 ≤ m ∧ Forall P l2 →
  length (l1 ++ l2) ≤ n + m ∧ Forall P (l1 ++ l2).
Proof.
  intros [? ?] [? ?]. rewrite List.length_app, Forall_app. split; [lia|done].
Qed.

Lemma property_touchpoints_shape (entry : dict) (email : string) (props : dict) :
  length (property_touchpoints entry email props) ≤ 11
  ∧ Forall (λ tp, dated tp = true ∧ contact tp = Some email)
      (property_touchpoints entry email props).
Proof.
  unfold property_touchpoints.
  change 11 with (1 + (1 + (1 + (1 + (1 + (1 + (1 + (1 + (1 + (1 + 1)))))))))).
  repeat apply shape_app; apply when_shape; unfold dated; cbn;
    rewrite ?andb_true_iff; tauto.
Qed.

Lemma engagement_touchpoint_shape (api : crm)
    (call_seconds : string → result string) (email : string)
    (eng : string * string * string) (tps : list touchpoint) :
  engagement_touchpoint api call_seconds email eng = Ok tps →
  length tps ≤ 1
  ∧ Forall (λ tp, dated tp = true ∧ contact tp = Some email) tps.
Proof.
  destruct eng as [[eng_type eng_id] eng_label]. unfold engagement_touchpoint.
  destruct (engagement_details api eng_type eng_id) as [details|].
  - match goal with |- mbind _ ?r = _ → _ => destruct r as [[ts d]|e] end;
      cbn; [|discriminate].
    destruct (truthy ts) eqn:Hts; intros [= <-]; cbn.
    + split; [lia|]. repeat constructor. exact Hts.
    + split; [lia|constructor].
  - intros [= <-]. cbn. split; [lia|constructor].
Qed.

Lemma engagement_touchpoints_shape (api : crm)
    (call_seconds : string → result string) (email : string)
    (engs : list (string * string * string)) (tps : list touchpoint) :
  engagement_touchpoints api call_seconds email engs = Ok tps →
  length tps ≤ length engs
  ∧ Forall (λ tp, dated tp = true ∧ contact tp = Some email) tps.
Proof.
  revert tps. induction engs as [|eng engs IH]; intros tps; cbn.
  - intros [= <-]. split; [cbn; lia|constructor].
  - destruct (engagement_touchpoint api call_seconds email eng) as [tp1|e]
      eqn:H1; cbn; [|discriminate].
    destruct (engagement_touchpoints api call_seconds email engs) as [tp2|e];
      cbn; [|discriminate].
    intros [= <-]. apply engagement_touchpoint_shape in H1.
    apply (shape_app _ 1 (length engs)); [exact H1|by apply IH].
Qed.

(** The loop body adds at most 41 touchpoints and at most one contact
    detail to what it was given, and every touchpoint it adds is dated
    unless it is the signup of a contact that the CRM does not know. *)
Lemma process_contact_step (api : crm) (call_seconds : string → result string)
    (tps0 tps : list touchpoint) (ds0 ds : list contact_detail) (entry : dict) :
  process_contact api call_seconds (tps0, ds0) entry = Ok (tps, ds) →
  ∃ new dnew,
    tps = tps0 ++ new ∧ ds = ds0 ++ dnew
    ∧ length new ≤ 41 ∧ length dnew ≤ 1
    ∧ Forall (λ tp, dated tp = true
                    ∨ (type tp = "Platform Signup" ∧ source tp = "Cognito"
                       ∧ contact tp = None)) new.
Proof.
  unfold process_contact.
  destruct (contact_email entry) as [email|e]; cbn; [|discriminate].
  destruct (contact_by_email api email) as [hs|].
  - destruct (engagement_touchpoints _ _ _ _) as [engs|e] eqn:He; cbn;
      [|discriminate].
    intros [= <- <-]. eexists _, _. split; [reflexivity|]. split; [reflexivity|].
    apply engagement_touchpoints_shape in He as [Hlen Hall].
    rewrite length_take in Hlen.
    destruct (property_touchpoints_shape entry email (hs_properties hs))
      as [Hlen' Hall'].
    split; [rewrite List.length_app; lia|]. split; [cbn; lia|].
    rewrite Forall_app. split; (eapply Forall_impl; [eassumption|]);
      cbn; intros tp [? _]; by left.
  - intros [= <- <-]. eexists _, []. split; [reflexivity|].
    split; [by rewrite app_nil_r|]. cbn. split; [lia|]. split; [lia|].
    constructor; [by right|constructor].
Qed.

(** X7.  A contact that the CRM knows adds only dated touchpoints that name
    it, at most 11 from its properties and 30 from its engagements, and its
    contact detail. *)
Theorem known_contact_touchpoints (api : crm)
    (call_seconds : string → result string)
    (tps0 tps : list touchpoint) (ds0 ds : list contact_detail)
    (entry : dict) (email : string) (hs : hs_contact) :
  contact_email entry = Ok email →
  contact_by_email api email = Some hs →
  process_contact api call_seconds (tps0, ds0) entry = Ok (tps, ds) →
  ∃ new,
    tps = tps0 ++ new
    ∧ length new ≤ 41
    ∧ Forall (λ tp, dated tp = true ∧ contact tp = Some email) new
    ∧ ds = ds0 ++ [ {| email := email; hs_id_of := hs_id hs;
                       props := hs_properties hs |} ].
Proof.
  intros Hemail Hhs. unfold process_contact. rewrite Hemail. cbn. rewrite Hhs.
  destruct (engagement_touchpoints _ _ _ _) as [engs|e] eqn:He; cbn;
    [|discriminate].
  intros [= <- <-]. eexists. split; [reflexivity|].
  apply engagement_touchpoints_shape in He as [Hlen Hall].
  rewrite length_take in Hlen.
  destruct (property_touchpoints_shape entry email (hs_properties hs))
    as [Hlen' Hall'].
  split; [rewrite List.length_app; lia|]. split; [|reflexivity].
  rewrite Forall_app. by split.
Qed.

Lemma known_contact_touchpoints_witness :
  ∃ tps ds,
    process_contact crm_long_note no_call_seconds ([signup_undated], [])
      {[ "email" := VStr "Ann@Acme.io " ]} = Ok (tps, ds)
    ∧ ∃ new, tps = [signup_undated] ++ new ∧ length new ≤ 41
             ∧ Forall (λ tp, dated tp = true ∧ contact tp = Some "ann@acme.io") new
             ∧ ds = [] ++ [ {| email := "ann@acme.io"; hs_id_of := "101";
                               props := ∅ |} ].
Proof.
  eexists _, _. split; [vm_compute; reflexivity|].
  apply (known_contact_touchpoints crm_long_note no_call_seconds
           [signup_undated] _ [] _ {[ "email" := VStr "Ann@Acme.io " ]}
           "ann@acme.io" {| hs_id := "101"; hs_properties := ∅ |});
    vm_compute; reflexivity.
Defined.

(** X8.  The loop over the contacts only appends: what was collected stays in
    front, a company with [n] contacts gets at most [41 n] touchpoints and
    [n] contact details from them, and the only touchpoints that may lack a
    date are the signups of contacts that the CRM does not know. *)
Theorem process_contacts_appends (api : crm)
    (call_seconds : string → result string) (contacts : list dict)
    (tps0 tps : list touchpoint) (ds0 ds : list contact_detail) :
  process_contacts api call_seconds (tps0, ds0) contacts = Ok (tps, ds) →
  ∃ new dnew,
    tps = tps0 ++ new ∧ ds = ds0 ++ dnew
    ∧ length new ≤ 41 * length contacts
    ∧ length dnew ≤ length contacts
    ∧ Forall (λ tp, dated tp = true
                    ∨ (type tp = "Platform Signup" ∧ source tp = "Cognito"
                       ∧ contact tp = None)) new.
Proof.
  revert tps0 ds0. induction contacts as [|entry contacts IH]; intros tps0 ds0.
  - intros [= <- <-]. exists [], []. rewrite !app_nil_r. cbn.
    repeat split; try lia. constructor.
  - cbn [process_contacts].
    destruct (process_contact api call_seconds (tps0, ds0) entry)
      as [[tps1 ds1]|e] eqn:H1; cbn; [|discriminate].
    intros H. apply process_contact_step in H1
      as (new1 & dnew1 & -> & -> & Hn1 & Hd1 & Hall1).
    apply IH in H as (new & dnew & -> & -> & Hn & Hd & Hall).
    exists (new1 ++ new), (dnew1 ++ dnew). rewrite <- !app_assoc.
    split; [reflexivity|]. split; [reflexivity|].
    rewrite !List.length_app, Forall_app. cbn [length].
    split; [lia|]. split; [lia|]. by split.
Qed.

Lemma process_contacts_appends_witness :
  ∃ tps ds,
    process_contacts crm_unknown no_call_seconds ([email_10_00_00], [])
      [contact_bob; contact_bob] = Ok (tps, ds)
    ∧ ∃ new dnew, tps = [email_10_00_00] ++ new ∧ ds = [] ++ dnew
                  ∧ length new ≤ 41 * 2.
Proof.
  eexists _, _. split; [vm_compute; reflexivity|].
  destruct (process_contacts_appends crm_unknown no_call_seconds
              [contact_bob; contact_bob] [email_10_00_00] _ [] _ eq_refl)
    as (new & dnew & H1 & H2 & H3 & _).
  by exists new, dnew.
Defined.

(** ** The records of a run *)

Lemma process_journey_record (api : crm) (call_seconds : string → result string)
    (j : journey) (c : customer) :
  process_journey api call_seconds j = Ok c →
  company c = j_company j
  ∧ deal_stage c = get (j_fields j) "deal_stage"
  ∧ c_source c = get_or (j_fields j) "source" "Unknown"
  ∧ NoDup (dedup_key <$> touchpoints c)
  ∧ forallb has_date (touchpoints c) = true.
Proof.
  unfold process_journey.
  destruct (process_contacts _ _ _ _) as [[tps details]|e]; cbn; [|discriminate].
  destruct (dedup _) as [deduped|e] eqn:Hd; cbn; [|discriminate].
  intros [= <-]. cbn.
  split; [reflexivity|]. split; [reflexivity|]. split; [reflexivity|].
  pose proof (dedup_sublist _ _ Hd) as Hsub. rewrite dedup_spec in Hd.
  destruct (forallb has_date _) eqn:Hdates; [|discriminate].
  injection Hd as <-.
  pose proof (forallb_sublist _ _ _ Hsub Hdates) as Hout.
  split; [|exact Hout].
  rewrite (dedup_key_minute_key _ Hout). apply (NoDup_fmap_2 _).
  apply first_occurrences_fresh.
Qed.

(** X9.  A run that ends gives one record per journey, in the order of the
    journeys, with the company, the deal stage and the channel of its
    journey; in every record the keys of the touchpoints are pairwise
    distinct and no date is [None]. *)
Theorem all_touchpoint_data_records (api : crm)
    (call_seconds : string → result string)
    (journeys : list journey) (all : list customer) :
  all_touchpoint_data api call_seconds journeys = Ok all →
  company <$> all = j_company <$> journeys
  ∧ deal_stage <$> all = (λ j, get (j_fields j) "deal_stage") <$> journeys
  ∧ c_source <$> all = (λ j, get_or (j_fields j) "source" "Unknown") <$> journeys
  ∧ Forall (λ c, NoDup (dedup_key <$> touchpoints c)
                 ∧ forallb has_date (touchpoints c) = true) all.
Proof.
  revert all. induction journeys as [|j journeys IH]; intros all; cbn.
  - intros [= <-]. repeat split. constructor.
  - destruct (process_journey api call_seconds j) as [c|e] eqn:Hc; cbn;
      [|discriminate].
    destruct (all_touchpoint_data api call_seconds journeys) as [cs|e]; cbn;
      [|discriminate].
    intros [= <-].
    apply process_journey_record in Hc as (H1 & H2 & H3 & H4 & H5).
    destruct (IH cs eq_refl) as (I1 & I2 & I3 & I4).
    cbn. rewrite H1, H2, H3, I1, I2, I3. repeat split.
    constructor; [by split|exact I4].
Qed.

Lemma all_touchpoint_data_records_witness :
  ∃ all,
    all_touchpoint_data crm_long_note no_call_seconds [journey_acme; journey_acme]
    = Ok all
    ∧ company <$> all = ["Acme"; "Acme"].
Proof.
  eexists. split; [vm_compute; reflexivity|].
  apply (all_touchpoint_data_records crm_long_note no_call_seconds
           [journey_acme; journey_acme]).
  vm_compute; reflexivity.
Defined.

(** ** The stage that the analyzer reads back from the normalizer *)

Lemma prefix_first_char (c : ascii) (sep b : string) :
  has_char c sep = false → sep ≠ "" → String.prefix sep (String c b) = false.
Proof.
  destruct sep as [|x sep]; [done|]. cbn.
  intros [Hx _]%orb_false_iff _. apply Ascii.eqb_neq in Hx.
  by destruct (Ascii.ascii_dec x c).
Qed.

Lemma prefix_app_char (c : ascii) (sep a b : string) :
  has_char c sep = false →
  String.prefix sep (a +:+ String c b) = String.prefix sep a.
Proof.
  revert sep. induction a as [|y a IH]; intros sep Hc;
    rewrite ?app_cons, ?app_empty.
  - destruct sep as [|x sep]; [done|].
    by rewrite prefix_first_char.
  - destruct sep as [|x sep]; [done|]. cbn.
    destruct (Ascii.ascii_dec x y); [|done].
    apply IH. cbn in Hc. by apply orb_false_iff in Hc as [_ ?].
Qed.

Lemma after_first_skip (c : ascii) (sep a b : string) :
  has_char c sep = false → sep ≠ "" → contains sep a = false →
  after_first sep (a +:+ String c b) = after_first sep b.
Proof.
  intros Hc Hsep. induction a as [|y a IH]; rewrite ?app_cons, ?app_empty.
  - intros _. cbn [after_first]. by rewrite prefix_first_char.
  - cbn [contains]. intros [Hp Ha]%orb_false_iff.
    cbn [after_first]. rewrite <- app_cons, prefix_app_char, Hp by done.
    by apply IH.
Qed.

Lemma before_first_skip (c : ascii) (sep a b : string) :
  has_char c sep = false → sep ≠ "" → contains sep a = false →
  before_first sep (a +:+ String c b) = a +:+ String c (before_first sep b).
Proof.
  intros Hc Hsep. induction a as [|y a IH]; rewrite ?app_cons, ?app_empty.
  - intros _. cbn [before_first]. by rewrite prefix_first_char.
  - cbn [contains]. intros [Hp Ha]%orb_false_iff.
    cbn [before_first]. rewrite <- app_cons, prefix_app_char, Hp by done.
    by rewrite IH.
Qed.

Lemma prefix_char (c y : ascii) (b : string) :
  String.prefix (String c "") (String y b) = Ascii.eqb y c.
Proof.
  cbn. destruct (Ascii.ascii_dec c y) as [->|Hne].
  - rewrite Ascii.eqb_refl. by destruct b.
  - symmetry. apply Ascii.eqb_neq. congruence.
Qed.

Lemma before_first_char (c : ascii) (a b : string) :
  has_char c a = false → before_first (String c "") (a +:+ String c b) = a.
Proof.
  induction a as [|y a IH]; rewrite ?app_cons, ?app_empty.
  - intros _. cbn [before_first]. by rewrite prefix_char, Ascii.eqb_refl.
  - cbn [has_char]. intros [Hy Ha]%orb_false_iff.
    cbn [before_first]. rewrite prefix_char, Hy. f_equal. by apply IH.
Qed.

Lemma prefix_empty (s : string) : String.prefix "" s = true.
Proof. by destruct s. Qed.

Lemma prefix_snoc (c : ascii) (sep a : string) :
  last_is c sep = false →
  String.prefix sep (a +:+ String c "") = String.prefix sep a.
Proof.
  revert sep. induction a as [|y a IH]; intros sep Hc;
    rewrite ?app_cons, ?app_empty.
  - destruct sep as [|x [|x' sep]]; cbn in *; try done.
    + apply Ascii.eqb_neq in Hc. by destruct (Ascii.ascii_dec x c).
    + by destruct (Ascii.ascii_dec x c).
  - destruct sep as [|x sep]; [done|]. cbn [String.prefix].
    destruct (Ascii.ascii_dec x y); [|done].
    destruct sep as [|x' sep]; [by rewrite !prefix_empty|]. by apply IH.
Qed.

Lemma contains_snoc (c : ascii) (sep a : string) :
  last_is c sep = false → sep ≠ "" →
  contains sep (a +:+ String c "") = contains sep a.
Proof.
  intros Hc Hsep. induction a as [|y a IH]; rewrite ?app_cons, ?app_empty.
  - destruct sep as [|x [|x' sep]]; cbn in *; try done.
    + apply Ascii.eqb_neq in Hc. by destruct (Ascii.ascii_dec x c).
    + by destruct (Ascii.ascii_dec x c).
  - cbn [contains]. rewrite <- app_cons, prefix_snoc, IH by done.
    reflexivity.
Qed.

Lemma rstrip_snoc (c : ascii) (s : string) :
  is_space c = true → rstrip (s +:+ String c "") = rstrip s.
Proof.
  intros Hc. induction s as [|y s IH]; rewrite ?app_cons, ?app_empty.
  - cbn. by rewrite Hc.
  - cbn [rstrip]. by rewrite IH.
Qed.

Lemma strip_snoc (c : ascii) (s : string) :
  is_space c = true → strip (s +:+ String c "") = strip s.
Proof.
  intros Hc. unfold strip.
  induction s as [|y s IH]; rewrite ?app_cons, ?app_empty.
  - cbn. by rewrite Hc.
  - cbn [lstrip]. destruct (is_space y); [exact IH|].
    rewrite <- app_cons. by apply rstrip_snoc.
Qed.

Lemma after_first_stage_change (deal_name stage source_type : string) :
  contains "moved to:" deal_name = false →
  after_first "moved to:" (stage_change_detail deal_name stage source_type)
  = Some (" " +:+ stage +:+ " (via " +:+ source_type +:+ ")").
Proof.
  intros Hname. unfold stage_change_detail, QUOTE.
  rewrite (app_cons _ "" (deal_name +:+ _)), app_empty.
  rewrite (app_cons _ "" (" moved to: " +:+ _)), app_empty.
  cbn [after_first]. rewrite prefix_first_char by done.
  rewrite after_first_skip by done. reflexivity.
Qed.

Lemma stage_of_rest (stage source_type : string) :
  contains "moved to:" stage = false → has_char LPAREN stage = false →
  strip (before_first "("
           (before_first "moved to:"
              (" " +:+ stage +:+ " (via " +:+ source_type +:+ ")")))
  = strip stage.
Proof.
  intros Hst Hpar.
  replace (" " +:+ stage +:+ " (via " +:+ source_type +:+ ")")
    with ((" " +:+ stage +:+ " ")
          +:+ String LPAREN ("via " +:+ source_type +:+ ")"))
    by (by rewrite !str_app_assoc).
  rewrite before_first_skip; [|done|done|].
  - change "(" with (String LPAREN ""). rewrite before_first_char.
    + transitivity (strip (stage +:+ String SP "")); [reflexivity|].
      by apply strip_snoc.
    + rewrite app_cons, app_empty. cbn [has_char].
      rewrite has_char_app, Hpar. reflexivity.
  - rewrite app_cons, app_empty. cbn [contains].
    rewrite (contains_snoc SP) by done. rewrite Hst. reflexivity.
Qed.

Lemma extract_stage_change (deal_name stage source_type : string) :
  contains "moved to:" deal_name = false →
  contains "moved to:" stage = false →
  has_char LPAREN stage = false →
  extract_stage (stage_change_detail deal_name stage source_type)
  = Ok (strip stage).
Proof.
  intros Hname Hst Hpar.
  rewrite (extract_stage_spec _ _ (after_first_stage_change _ _ _ Hname)).
  by rewrite stage_of_rest.
Qed.

Lemma STAGE_MAP_labels (key label : string) :
  STAGE_MAP !! key = Some label →
  contains "moved to:" label = false
  ∧ has_char LPAREN label = false
  ∧ strip label = label
  ∧ STAGE_MAP !! label = None.
Proof.
  intros H. apply elem_of_list_to_map_2 in H. revert H.
  change label with (key, label).2 at 2 3 4 5 6.
  generalize (key, label). apply Forall_forall.
  repeat constructor; vm_compute; reflexivity.
Qed.

Lemma contains_stage_change (deal_name stage source_type : string) :
  contains "moved to:" deal_name = false →
  contains "moved to:" (stage_change_detail deal_name stage source_type) = true.
Proof.
  intros Hname.
  rewrite contains_after_first, (after_first_stage_change _ _ _ Hname).
  by apply bool_decide_eq_true.
Qed.

(** X10.  From the detail that the normalizer writes for a stage change, the
    analyzer reads the stage back, stripped, as long as the name of the deal
    does not hold "moved to:" and the stage holds neither "moved to:"
    nor "(".  Every label of [STAGE_MAP] is read back as it is, and mapping
    a label again leaves it. *)
Theorem stage_read_back :
  (∀ deal_name stage source_type,
     contains "moved to:" deal_name = false →
     contains "moved to:" stage = false →
     has_char LPAREN stage = false →
     contains "moved to:" (stage_change_detail deal_name stage source_type) = true
     ∧ extract_stage (stage_change_detail deal_name stage source_type)
       = Ok (strip stage))
  ∧ (∀ deal_name key label source_type,
       contains "moved to:" deal_name = false →
       STAGE_MAP !! key = Some label →
       extract_stage
         (stage_change_detail deal_name (stage_name (VStr key)) source_type)
       = Ok label
       ∧ stage_name (VStr label) = label).
Proof.
  split.
  - intros deal_name stage source_type Hname Hst Hpar. split.
    + rewrite contains_after_first, (after_first_stage_change _ _ _ Hname).
      by apply bool_decide_eq_true.
    + by apply extract_stage_change.
  - intros deal_name key label source_type Hname Hkey.
    destruct (STAGE_MAP_labels _ _ Hkey) as (H1 & H2 & H3 & H4).
    unfold stage_name. rewrite Hkey, H4. cbn [default].
    split; [|reflexivity].
    rewrite extract_stage_change by done. f_equal. exact H3.
Qed.

Lemma stages_seen_app (l1 l2 : list touchpoint) :
  stages_seen (l1 ++ l2)
  = s1 ← stages_seen l1; s2 ← stages_seen l2; Ok (s1 ++ s2).
Proof.
  induction l1 as [|tp l1 IH]; cbn [stages_seen app].
  - cbn. by destruct (stages_seen l2).
  - destruct (_ && _); [|exact IH].
    destruct (extract_stage (detail tp)) as [stage|e]; cbn; [|done].
    rewrite IH. destruct (stages_seen l1) as [s1|e]; cbn; [|done].
    by destruct (stages_seen l2).
Qed.

(** ** The analysis as a whole *)

Lemma consecutive_elem {A : Type} (l : list A) (a b : A) :
  (a, b) ∈ consecutive l → a ∈ l ∧ b ∈ l.
Proof.
  induction l as [|x [|y l] IH]; cbn [consecutive];
    [by intros ?%elem_of_nil..|].
  intros [[= -> ->]|Hin]%elem_of_cons.
  - split; [left|right; left].
  - destruct (IH Hin). split; by right.
Qed.

Lemma consecutive_length {A : Type} (l : list A) :
  length (consecutive l) = length l - 1.
Proof.
  induction l as [|x [|y l] IH]; cbn [consecutive length] in *; lia.
Qed.

Lemma marks_elem (tps : list touchpoint) (d : value) (t : string) :
  (d, t) ∈ marks tps →
  ∃ tp, tp ∈ tps ∧ counted tp = true ∧ date tp = d ∧ type tp = t.
Proof.
  unfold marks. intros (tp & [= -> ->] & Htp)%list_elem_of_fmap.
  apply list_elem_of_filter in Htp as [Hc Htp].
  exists tp. split; [done|]. split; [by apply Is_true_true|done].
Qed.

Lemma gap_between_length (days_between : string → string → option Z)
    (c : customer) (p : (value * string) * (value * string)) :
  length (gap_between days_between c p) ≤ 1.
Proof.
  unfold gap_between. destruct (days_between _ _) as [gap|]; [|cbn; lia].
  destruct (0 <? gap)%Z; cbn; lia.
Qed.

(** X12.  Every gap of a customer carries the company and the deal stage of the
    customer, lies between two of its dated touchpoints, neither of the
    kind "Last Sales Activity", whose difference in days it is, and a
    customer with [n] such touchpoints has at most [n - 1] gaps. *)
Theorem customer_gaps_records (days_between : string → string → option Z)
    (c : customer) :
  length (customer_gaps days_between c)
  ≤ length (filter counted (touchpoints c)) - 1
  ∧ ∀ g, g ∈ customer_gaps days_between c →
      gap_company g = company c
      ∧ outcome g = deal_stage c
      ∧ from_type g ≠ "Last Sales Activity"
      ∧ to_type g ≠ "Last Sales Activity"
      ∧ ∃ tp1 tp2,
          tp1 ∈ touchpoints c ∧ tp2 ∈ touchpoints c
          ∧ dated tp1 = true ∧ dated tp2 = true
          ∧ type tp1 = from_type g ∧ type tp2 = to_type g
          ∧ days_between (str (date tp1)) (str (date tp2)) = Some (gap_days g).
Proof.
  unfold customer_gaps. rewrite gap_loop_start. split.
  - transitivity (length (consecutive (marks (touchpoints c)))).
    + induction (consecutive (marks (touchpoints c))) as [|p ps IH];
        cbn [flat_map length]; [lia|].
      rewrite List.length_app.
      pose proof (gap_between_length days_between c p). lia.
    + rewrite consecutive_length. unfold marks. by rewrite length_fmap.
  - intros g Hg. apply list_elem_of_In, in_flat_map in Hg
      as ([[d1 t1] [d2 t2]] & Hp & Hg).
    apply list_elem_of_In, consecutive_elem in Hp as [H1 H2].
    apply marks_elem in H1 as (tp1 & Hin1 & Hc1 & <- & <-).
    apply marks_elem in H2 as (tp2 & Hin2 & Hc2 & <- & <-).
    unfold gap_between in Hg. cbn [fst snd] in Hg.
    destruct (days_between _ _) as [gap|] eqn:Hd; [|done].
    destruct (0 <? gap)%Z; [|done].
    destruct Hg as [<-|[]]. cbn.
    unfold counted in Hc1, Hc2.
    apply andb_true_iff in Hc1 as [Hd1 Ht1], Hc2 as [Hd2 Ht2].
    apply negb_true_iff, String.eqb_neq in Ht1, Ht2.
    split; [done|]. split; [done|]. split; [done|]. split; [done|].
    exists tp1, tp2. by repeat split.
Qed.

Lemma analyze_customer_ok (days_between : string → string → option Z)
    (st : falloff) (c : customer) :
  ∃ stages,
    stages_seen (touchpoints c) = Ok stages
    ∧ analyze_customer days_between st c
      = Ok {| stage_sequence_counts :=
                track_sequences (stages.*2) (stage_sequence_counts st);
              last_stage_before_stall :=
                if value_in (deal_stage c)
                     ["Demo Scheduled"; "Demo Follow-Up"; "Payment Link Sent";
                      "On Hold"; "Free Trial"]
                then increment (str (deal_stage c)) (last_stage_before_stall st)
                else last_stage_before_stall st;
              touchpoint_gaps :=
                touchpoint_gaps st ++ customer_gaps days_between c |}.
Proof.
  destruct (stages_seen_ok (touchpoints c)) as [stages Hs].
  exists stages. split; [exact Hs|]. unfold analyze_customer. by rewrite Hs.
Qed.

(** X13.  The analysis never raises, although it indexes the pieces of a split.
    It counts, for each of the five stages "Demo Scheduled", "Demo
    Follow-Up", "Payment Link Sent", "On Hold" and "Free Trial", the
    customers at that stage, and counts no other stage: the customers at
    "Freemium" and "Interested in a pilot", which the stalled cohort holds,
    are not counted. *)
Theorem analyze_counts_stalled (days_between : string → string → option Z)
    (all : list customer) (st : falloff) :
  ∃ st',
    analyze days_between st all = Ok st'
    ∧ ∀ s,
        default 0 (last_stage_before_stall st' !! s)
        = default 0 (last_stage_before_stall st !! s)
          + if bool_decide (s ∈ ["Demo Scheduled"; "Demo Follow-Up";
                                 "Payment Link Sent"; "On Hold"; "Free Trial"])
            then length (filter (λ c, deal_stage c = VStr s) all)
            else 0.
Proof.
  revert st. induction all as [|c all IH]; intros st.
  - exists st. split; [reflexivity|]. intros s. cbn. case_bool_decide; lia.
  - destruct (analyze_customer_ok days_between st c) as (stages & _ & Hc).
    cbn [analyze]. rewrite Hc. cbn [mbind result_bind].
    destruct (IH {| stage_sequence_counts :=
                      track_sequences (stages.*2) (stage_sequence_counts st);
                    last_stage_before_stall :=
                      if value_in (deal_stage c)
                           ["Demo Scheduled"; "Demo Follow-Up";
                            "Payment Link Sent"; "On Hold"; "Free Trial"]
                      then increment (str (deal_stage c))
                             (last_stage_before_stall st)
                      else last_stage_before_stall st;
                    touchpoint_gaps :=
                      touchpoint_gaps st ++ customer_gaps days_between c |})
      as (st' & Hst' & Hcount).
    exists st'. split; [exact Hst'|]. intros s. rewrite Hcount.
    cbn [last_stage_before_stall]. rewrite filter_cons.
    assert (Hin : value_in (deal_stage c)
                    ["Demo Scheduled"; "Demo Follow-Up"; "Payment Link Sent";
                     "On Hold"; "Free Trial"] = true
                  ↔ ∃ s', deal_stage c = VStr s'
                          ∧ s' ∈ ["Demo Scheduled"; "Demo Follow-Up";
                                  "Payment Link Sent"; "On Hold"; "Free Trial"]).
    { unfold value_in. rewrite existsb_exists. split.
      - intros (s' & Hs' & Heq). exists s'.
        split; [by apply bool_decide_eq_true in Heq|by apply list_elem_of_In].
      - intros (s' & Heq & Hs'). exists s'.
        split; [by apply list_elem_of_In|by apply bool_decide_eq_true]. }
    destruct (value_in (deal_stage c) _) eqn:Hv.
    + destruct (proj1 Hin eq_refl) as (s' & Heq & Hs'). rewrite Heq. cbn [str].
      rewrite increment_lookup.
      destruct (decide (s' = s)) as [->|Hne].
      * rewrite bool_decide_eq_true_2 by done.
        rewrite decide_True by done. cbn [length]. lia.
      * rewrite (decide_False (P := VStr s' = VStr s)) by congruence.
        case_bool_decide; lia.
    + case_decide as Heq; [|lia].
      case_bool_decide as Hs; [|lia].
      assert (false = true) as Hf; [|discriminate Hf].
      apply Hin. by exists s.
Qed.

(** ** The search for the deals of a company *)

Lemma words_go_shape (s : string) :
  has_space (words_go s).1 = false
  ∧ Forall (λ w, w ≠ "" ∧ has_space w = false) (words_go s).2.
Proof.
  induction s as [|c s [IH1 IH2]]; cbn [words_go]; [by split|].
  destruct (words_go s) as [w ws]. cbn [fst snd] in *.
  destruct (is_space c) eqn:Hc; cbn [fst snd has_space].
  - split; [done|]. destruct w as [|c' w']; [done|].
    constructor; [by split|done].
  - rewrite Hc. by split.
Qed.

Lemma words_shape (s : string) :
  Forall (λ w, w ≠ "" ∧ has_space w = false) (words s).
Proof.
  unfold words. pose proof (words_go_shape s) as [H1 H2].
  destruct (words_go s) as [w ws]. cbn [fst snd] in *.
  destruct w as [|c w']; [done|]. constructor; [by split|done].
Qed.

Lemma search_words_shape (company_name : string) :
  Forall (λ w, w ≠ "" ∧ has_space w = false) (search_words company_name).
Proof.
  unfold search_words. pose proof (words_shape company_name) as Hw.
  destruct (List.filter _ _) as [|w ws] eqn:E.
  - by apply Forall_take.
  - rewrite <- E. rewrite Forall_forall in Hw |- *.
    intros x Hx. apply Hw. apply list_elem_of_In in Hx.
    apply filter_In in Hx as [Hx _]. by apply list_elem_of_In.
Qed.

Lemma length_lower (s : string) : String.length (lower s) = String.length s.
Proof. induction s as [|c s IH]; cbn; [done|]. by rewrite IH. Qed.

Lemma contains_empty (sub : string) : sub ≠ "" → contains sub "" = false.
Proof. by destruct sub. Qed.

Lemma lower_nonempty (s : string) : s ≠ "" → lower s ≠ "".
Proof. by destruct s. Qed.

Lemma matched_loop_spec (company_name : string) (matched results : list hs_deal) :
  matched_loop company_name matched results
  = matched ++ List.filter (deal_matches company_name) results.
Proof.
  revert matched. induction results as [|d results IH]; intros matched; cbn.
  - by rewrite app_nil_r.
  - destruct (deal_matches company_name d); rewrite IH; [|done].
    by rewrite <- app_assoc.
Qed.

Lemma filter_sublist {A : Type} (f : A → bool) (l : list A) :
  List.filter f l `sublist_of` l.
Proof.
  induction l as [|x l IH]; cbn; [done|].
  destruct (f x); [by apply sublist_skip|by apply sublist_cons].
Qed.

(** X14.  [search_deals_for_company] returns deals of the answer of the search,
    in their order, each with a name that is not empty and that holds, in
    lower case, the name of the company or one of its search words; it
    returns nothing for a name of fewer than three characters. *)
Theorem search_deals_for_company_sound
    (search_deals : string → option (list hs_deal)) (company_name : string) :
  search_deals_for_company search_deals company_name
    `sublist_of` default [] (search_deals (search_term company_name))
  ∧ Forall (λ d, deal_matches company_name d = true
                 ∧ truthy (get (deal_properties d) "dealname") = true)
      (search_deals_for_company search_deals company_name)
  ∧ (String.length company_name < 3 →
     search_deals_for_company search_deals company_name = []).
Proof.
  unfold search_deals_for_company.
  destruct (negb (truthy (VStr company_name))
            || (String.length company_name <? 3)) eqn:Hshort.
  { split; [apply sublist_nil_l|]. split; [constructor|done]. }
  apply orb_false_iff in Hshort as [_ Hlen]. apply Nat.ltb_ge in Hlen.
  split; [|split; [|lia]].
  - destruct (search_deals _) as [results|]; [|done].
    rewrite matched_loop_spec. apply filter_sublist.
  - destruct (search_deals _) as [results|]; [|constructor].
    rewrite matched_loop_spec. cbn [app]. apply Forall_forall.
    intros d Hd. apply list_elem_of_In, filter_In in Hd as [_ Hd].
    split; [exact Hd|]. unfold deal_matches in Hd.
    destruct (truthy (get (deal_properties d) "dealname")) eqn:Hname; [done|].
    assert (Hempty : or_str (get (deal_properties d) "dealname") "" = "").
    { unfold or_str. rewrite Hname. by destruct (get _ _). }
    rewrite Hempty in Hd. cbn [lower] in Hd.
    rewrite contains_empty in Hd.
    + cbn [orb] in Hd. apply existsb_exists in Hd as (w & Hw & Hd).
      pose proof (search_words_shape company_name) as Hs.
      rewrite Forall_forall in Hs. apply list_elem_of_In, Hs in Hw as [Hw _].
      rewrite contains_empty in Hd; [done|by apply lower_nonempty].
    + apply lower_nonempty. destruct company_name; [cbn in Hlen; lia|done].
Qed.

Lemma found_deal_name (sd : hs_deal) :
  get (found_deal sd) "name" = get (deal_properties sd) "dealname".
Proof. reflexivity. Qed.

Lemma found_deal_id (sd : hs_deal) : found_deal sd !! "_id" = Some (deal_id sd).
Proof. reflexivity. Qed.

Lemma existsb_name (deals : list dict) (dn : value) :
  existsb (λ d : dict, bool_decide (get d "name" = dn)) deals = false
  ↔ dn ∉ (λ d : dict, get d "name") <$> deals.
Proof.
  induction deals as [|d deals IH]; cbn.
  - split; [intros _; apply not_elem_of_nil|done].
  - rewrite orb_false_iff, IH, not_elem_of_cons, bool_decide_eq_false.
    split; intros [? ?]; split; congruence.
Qed.

Lemma add_searched_spec (deals : list dict) (searched : list hs_deal) :
  ∃ new,
    add_searched deals searched = deals ++ new
    ∧ length new ≤ length searched
    ∧ NoDup ((λ d : dict, get d "name") <$> new)
    ∧ Forall (λ d : dict,
                is_Some (d !! "_id")
                ∧ truthy (get d "name") = true
                ∧ get d "name" ∉ (λ d : dict, get d "name") <$> deals) new.
Proof.
  revert deals. induction searched as [|sd searched IH]; intros deals.
  - exists []. rewrite app_nil_r. repeat split; constructor.
  - cbn [add_searched].
    destruct (truthy (get (deal_properties sd) "dealname")) eqn:Hname;
      cbn [andb].
    2:{ destruct (IH deals) as (new & -> & Hlen & Hnd & Hall).
        exists new. cbn [length]. split; [done|]. split; [lia|done]. }
    destruct (existsb _ deals) eqn:He; cbn [negb].
    { destruct (IH deals) as (new & -> & Hlen & Hnd & Hall).
      exists new. cbn [length]. split; [done|]. split; [lia|done]. }
    apply existsb_name in He.
    destruct (IH (deals ++ [found_deal sd])) as (new & -> & Hlen & Hnd & Hall).
    exists (found_deal sd :: new). rewrite <- app_assoc. cbn [app length].
    split; [done|]. split; [lia|].
    assert (Hnew : Forall (λ d : dict,
                             get d "name" ≠ get (deal_properties sd) "dealname"
                             ∧ get d "name" ∉ (λ d : dict, get d "name") <$> deals)
                     new).
    { eapply Forall_impl; [exact Hall|]. cbn. intros d (_ & _ & Hd).
      rewrite fmap_app, elem_of_app in Hd. cbn in Hd.
      rewrite list_elem_of_singleton in Hd. split; intros ?; apply Hd; auto. }
    split.
    + rewrite fmap_cons. constructor; [|done].
      intros (d & Hd & Hin)%list_elem_of_fmap.
      rewrite Forall_forall in Hnew. apply Hnew in Hin as [Hne _].
      by rewrite found_deal_name in Hd.
    + constructor.
      * rewrite found_deal_name. split; [by rewrite found_deal_id|done].
      * rewrite Forall_forall in Hall, Hnew |- *. intros d Hd.
        destruct (Hall d Hd) as (? & ? & _). destruct (Hnew d Hd) as [_ ?].
        done.
Qed.

Lemma company_deals_prefix (search_deals : string → option (list hs_deal))
    (company : string) (all_deals : list dict) :
  all_deals `prefix_of` company_deals search_deals company all_deals.
Proof.
  unfold company_deals. destruct (length all_deals <? 2); [|done].
  destruct (add_searched_spec all_deals
              (search_deals_for_company search_deals company))
    as (new & -> & _).
  by exists new.
Qed.

(** X15.  The deals of the journey stay in front of [deals] and are all of it
    when there are two or more.  The deals that the search adds have an id
    and a name that no deal of the journey and no other added deal has. *)
Theorem company_deals_extends
    (search_deals : string → option (list hs_deal))
    (company : string) (all_deals : list dict) :
  ∃ new,
    company_deals search_deals company all_deals = all_deals ++ new
    ∧ (2 ≤ length all_deals → new = [])
    ∧ NoDup ((λ d : dict, get d "name") <$> new)
    ∧ Forall (λ d : dict,
                is_Some (d !! "_id")
                ∧ truthy (get d "name") = true
                ∧ get d "name" ∉ (λ d : dict, get d "name") <$> all_deals) new.
Proof.
  unfold company_deals. destruct (length all_deals <? 2) eqn:Hlen.
  - apply Nat.ltb_lt in Hlen.
    destruct (add_searched_spec all_deals
                (search_deals_for_company search_deals company))
      as (new & Hnew & _ & Hnd & Hall).
    exists new. split; [done|]. split; [lia|done].
  - exists []. rewrite app_nil_r. repeat split; constructor.
Qed.

Lemma unique_loop_spec (seen_ids : gset value)
    (unique_deals ids : list (value * value)) :
  ∃ new,
    unique_loop seen_ids unique_deals ids = unique_deals ++ new
    ∧ new `sublist_of` ids
    ∧ NoDup (new.*2)
    ∧ (∀ p, p ∈ new → p.2 ∉ seen_ids)
    ∧ (∀ p, p ∈ ids → p.2 ∈ seen_ids ∨ p.2 ∈ new.*2).
Proof.
  revert seen_ids unique_deals.
  induction ids as [|[name did] ids IH]; intros seen_ids unique_deals.
  - exists []. rewrite app_nil_r. split; [done|]. split; [done|].
    split; [constructor|]. split; intros p Hp; by apply elem_of_nil in Hp.
  - cbn [unique_loop]. destruct (decide (did ∈ seen_ids)) as [Hin|Hin].
    + destruct (IH seen_ids unique_deals) as (new & -> & Hsub & Hnd & Hfresh & Hcov).
      exists new. split; [done|]. split; [by apply sublist_cons|].
      split; [done|]. split; [done|].
      intros p [->|Hp]%elem_of_cons; [by left|by apply Hcov].
    + destruct (IH ({[did]} ∪ seen_ids) (unique_deals ++ [(name, did)]))
        as (new & -> & Hsub & Hnd & Hfresh & Hcov).
      exists ((name, did) :: new). rewrite <- app_assoc.
      split; [done|]. split; [by apply sublist_skip|]. split; [|split].
      * cbn. constructor; [|done].
        intros (p & Hp & Hpin)%list_elem_of_fmap. apply Hfresh in Hpin.
        apply Hpin. rewrite <- Hp. apply elem_of_union_l.
        by apply elem_of_singleton.
      * intros p [->|Hp]%elem_of_cons; [done|].
        apply Hfresh in Hp. intros Hs. apply Hp. by apply elem_of_union_r.
      * intros p [->|Hp]%elem_of_cons.
        -- right. cbn. left.
        -- destruct (Hcov p Hp) as [Hs|Hs].
           ++ apply elem_of_union in Hs as [Hs|Hs]; [|by left].
              apply elem_of_singleton in Hs. right. cbn. rewrite Hs. left.
           ++ right. cbn. by right.
Qed.

Lemma unique_loop_acc (seen_ids : gset value)
    (unique_deals ids : list (value * value)) :
  unique_loop seen_ids unique_deals ids
  = unique_deals ++ unique_loop seen_ids [] ids.
Proof.
  revert seen_ids unique_deals.
  induction ids as [|[name did] ids IH]; intros seen_ids unique_deals;
    cbn [unique_loop].
  - by rewrite app_nil_r.
  - destruct (decide (did ∈ seen_ids)); [apply IH|].
    rewrite IH, (IH _ ([] ++ _)), <- app_assoc. reflexivity.
Qed.

Lemma unique_deals_distinct_parts (ids : list (value * value)) :
  unique_loop ∅ [] ids `sublist_of` ids
  ∧ NoDup ((unique_loop ∅ [] ids).*2)
  ∧ ∀ p, p ∈ ids → p.2 ∈ (unique_loop ∅ [] ids).*2.
Proof.
  destruct (unique_loop_spec ∅ [] ids) as (new & -> & Hsub & Hnd & _ & Hcov).
  cbn [app]. split; [done|]. split; [done|].
  intros p Hp. destruct (Hcov p Hp) as [Hs|Hs]; [|done].
  by apply elem_of_empty in Hs.
Qed.

Lemma unique_loop_app (seen_ids : gset value) (l1 l2 : list (value * value)) :
  unique_loop seen_ids [] (l1 ++ l2)
  = unique_loop seen_ids [] l1
    ++ unique_loop (list_to_set (l1.*2) ∪ seen_ids) [] l2.
Proof.
  revert seen_ids. induction l1 as [|[name did] l1 IH]; intros seen_ids.
  - cbn [app fmap list_fmap list_to_set unique_loop].
    by rewrite (left_id_L ∅ (∪)).
  - cbn [app unique_loop]. rewrite fmap_cons, list_to_set_cons. cbn [snd].
    destruct (decide (did ∈ seen_ids)) as [Hin|Hin].
    + rewrite IH. do 2 f_equal. apply set_eq. intros x.
      rewrite !elem_of_union, elem_of_singleton.
      split; [tauto|]. intros [[Hx|Hx]|Hx]; [|tauto..].
      right. by rewrite Hx.
    + rewrite unique_loop_acc, IH, (unique_loop_acc _ [_] l1).
      rewrite <- app_assoc. do 3 f_equal. apply set_eq. intros x.
      rewrite !elem_of_union, elem_of_singleton. tauto.
Qed.

(** Whether the pair after [before] is kept. *)
Lemma unique_loop_snoc (before : list (value * value)) (p : value * value) :
  unique_loop ∅ [] (before ++ [p])
  = unique_loop ∅ [] before ++ (if decide (p.2 ∈ before.*2) then [] else [p]).
Proof.
  rewrite unique_loop_app. f_equal. destruct p as [name did].
  cbn [unique_loop snd]. rewrite (right_id_L ∅ (∪)).
  destruct (decide (did ∈ before.*2)) as [Hin|Hin].
  - rewrite decide_True by (by apply elem_of_list_to_set). reflexivity.
  - rewrite decide_False by (by rewrite elem_of_list_to_set). reflexivity.
Qed.

(** X16.  [unique_deals] holds the first pair of every id of
    [deal_ids_to_check] and nothing else: a pair is kept exactly when no
    pair before it has its id.  So its ids are pairwise distinct, it is
    among the pairs to check, in their order, and every id to check is the
    id of one of its pairs. *)
Theorem unique_deals_distinct (ids : list (value * value)) :
  unique_loop ∅ [] ids `sublist_of` ids
  ∧ NoDup ((unique_loop ∅ [] ids).*2)
  ∧ (∀ p, p ∈ ids → p.2 ∈ (unique_loop ∅ [] ids).*2)
  ∧ unique_loop ∅ [] [] = []
  ∧ (∀ before p,
       unique_loop ∅ [] (before ++ [p])
       = unique_loop ∅ [] before
         ++ (if decide (p.2 ∈ before.*2) then [] else [p]))
  ∧ (∀ before p after,
       ids = before ++ p :: after →
       unique_loop ∅ [] ids
       = unique_loop ∅ [] before
         ++ (if decide (p.2 ∈ before.*2) then [] else [p])
         ++ unique_loop (list_to_set ((before ++ [p]).*2)) [] after).
Proof.
  destruct (unique_deals_distinct_parts ids) as (H1 & H2 & H3).
  split; [done|]. split; [done|]. split; [done|].
  split; [reflexivity|]. split; [exact unique_loop_snoc|].
  intros before p after ->.
  rewrite (cons_middle p before after), app_assoc, unique_loop_app.
  rewrite unique_loop_snoc, (right_id_L ∅ (∪)), <- app_assoc. reflexivity.
Qed.




Lemma deal_ids_cover (deals : list dict) (ids : list (value * value)) :
  deal_ids deals = Ok ids →
  ∀ d did, d ∈ deals → d !! "_id" = Some did → did ∈ ids.*2.
Proof.
  revert ids. induction deals as [|d' deals IH]; intros ids Hids d did Hd Hdid;
    [by apply elem_of_nil in Hd|].
  cbn [deal_ids] in Hids.
  destruct (d' !! "_id") as [did'|] eqn:Hid'.
  - destruct (getitem d' "name") as [name|e]; cbn in Hids; [|done].
    destruct (deal_ids deals) as [ids'|e]; cbn in Hids; [|done].
    injection Hids as <-. cbn.
    apply elem_of_cons in Hd as [->|Hd].
    + rewrite Hdid in Hid'. injection Hid' as ->. left.
    + right. by eapply IH.
  - apply elem_of_cons in Hd as [->|Hd]; [congruence|]. by eapply IH.
Qed.

(** X18.  When the deals of a company are found, those of its journey are
    in front of [deals], the pairs of [unique_deals] have pairwise distinct
    ids, and the id of every deal of [deals] that has one is the id of a
    pair of [unique_deals]. *)
Theorem find_deals_ids
    (search_deals search_names : string → option (list hs_deal))
    (company : string) (all_deals deals : list dict)
    (unique_deals : list (value * value)) :
  find_deals search_deals search_names company all_deals
  = Ok (deals, unique_deals) →
  all_deals `prefix_of` deals
  ∧ NoDup (unique_deals.*2)
  ∧ ∀ d did, d ∈ deals → d !! "_id" = Some did → did ∈ unique_deals.*2.
Proof.
  unfold find_deals.
  pose proof (company_deals_prefix search_deals company all_deals) as Hprefix.
  destruct (deal_ids _) as [ids|e] eqn:Hids; cbn [mbind result_bind]; [|done].
  pose proof (deal_ids_cover _ _ Hids) as Hcov.
  set (ids' := match ids with [] => _ | _ => _ end).
  destruct ids' as [ids2|e] eqn:Hids'; [|done].
  intros [= <- <-].
  destruct (unique_deals_distinct_parts ids2) as (_ & Hnd & Hall).
  split; [exact Hprefix|]. split; [exact Hnd|].
  intros d did Hd Hdid. specialize (Hcov d did Hd Hdid).
  destruct ids as [|p ids].
  - by apply elem_of_nil in Hcov.
  - subst ids'. injection Hids' as <-.
    apply list_elem_of_fmap in Hcov as (q & -> & Hq). by apply Hall.
Qed.

Lemma find_deals_ids_witness :
  ∃ deals unique_deals,
    find_deals (λ _, None) (λ _, None) "Acme"
      [ {[ "name" := VStr "Acme - Pilot"; "_id" := VStr "9" ]};
        {[ "name" := VStr "Acme - Renewal"; "_id" := VStr "9" ]} ]
    = Ok (deals, unique_deals)
    ∧ unique_deals = [(VStr "Acme - Pilot", VStr "9")]
    ∧ NoDup (unique_deals.*2).
Proof.
  eexists _, _. split; [vm_compute; reflexivity|]. split; [reflexivity|].
  apply (find_deals_ids (λ _, None) (λ _, None) "Acme"
           [ {[ "name" := VStr "Acme - Pilot"; "_id" := VStr "9" ]};
             {[ "name" := VStr "Acme - Renewal"; "_id" := VStr "9" ]} ]
           [ {[ "name" := VStr "Acme - Pilot"; "_id" := VStr "9" ]};
             {[ "name" := VStr "Acme - Renewal"; "_id" := VStr "9" ]} ]).
  vm_compute; reflexivity.
Defined.

(** ** The metrics of a cohort *)

Lemma increment_value_lookup (k k' : value) (counts : gmap value nat) :
  default 0 (increment_value k counts !! k')
  = default 0 (counts !! k') + (if decide (k = k') then 1 else 0).
Proof.
  unfold increment_value. destruct (decide (k = k')) as [->|Hne].
  - rewrite lookup_insert_eq. cbn. lia.
  - rewrite lookup_insert_ne by exact Hne. lia.
Qed.

Lemma count_types_lookup (tps : list touchpoint) (counts : gmap string nat)
    (k : string) :
  default 0 (count_types tps counts !! k)
  = default 0 (counts !! k) + length (filter (λ tp, type tp = k) tps).
Proof.
  revert counts. induction tps as [|tp tps IH]; intros counts; cbn [count_types].
  - cbn. lia.
  - rewrite IH, increment_lookup, filter_cons.
    destruct (decide (type tp = k)); cbn [length]; lia.
Qed.

Lemma tp_types_spec (k : string) (tps : list touchpoint) :
  k ∈ tp_types tps ↔ k ∈ type <$> tps.
Proof. unfold tp_types. apply elem_of_list_to_set. Qed.

Lemma bump_kind (P Q : Prop) `{Decision P, Decision Q} (n : nat) :
  (P ↔ Q) →
  (if bool_decide P then S n else n) = n + (if decide Q then 1 else 0).
Proof.
  intros HPQ. destruct (decide Q) as [HQ|HQ].
  - rewrite bool_decide_eq_true_2 by (apply HPQ, HQ). lia.
  - rewrite bool_decide_eq_false_2 by (intros HP; apply HQ, HPQ, HP). lia.
Qed.

Lemma filter_length_cons {A} (P : A → Prop) `{∀ x, Decision (P x)}
    (x : A) (l : list A) :
  length (filter P (x :: l))
  = (if decide (P x) then 1 else 0) + length (filter P l).
Proof. rewrite filter_cons. destruct (decide (P x)); reflexivity. Qed.

Section MetricsFacts.

Variable days_between : string → string → option Z.

Lemma kept_days_bound (d1 d2 : value) (d : Z) :
  d ∈ kept_days days_between d1 d2 →
  (0 ≤ d)%Z ∧ truthy d1 = true ∧ truthy d2 = true
  ∧ days_between (str d1) (str d2) = Some d.
Proof.
  unfold kept_days. destruct (truthy d1); cbn [andb].
  2:{ intros Hin. apply elem_of_nil in Hin. destruct Hin. }
  destruct (truthy d2).
  2:{ intros Hin. apply elem_of_nil in Hin. destruct Hin. }
  destruct (days_between (str d1) (str d2)) as [d'|].
  2:{ intros Hin. apply elem_of_nil in Hin. destruct Hin. }
  destruct (0 <=? d')%Z eqn:Hle.
  2:{ intros Hin. apply elem_of_nil in Hin. destruct Hin. }
  intros Hin. apply list_elem_of_singleton in Hin. subst d'.
  apply Z.leb_le in Hle. auto.
Qed.

Lemma kept_days_length (d1 d2 : value) :
  length (kept_days days_between d1 d2) ≤ 1.
Proof.
  unfold kept_days. destruct (truthy d1 && truthy d2); [|cbn; lia].
  destruct (days_between (str d1) (str d2)) as [d|]; [|cbn; lia].
  destruct (0 <=? d)%Z; cbn; lia.
Qed.

(** What the loop over the group adds to each entry of [metrics]. *)
Lemma group_loop_fields (group : list customer) (m : metrics) :
  let m' := foldl (add_customer days_between) m group in
  label m' = label m
  ∧ count m' = count m
  ∧ touchpoint_counts m'
    = touchpoint_counts m ++ ((λ c, length (touchpoints c)) <$> group)
  ∧ (∀ k, default 0 (touchpoint_type_counts m' !! k)
          = default 0 (touchpoint_type_counts m !! k)
            + length (filter (λ tp, type tp = k) (group ≫= touchpoints)))
  ∧ (∀ s, default 0 (source_counts m' !! s)
          = default 0 (source_counts m !! s)
            + length (filter (λ c, c_source c = s) group))
  ∧ has_email m' = has_email m + length (filter (reached_by "Email") group)
  ∧ has_call m' = has_call m + length (filter (reached_by "Call") group)
  ∧ has_meeting m'
    = has_meeting m + length (filter (reached_by "Meeting") group)
  ∧ has_note m' = has_note m + length (filter (reached_by "Note") group)
  ∧ has_form m'
    = has_form m
      + length (filter (λ c, reached_by "First Form Submission" c
                             ∨ reached_by "Form Submission" c) group)
  ∧ signup_days m'
    = signup_days m
      ++ (group ≫= λ c, kept_days days_between (first_touch c)
                          (cognito_signup c))
  ∧ close_days m'
    = close_days m
      ++ (group ≫= λ c, kept_days days_between (first_touch c)
                          (close_date (touchpoints c))).
Proof.
  revert m. induction group as [|c group IH]; intros m; cbn [foldl].
  - cbn. rewrite !app_nil_r.
    repeat split; try reflexivity; intros; lia.
  - specialize (IH (add_customer days_between m c)). cbn zeta in IH.
    destruct IH as (Hl & Hc & Htc & Hty & Hsrc & He & Hca & Hme & Hn & Hf
                    & Hs & Hcl).
    cbn zeta. rewrite Hl, Hc, Htc, He, Hca, Hme, Hn, Hf, Hs, Hcl.
    cbn [add_customer label count touchpoint_counts has_email has_call
         has_meeting has_note has_form signup_days close_days].
    rewrite !filter_length_cons.
    split; [reflexivity|]. split; [reflexivity|].
    split; [rewrite <- app_assoc; reflexivity|].
    split.
    { intros k. rewrite Hty. cbn [add_customer touchpoint_type_counts].
      rewrite count_types_lookup. cbn [mbind list_bind].
      change (touchpoints c ++ (group ≫= touchpoints))
        with (touchpoints c ++ (group ≫= touchpoints)).
      rewrite filter_app, List.length_app. lia. }
    split.
    { intros s. rewrite Hsrc. cbn [add_customer source_counts].
      rewrite increment_value_lookup, filter_length_cons. lia. }
    split.
    { rewrite (bump_kind _ (reached_by "Email" c)) by apply tp_types_spec.
      lia. }
    split.
    { rewrite (bump_kind _ (reached_by "Call" c)) by apply tp_types_spec.
      lia. }
    split.
    { rewrite (bump_kind _ (reached_by "Meeting" c)) by apply tp_types_spec.
      lia. }
    split.
    { rewrite (bump_kind _ (reached_by "Note" c)) by apply tp_types_spec.
      lia. }
    split.
    { rewrite <- bool_decide_or.
      rewrite (bump_kind _ (reached_by "First Form Submission" c
                            ∨ reached_by "Form Submission" c))
        by (rewrite !tp_types_spec; reflexivity).
      lia. }
    split; rewrite <- app_assoc; reflexivity.
Qed.

End MetricsFacts.

(** In a sorted list the entry at index [i] has at least [i + 1] entries
    that are not above it, and all the entries from [i] on not below it. *)
Lemma sorted_filter_le (s : list nat) (i n : nat) :
  StronglySorted le s → s !! i = Some n →
  S i ≤ length (filter (λ x, x ≤ n) s).
Proof.
  intros Hs. revert i. induction Hs as [|x s Hs IH Hx]; intros i Hi.
  - discriminate Hi.
  - rewrite filter_length_cons. destruct i as [|i]; cbn in Hi.
    + injection Hi as ->. rewrite decide_True by lia. lia.
    + specialize (IH i Hi).
      assert (x ≤ n) as Hle.
      { rewrite List.Forall_forall in Hx. apply Hx.
        apply list_elem_of_In. by eapply list_elem_of_lookup_2. }
      rewrite decide_True by exact Hle. lia.
Qed.

Lemma filter_all {A} (P : A → Prop) `{∀ x, Decision (P x)} (l : list A) :
  Forall P l → filter P l = l.
Proof.
  induction 1 as [|x l Hx Hl IH]; [reflexivity|].
  rewrite filter_cons, decide_True by exact Hx. by rewrite IH.
Qed.

Lemma sorted_filter_ge (s : list nat) (i n : nat) :
  StronglySorted le s → s !! i = Some n →
  length s - i ≤ length (filter (λ x, n ≤ x) s).
Proof.
  intros Hs. revert i. induction Hs as [|x s Hs IH Hx]; intros i Hi.
  - discriminate Hi.
  - destruct i as [|i]; cbn in Hi.
    + injection Hi as ->.
      rewrite (filter_all (λ x, n ≤ x) (n :: s)); [lia|].
      constructor; [lia|exact Hx].
    + specialize (IH i Hi). rewrite filter_length_cons. cbn [length]. lia.
Qed.

(** The median that the metrics report is an entry of the list, more than
    half of the entries are not above it and at least half not below it. *)
Lemma median_spec (counts : list nat) :
  counts ≠ [] →
  median counts ∈ counts
  ∧ length counts / 2 < length (filter (λ x, x ≤ median counts) counts)
  ∧ length counts - length counts / 2
    ≤ length (filter (λ x, median counts ≤ x) counts).
Proof.
  intros Hne. unfold median.
  pose proof (merge_sort_Permutation le counts) as Hperm.
  pose proof (StronglySorted_merge_sort le counts) as Hsorted.
  assert (length counts / 2 < length (merge_sort le counts)) as Hlt.
  { rewrite Hperm. destruct counts as [|x counts]; [done|].
    apply Nat.div_lt; cbn [length]; lia. }
  destruct (lookup_lt_is_Some_2 _ _ Hlt) as [n Hn]. rewrite Hn. cbn [default].
  split.
  { rewrite <- Hperm. by eapply list_elem_of_lookup_2. }
  split.
  - rewrite <- Hperm at 2. by apply sorted_filter_le.
  - rewrite <- Hperm at 1 3. by apply sorted_filter_ge.
Qed.

Section GroupMetrics.

Variable days_between : string → string → option Z.

Lemma group_metrics_fields (group : list customer) (lbl : string) :
  let m := compute_group_metrics days_between group lbl in
  label m = lbl
  ∧ count m = length group
  ∧ touchpoint_counts m = (λ c, length (touchpoints c)) <$> group
  ∧ (∀ k, default 0 (touchpoint_type_counts m !! k)
          = length (filter (λ tp, type tp = k) (group ≫= touchpoints)))
  ∧ (∀ s, default 0 (source_counts m !! s)
          = length (filter (λ c, c_source c = s) group))
  ∧ has_email m = length (filter (reached_by "Email") group)
  ∧ has_call m = length (filter (reached_by "Call") group)
  ∧ has_meeting m = length (filter (reached_by "Meeting") group)
  ∧ has_note m = length (filter (reached_by "Note") group)
  ∧ has_form m
    = length (filter (λ c, reached_by "First Form Submission" c
                           ∨ reached_by "Form Submission" c) group)
  ∧ signup_days m
    = (group ≫= λ c, kept_days days_between (first_touch c)
                       (cognito_signup c))
  ∧ close_days m
    = (group ≫= λ c, kept_days days_between (first_touch c)
                       (close_date (touchpoints c))).
Proof.
  destruct group as [|c group].
  { cbn. repeat split; reflexivity. }
  unfold compute_group_metrics.
  set (m0 := {| label := lbl; count := length (c :: group);
                avg_touchpoints := average [] 0;
                avg_days_to_signup := average [] 0;
                avg_days_to_close := average [] 0;
                touchpoint_type_counts := ∅; source_counts := ∅;
                has_email := 0; has_call := 0; has_meeting := 0;
                has_note := 0; has_form := 0; signup_days := [];
                close_days := []; touchpoint_counts := [];
                median_touchpoints := None |}).
  pose proof (group_loop_fields days_between (c :: group) m0) as H.
  cbn zeta in H.
  destruct H as (Hl & Hc & Htc & Hty & Hsrc & He & Hca & Hme & Hn & Hf
                 & Hs & Hcl).
  cbn zeta.
  cbn [label count touchpoint_counts touchpoint_type_counts source_counts
       has_email has_call has_meeting has_note has_form signup_days
       close_days].
  rewrite Hl, Hc, Htc, He, Hca, Hme, Hn, Hf, Hs, Hcl.
  repeat split; try reflexivity.
  - intros k. rewrite Hty. reflexivity.
  - intros s. rewrite Hsrc. reflexivity.
Qed.

(** X19.  The metrics of a cohort count what they name: [count] is the
    size of the cohort, [touchpoint_counts] lists the number of
    touchpoints of each customer in the order of the cohort, the table
    [touchpoint_type_counts] holds for every kind the number of touchpoints
    of that kind in the whole cohort, and [source_counts] for every source
    the number of customers with it; a kind or source that does not occur
    is not counted. *)
Theorem group_metrics_tallies (group : list customer) (lbl : string) :
  let m := compute_group_metrics days_between group lbl in
  count m = length group
  ∧ touchpoint_counts m = (λ c, length (touchpoints c)) <$> group
  ∧ (∀ k, default 0 (touchpoint_type_counts m !! k)
          = length (filter (λ tp, type tp = k) (group ≫= touchpoints)))
  ∧ (∀ s, default 0 (source_counts m !! s)
          = length (filter (λ c, c_source c = s) group)).
Proof.
  pose proof (group_metrics_fields group lbl) as H. cbn zeta in H.
  destruct H as (_ & Hc & Htc & Hty & Hsrc & _). cbn zeta. auto.
Qed.

(** X20.  The entries [has_email], [has_call], [has_meeting], [has_note]
    and [has_form] count customers, not touchpoints: each is the number of
    customers of the cohort with at least one touchpoint of the kind (for
    the forms, of one of the two kinds of form submission), so none is
    above [count]. *)
Theorem group_metrics_reach (group : list customer) (lbl : string) :
  let m := compute_group_metrics days_between group lbl in
  (has_email m = length (filter (reached_by "Email") group)
   ∧ has_call m = length (filter (reached_by "Call") group)
   ∧ has_meeting m = length (filter (reached_by "Meeting") group)
   ∧ has_note m = length (filter (reached_by "Note") group)
   ∧ has_form m
     = length (filter (λ c, reached_by "First Form Submission" c
                            ∨ reached_by "Form Submission" c) group))
  ∧ has_email m ≤ count m ∧ has_call m ≤ count m
  ∧ has_meeting m ≤ count m ∧ has_note m ≤ count m
  ∧ has_form m ≤ count m.
Proof.
  pose proof (group_metrics_fields group lbl) as H. cbn zeta in H.
  destruct H as (_ & Hc & _ & _ & _ & He & Hca & Hme & Hn & Hf & _).
  cbn zeta. rewrite He, Hca, Hme, Hn, Hf, Hc.
  split; [auto|].
  repeat split; apply length_filter.
Qed.





(** X22.  The metrics of a cohort have no median exactly when the cohort
    is empty, and then their count is zero, so the count tells whether
    there is a median to read.  The median of a cohort that is not empty
    is the number of touchpoints of one of its customers; more than half
    of the customers have at most that many touchpoints and at least half
    have at least that many. *)
Theorem group_metrics_median (group : list customer) (lbl : string) :
  let m := compute_group_metrics days_between group lbl in
  let counts := (λ c, length (touchpoints c)) <$> group in
  match median_touchpoints m with
  | None => group = [] ∧ count m = 0
  | Some n =>
      group ≠ [] ∧ count m ≠ 0
      ∧ n ∈ counts
      ∧ length group / 2 < length (filter (λ x, x ≤ n) counts)
      ∧ length group - length group / 2
        ≤ length (filter (λ x, n ≤ x) counts)
  end.
Proof.
  pose proof (group_metrics_fields group lbl) as H. cbn zeta in H.
  destruct H as (_ & Hc & Htc & _). cbn zeta.
  destruct group as [|c group]; [by split|].
  split; [done|]. split; [by rewrite Hc|].
  unfold compute_group_metrics in *.
  cbn [median_touchpoints touchpoint_counts] in *. rewrite Htc.
  pose proof (median_spec ((λ c, length (touchpoints c)) <$> c :: group))
    as Hm.
  rewrite length_fmap in Hm. apply Hm. done.
Qed.

End GroupMetrics.

Lemma first_date_find (test : touchpoint → bool) (tps : list touchpoint) :
  first_date test tps = from_option date VNone (List.find test tps).
Proof.
  induction tps as [|tp tps' IH]; [reflexivity|].
  cbn [first_date List.find]. destruct (test tp); [reflexivity|exact IH].
Qed.

Lemma first_date_source (test : touchpoint → bool) (tps : list touchpoint) :
  truthy (first_date test tps) = true →
  ∃ tp, tp ∈ tps ∧ test tp = true ∧ date tp = first_date test tps.
Proof.
  induction tps as [|tp tps' IH]; cbn [first_date]; [discriminate|].
  destruct (test tp) eqn:Htest.
  - intros _. exists tp. split; [left|]. by split.
  - intros Hset. destruct (IH Hset) as (tp' & Hin & Ht & Hd).
    exists tp'. split; [by right|]. by split.
Qed.

(** X23.  The close date of a customer is the date of a touchpoint of the
    kind "Deal Closed" whenever it is set.  It is the date of the first
    such touchpoint whose detail holds "Closed Won" when that date is set,
    also when a deal was closed otherwise before; without such a
    touchpoint, or when the date of the first one is not set, it is the
    date of the first touchpoint of the kind "Deal Closed" at all. *)
Theorem close_date_source (tps : list touchpoint) :
  let closed := λ tp, String.eqb (type tp) "Deal Closed" in
  let won := λ tp, closed tp && contains "Closed Won" (detail tp) in
  (truthy (close_date tps) = true →
   ∃ tp, tp ∈ tps ∧ type tp = "Deal Closed" ∧ date tp = close_date tps)
  ∧ close_date tps
    = match List.find won tps with
      | Some tp =>
          if truthy (date tp) then date tp
          else from_option date VNone (List.find closed tps)
      | None => from_option date VNone (List.find closed tps)
      end.
Proof.
  cbn zeta. split.
  - unfold close_date.
    destruct (truthy (first_date (λ tp, _ && _) tps)) eqn:Hwon.
    + intros _. destruct (first_date_source _ _ Hwon) as (tp & Hin & Ht & Hd).
      apply andb_true_iff in Ht as [Ht _].
      exists tp. split; [exact Hin|]. split; [by apply String.eqb_eq|exact Hd].
    + intros Hset. destruct (first_date_source _ _ Hset) as (tp & Hin & Ht & Hd).
      exists tp. split; [exact Hin|]. split; [by apply String.eqb_eq|exact Hd].
  - unfold close_date. rewrite !first_date_find.
    destruct (List.find (λ tp, _ && _) tps) as [tp|]; reflexivity.
Qed.

(** ** The table of the channels *)

Lemma channel_total_increment (k : string) (outcomes : gmap string nat) :
  channel_total (increment k outcomes) = S (channel_total outcomes).
Proof.
  unfold channel_total, increment.
  destruct (outcomes !! k) as [n|] eqn:Hk; cbn [default].
  - rewrite <- insert_delete_eq.
    rewrite map_fold_insert_L; [|intros; lia|apply lookup_delete_eq].
    rewrite (map_fold_delete_L _ 0 k n outcomes);
      [unfold id; lia|intros; lia|exact Hk].
  - rewrite map_fold_insert_L; [lia|intros; lia|exact Hk].
Qed.

Lemma channel_loop_lookup (all : list customer)
    (table : gmap value (gmap string nat)) (src : value) :
  (∀ outcome,
     default 0 (default ∅ (channel_loop all table !! src) !! outcome)
     = default 0 (default ∅ (table !! src) !! outcome)
       + length (filter (λ c, c_source c = src ∧ channel_outcome c = outcome)
                   all))
  ∧ channel_total (default ∅ (channel_loop all table !! src))
    = channel_total (default ∅ (table !! src))
      + length (filter (λ c, c_source c = src) all)
  ∧ (is_Some (channel_loop all table !! src)
     ↔ is_Some (table !! src) ∨ ∃ c, c ∈ all ∧ c_source c = src).
Proof.
  revert table. induction all as [|c all IH]; intros table;
    cbn [channel_loop].
  - split; [intros outcome; cbn; lia|]. split; [cbn; lia|].
    split; [by left|]. intros [H|(c & Hc & _)]; [exact H|].
    by apply elem_of_nil in Hc.
  - destruct (IH (<[c_source c :=
                     increment (or_str (deal_stage c) "No Deal")
                       (default ∅ (table !! c_source c))]> table))
      as (IH1 & IH2 & IH3).
    split; [|split].
    + intros outcome. rewrite IH1, filter_length_cons.
      destruct (decide (c_source c = src)) as [->|Hne].
      * rewrite lookup_insert_eq. unfold default at 2. cbn [from_option id].
        rewrite increment_lookup. unfold channel_outcome.
        destruct (decide (or_str (deal_stage c) "No Deal" = outcome)).
        -- rewrite decide_True by done. lia.
        -- rewrite decide_False by (intros [_ ?]; done). lia.
      * rewrite lookup_insert_ne by exact Hne.
        rewrite decide_False by (intros [? _]; done). lia.
    + rewrite IH2, filter_length_cons.
      destruct (decide (c_source c = src)) as [->|Hne].
      * rewrite lookup_insert_eq. unfold default at 1. cbn [from_option id].
        rewrite channel_total_increment. lia.
      * rewrite lookup_insert_ne by exact Hne. lia.
    + rewrite IH3. destruct (decide (c_source c = src)) as [Heq|Hne].
      * rewrite <- Heq, lookup_insert_eq. split.
        -- intros _. right. exists c. split; [left|reflexivity].
        -- intros _. left. by eexists.
      * rewrite lookup_insert_ne by exact Hne. split.
        -- intros [H|(c' & Hc' & Hs)]; [by left|].
           right. exists c'. split; [by right|exact Hs].
        -- intros [H|(c' & Hc' & Hs)]; [by left|].
           apply elem_of_cons in Hc' as [->|Hc']; [done|].
           right. by exists c'.
Qed.

(** X24.  The table of the channels holds a row for exactly the sources
    of the customers.  In the row of a source every outcome is counted as
    often as customers of that source have it, a customer without a deal
    stage under "No Deal"; the total of the row is the number of customers
    of the source, so it is never zero, and the won deals of the row are
    at most its total: the win rate is a rate, and its division is
    defined for every row. *)
Theorem channel_outcomes_counted (all : list customer) (src : value) :
  let table := channel_loop all ∅ in
  (is_Some (table !! src) ↔ ∃ c, c ∈ all ∧ c_source c = src)
  ∧ (∀ outcome,
       default 0 (default ∅ (table !! src) !! outcome)
       = length (filter (λ c, c_source c = src ∧ channel_outcome c = outcome)
                   all))
  ∧ ∀ outcomes, table !! src = Some outcomes →
      channel_total outcomes = length (filter (λ c, c_source c = src) all)
      ∧ 0 < channel_total outcomes
      ∧ channel_won outcomes ≤ channel_total outcomes.
Proof.
  cbn zeta. destruct (channel_loop_lookup all ∅ src) as (H1 & H2 & H3).
  rewrite lookup_empty in H1, H2, H3. cbn [default] in H1, H2.
  split.
  { rewrite H3. split; [|by right].
    intros [[x Hx]|H]; [discriminate Hx|exact H]. }
  split.
  { intros outcome. rewrite H1, lookup_empty. reflexivity. }
  intros outcomes Hsrc. rewrite Hsrc in H1, H2.
  change (default ∅ (Some outcomes)) with outcomes in H1, H2.
  assert (channel_total outcomes = length (filter (λ c, c_source c = src) all))
    as Htotal.
  { rewrite H2. reflexivity. }
  split; [exact Htotal|]. split.
  - rewrite Htotal. destruct (proj1 H3) as [[x Hx]|(c & Hc & Hs)];
      [by eexists|discriminate Hx|].
    assert (c ∈ filter (λ c, c_source c = src) all) as Hin.
    { apply list_elem_of_filter. by split. }
    destruct (filter _ all); [by apply elem_of_nil in Hin|cbn; lia].
  - unfold channel_won. rewrite H1, lookup_empty, Htotal. cbn [default].
    clear. induction all as [|c all IH]; [reflexivity|].
    rewrite !filter_length_cons.
    destruct (decide (c_source c = src ∧ _)) as [[Hs _]|_].
    + rewrite decide_True by exact Hs. lia.
    + destruct (decide (c_source c = src)); lia.
Qed.

(** ** The speed of signup *)

Section SpeedFacts.

Variable days_between : string → string → option Z.

Lemma speed_loop_lookup (all : list customer)
    (buckets : gmap string (list customer)) (k : string) :
  default [] (speed_loop days_between all buckets !! k)
  = default [] (buckets !! k)
    ++ filter (λ c, signup_bucket days_between c = Some k) all.
Proof.
  revert buckets. induction all as [|c all IH]; intros buckets;
    cbn [speed_loop].
  - by rewrite app_nil_r.
  - rewrite filter_cons.
    assert (signup_bucket days_between c
            = speed_bucket
              <$> head (kept_days days_between (first_touch c)
                          (cognito_signup c))) as Hc by reflexivity.
    destruct (kept_days days_between (first_touch c) (cognito_signup c))
      as [|days rest]; cbn [head fmap option_fmap option_map] in Hc.
    + rewrite decide_False by (rewrite Hc; discriminate). apply IH.
    + rewrite IH. destruct (decide (speed_bucket days = k)) as [<-|Hne].
      * rewrite lookup_insert_eq, decide_True by exact Hc.
        change (default [] (Some ?l)) with l. by rewrite <- app_assoc.
      * rewrite lookup_insert_ne by exact Hne.
        rewrite decide_False by (rewrite Hc; congruence). reflexivity.
Qed.

Lemma speed_bucket_range (days : Z) :
  (0 ≤ days)%Z →
  (speed_bucket days = "Same day (0)" ∧ days = 0%Z)
  ∨ (speed_bucket days = "1-7 days" ∧ (1 ≤ days ≤ 7)%Z)
  ∨ (speed_bucket days = "8-30 days" ∧ (8 ≤ days ≤ 30)%Z)
  ∨ (speed_bucket days = "31-90 days" ∧ (31 ≤ days ≤ 90)%Z)
  ∨ (speed_bucket days = "90+ days" ∧ (90 < days)%Z).
Proof.
  intros Hdays. unfold speed_bucket.
  destruct (days =? 0)%Z eqn:H0; [apply Z.eqb_eq in H0; by left|].
  apply Z.eqb_neq in H0. right.
  destruct (days <=? 7)%Z eqn:H7; [apply Z.leb_le in H7; left; split; [done|lia]|].
  apply Z.leb_gt in H7. right.
  destruct (days <=? 30)%Z eqn:H30;
    [apply Z.leb_le in H30; left; split; [done|lia]|].
  apply Z.leb_gt in H30. right.
  destruct (days <=? 90)%Z eqn:H90;
    [apply Z.leb_le in H90; left; split; [done|lia]|].
  apply Z.leb_gt in H90. right. split; [done|lia].
Qed.

Lemma bucket_count (c : customer) :
  let one k :=
    if decide (signup_bucket days_between c = Some k) then 1 else 0 in
  one "Same day (0)" + one "1-7 days" + one "8-30 days" + one "31-90 days"
  + one "90+ days"
  = length (kept_days days_between (first_touch c) (cognito_signup c)).
Proof.
  cbn zeta.
  assert (signup_bucket days_between c
          = speed_bucket
            <$> head (kept_days days_between (first_touch c)
                        (cognito_signup c))) as Hc by reflexivity.
  pose proof (kept_days_length days_between (first_touch c)
                (cognito_signup c)) as Hlen.
  destruct (kept_days days_between (first_touch c) (cognito_signup c))
    as [|days [|days' rest]]; cbn [head fmap option_fmap option_map] in Hc;
    rewrite Hc; [reflexivity| |cbn [length] in Hlen; lia].
  unfold speed_bucket.
  destruct (days =? 0)%Z; [reflexivity|].
  destruct (days <=? 7)%Z; [reflexivity|].
  destruct (days <=? 30)%Z; [reflexivity|].
  destruct (days <=? 90)%Z; reflexivity.
Qed.

(** X25.  Each of the five speed buckets lists, in the order of the
    customers, those customers whose first touch and signup are both set
    and whose days from the one to the other are defined, not negative
    and in the range of the bucket: 0, 1 to 7, 8 to 30, 31 to 90, above 90.
    The ranges do not overlap and leave no day out, so the sizes of the
    five buckets add up to the number of days to signup that the metrics
    of all customers keep. *)
Theorem speed_buckets_partition (all : list customer) (lbl : string) :
  let buckets := speed_buckets days_between all in
  let size k := length (default [] (buckets !! k)) in
  (∀ k, default [] (buckets !! k)
        = filter (λ c, signup_bucket days_between c = Some k) all)
  ∧ (∀ c k, signup_bucket days_between c = Some k →
       ∃ days,
         truthy (first_touch c) = true ∧ truthy (cognito_signup c) = true
         ∧ days_between (str (first_touch c)) (str (cognito_signup c))
           = Some days
         ∧ ((k = "Same day (0)" ∧ days = 0%Z)
            ∨ (k = "1-7 days" ∧ (1 ≤ days ≤ 7)%Z)
            ∨ (k = "8-30 days" ∧ (8 ≤ days ≤ 30)%Z)
            ∨ (k = "31-90 days" ∧ (31 ≤ days ≤ 90)%Z)
            ∨ (k = "90+ days" ∧ (90 < days)%Z)))
  ∧ size "Same day (0)" + size "1-7 days" + size "8-30 days"
    + size "31-90 days" + size "90+ days"
    = length (signup_days (compute_group_metrics days_between all lbl)).
Proof.
  cbn zeta.
  assert (∀ k, k ∈ ["Same day (0)"; "1-7 days"; "8-30 days"; "31-90 days";
                    "90+ days"] →
               default [] (speed_buckets days_between all !! k)
               = filter (λ c, signup_bucket days_between c = Some k) all)
    as Hknown.
  { intros k Hk. unfold speed_buckets. rewrite speed_loop_lookup.
    repeat (apply elem_of_cons in Hk as [->|Hk]; [reflexivity|]).
    by apply elem_of_nil in Hk. }
  assert (∀ c k, signup_bucket days_between c = Some k →
       ∃ days,
         truthy (first_touch c) = true ∧ truthy (cognito_signup c) = true
         ∧ days_between (str (first_touch c)) (str (cognito_signup c))
           = Some days
         ∧ ((k = "Same day (0)" ∧ days = 0%Z)
            ∨ (k = "1-7 days" ∧ (1 ≤ days ≤ 7)%Z)
            ∨ (k = "8-30 days" ∧ (8 ≤ days ≤ 30)%Z)
            ∨ (k = "31-90 days" ∧ (31 ≤ days ≤ 90)%Z)
            ∨ (k = "90+ days" ∧ (90 < days)%Z))) as Hrange.
  { intros c k. unfold signup_bucket.
    destruct (kept_days days_between (first_touch c) (cognito_signup c))
      as [|days rest] eqn:Hkept; cbn [head fmap option_fmap option_map];
      [discriminate|].
    intros [= <-].
    assert (days ∈ kept_days days_between (first_touch c) (cognito_signup c))
      as Hin by (rewrite Hkept; left).
    apply kept_days_bound in Hin as (Hpos & Hft & Hcs & Hdb).
    exists days. split; [exact Hft|]. split; [exact Hcs|].
    split; [exact Hdb|]. by apply speed_bucket_range. }
  split.
  { intros k.
    destruct (decide (k ∈ ["Same day (0)"; "1-7 days"; "8-30 days";
                           "31-90 days"; "90+ days"])) as [Hk|Hk];
      [by apply Hknown|].
    unfold speed_buckets. rewrite speed_loop_lookup.
    repeat (apply not_elem_of_cons in Hk as [? Hk]).
    rewrite !lookup_insert_ne by congruence.
    rewrite lookup_singleton_ne by congruence.
    reflexivity. }
  split; [exact Hrange|].
  rewrite !Hknown by (repeat (first [by left|right])).
  pose proof (group_metrics_fields days_between all lbl) as H.
  cbn zeta in H.
  destruct H as (_ & _ & _ & _ & _ & _ & _ & _ & _ & _ & Hs & _).
  rewrite Hs. clear.
  induction all as [|c all IH]; [reflexivity|].
  rewrite !filter_length_cons. cbn [mbind list_bind].
  change (list_bind _ _ ?f ?l) with (l ≫= f) in *.
  rewrite List.length_app, <- IH.
  pose proof (bucket_count c) as Hc. cbn zeta in Hc. lia.
Qed.

End SpeedFacts.

(** ** The groups of the gaps and the cohorts *)

Lemma lfilter_all {A} (f : A → bool) (l : list A) :
  (∀ x, x ∈ l → f x = true) → List.filter f l = l.
Proof.
  induction l as [|x l IH]; intros Hf; [reflexivity|]. cbn [List.filter].
  rewrite (Hf x) by left. rewrite IH; [reflexivity|].
  intros y Hy. apply Hf. by right.
Qed.

Lemma lfilter_none {A} (f : A → bool) (l : list A) :
  (∀ x, x ∈ l → f x = false) → List.filter f l = [].
Proof.
  induction l as [|x l IH]; intros Hf; [reflexivity|]. cbn [List.filter].
  rewrite (Hf x) by left. apply IH. intros y Hy. apply Hf. by right.
Qed.

Lemma stalled_tests (v : value) :
  value_in v ["Demo Scheduled"; "Demo Follow-Up"; "On Hold"; "Free Trial";
              "Payment Link Sent"]
  = value_in v ["Demo Scheduled"; "Demo Follow-Up"; "Payment Link Sent";
                "On Hold"; "Free Trial"; "Freemium"; "Interested in a pilot"]
    && negb (value_in v ["Freemium"; "Interested in a pilot"]).
Proof.
  destruct v as [|s]; [reflexivity|].
  unfold value_in. cbn [existsb].
  repeat match goal with
  | |- context [bool_decide (VStr s = VStr ?x)] =>
      destruct (decide (s = x)) as [->|?];
        [vm_compute; reflexivity
        |rewrite (bool_decide_eq_false_2 (VStr s = VStr x)) by congruence]
  end.
  reflexivity.
Qed.

Lemma no_deal_tests (v : value) :
  bool_decide (v = VNone) || value_in v ["No Deal"; ""]
  = negb (truthy v) || bool_decide (v = VStr "No Deal").
Proof.
  destruct v as [|s]; [reflexivity|].
  unfold value_in. cbn [existsb].
  destruct (decide (s = "No Deal")) as [->|?]; [vm_compute; reflexivity|].
  destruct (decide (s = "")) as [->|?]; [vm_compute; reflexivity|].
  rewrite !(bool_decide_eq_false_2 (VStr s = _)) by congruence.
  destruct s; [done|reflexivity].
Qed.

Section GapGroups.

Variable days_between : string → string → option Z.

Lemma customer_gaps_outcome (c : customer) (g : touchpoint_gap) :
  g ∈ customer_gaps days_between c → outcome g = deal_stage c.
Proof.
  unfold customer_gaps. rewrite gap_loop_start.
  intros Hg. apply list_elem_of_In, in_flat_map in Hg as (p & _ & Hg).
  unfold gap_between in Hg.
  destruct (days_between _ _) as [gap|]; [|destruct Hg].
  destruct (0 <? gap)%Z; [|destruct Hg].
  destruct Hg as [<-|[]]. reflexivity.
Qed.

Lemma gaps_of_cohort (tg : touchpoint_gap → bool) (tc : customer → bool)
    (all : list customer) :
  (∀ c g, g ∈ customer_gaps days_between c → tg g = tc c) →
  gap_days <$> List.filter tg (flat_map (customer_gaps days_between) all)
  = cohort_gaps days_between (filter tc all).
Proof.
  intros Htest. unfold cohort_gaps.
  induction all as [|c all IH]; [reflexivity|].
  cbn [flat_map]. rewrite List.filter_app, fmap_app, IH, filter_cons.
  destruct (tc c) eqn:Hc.
  - rewrite decide_True by done. cbn [mbind list_bind].
    rewrite lfilter_all; [reflexivity|].
    intros g Hg. by rewrite (Htest c g Hg).
  - rewrite decide_False by (intros H; exact H).
    rewrite lfilter_none; [reflexivity|].
    intros g Hg. by rewrite (Htest c g Hg).
Qed.

(** X26.  The gaps that the analysis records are grouped by the deal
    stage of their customer.  The groups "Closed Won", "Churned" and
    "No Deal" hold exactly the gaps of the customers of the cohorts of
    these names, in the order of the customers.  The group "Stalled" holds
    the gaps of the stalled cohort without those of its customers in the
    stages "Freemium" and "Interested in a pilot", which no group of gaps
    takes up. *)
Theorem gap_groups_cohorts (all : list customer) (st : falloff) :
  analyze days_between
    {| stage_sequence_counts := ∅; last_stage_before_stall := ∅;
       touchpoint_gaps := [] |} all = Ok st →
  won_gaps (touchpoint_gaps st) = cohort_gaps days_between (closed_won all)
  ∧ churn_gaps (touchpoint_gaps st) = cohort_gaps days_between (churned all)
  ∧ nodeal_gaps (touchpoint_gaps st) = cohort_gaps days_between (no_deal all)
  ∧ stall_gaps (touchpoint_gaps st)
    = cohort_gaps days_between
        (filter (λ c, negb (value_in (deal_stage c)
                              ["Freemium"; "Interested in a pilot"]))
           (stalled all)).
Proof.
  intros Hst. apply analyze_gaps in Hst. cbn [touchpoint_gaps app] in Hst.
  rewrite Hst. unfold won_gaps, churn_gaps, nodeal_gaps, stall_gaps.
  split; [|split; [|split]].
  - apply gaps_of_cohort. intros c g Hg.
    unfold gap_won, in_closed_won. by rewrite (customer_gaps_outcome c g Hg).
  - apply gaps_of_cohort. intros c g Hg.
    unfold gap_churned, in_churned. by rewrite (customer_gaps_outcome c g Hg).
  - apply gaps_of_cohort. intros c g Hg.
    unfold gap_no_deal, in_no_deal. rewrite (customer_gaps_outcome c g Hg).
    apply no_deal_tests.
  - unfold stalled. rewrite list_filter_filter.
    rewrite (gaps_of_cohort gap_stalled
               (λ c, in_stalled c
                     && negb (value_in (deal_stage c)
                                ["Freemium"; "Interested in a pilot"]))).
    + f_equal. apply list_filter_iff. intros c.
      rewrite andb_True. tauto.
    + intros c g Hg. unfold gap_stalled, in_stalled.
      rewrite (customer_gaps_outcome c g Hg). apply stalled_tests.
Qed.

End GapGroups.

Lemma gap_groups_cohorts_witness :
  ∃ st,
    analyze days_between_acme
      {| stage_sequence_counts := ∅; last_stage_before_stall := ∅;
         touchpoint_gaps := [] |} [customer_acme] = Ok st
    ∧ won_gaps (touchpoint_gaps st) = [56%Z; 6%Z]
    ∧ won_gaps (touchpoint_gaps st)
      = cohort_gaps days_between_acme (closed_won [customer_acme]).
Proof.
  eexists. split; [vm_compute; reflexivity|].
  split; [vm_compute; reflexivity|].
  apply (gap_groups_cohorts days_between_acme [customer_acme]).
  vm_compute; reflexivity.
Defined.

(** ** The largest gaps *)

Lemma filter_nothing {A} (P : A → Prop) `{∀ x, Decision (P x)} (l : list A) :
  (∀ x, ¬ P x) → filter P l = [].
Proof.
  intros HP. induction l as [|x l IH]; [reflexivity|].
  rewrite filter_cons, decide_False by apply HP. exact IH.
Qed.

Lemma sorted_impl {A} (R1 R2 : relation A) (l : list A) :
  (∀ a b, R1 a b → R2 a b) → StronglySorted R1 l → StronglySorted R2 l.
Proof.
  intros HR. induction 1 as [|x l Hl IH Hx]; constructor; [exact IH|].
  eapply Forall_impl; [exact Hx|]. intros y. apply HR.
Qed.

Section SortNumbersFacts.

Context {A : Type} (key : A → Z).

Lemma insert_by_number_perm (x : A) (l : list A) :
  insert_by_number key x l ≡ₚ x :: l.
Proof.
  induction l as [|y l IH]; cbn [insert_by_number]; [reflexivity|].
  destruct (key x <=? key y)%Z; [reflexivity|].
  rewrite IH. apply Permutation_swap.
Qed.

Lemma sorted_by_number_perm (l : list A) : sorted_by_number key l ≡ₚ l.
Proof.
  induction l as [|x l IH]; cbn [sorted_by_number foldr]; [reflexivity|].
  rewrite insert_by_number_perm. by f_equiv.
Qed.

Lemma insert_by_number_sorted (x : A) (l : list A) :
  StronglySorted (λ a b, (key a ≤ key b)%Z) l →
  StronglySorted (λ a b, (key a ≤ key b)%Z) (insert_by_number key x l).
Proof.
  induction 1 as [|y l Hl IH Hy]; cbn [insert_by_number].
  - repeat constructor.
  - destruct (key x <=? key y)%Z eqn:E.
    + apply Z.leb_le in E. constructor; [by constructor|].
      constructor; [exact E|].
      eapply Forall_impl; [exact Hy|]. intros z Hz. cbn beta in *. lia.
    + apply Z.leb_gt in E. constructor; [exact IH|].
      rewrite insert_by_number_perm. constructor; [lia|exact Hy].
Qed.

Lemma sorted_by_number_sorted (l : list A) :
  StronglySorted (λ a b, (key a ≤ key b)%Z) (sorted_by_number key l).
Proof.
  induction l as [|x l IH]; cbn [sorted_by_number foldr]; [constructor|].
  by apply insert_by_number_sorted.
Qed.

(** The sort keeps the entries of equal key in their order. *)
Lemma insert_by_number_stable (k : Z) (x : A) (l : list A) :
  StronglySorted (λ a b, (key a ≤ key b)%Z) l →
  filter (λ a, key a = k) (insert_by_number key x l)
  = filter (λ a, key a = k) (x :: l).
Proof.
  induction 1 as [|y l Hl IH Hy]; cbn [insert_by_number]; [reflexivity|].
  destruct (key x <=? key y)%Z eqn:E; [reflexivity|].
  apply Z.leb_gt in E.
  rewrite (filter_cons _ y), IH.
  rewrite (filter_cons _ x (y :: l)), (filter_cons _ y l), (filter_cons _ x l).
  destruct (decide (key x = k)), (decide (key y = k));
    first [reflexivity|exfalso; lia].
Qed.

Lemma sorted_by_number_stable (k : Z) (l : list A) :
  filter (λ a, key a = k) (sorted_by_number key l)
  = filter (λ a, key a = k) l.
Proof.
  induction l as [|x l IH]; cbn [sorted_by_number foldr]; [reflexivity|].
  rewrite insert_by_number_stable by apply sorted_by_number_sorted.
  rewrite !(filter_cons _ x). fold (sorted_by_number key l).
  by rewrite IH.
Qed.

End SortNumbersFacts.

(** X27.  The list of the largest gaps holds at most twenty of the
    recorded gaps, each of more than thirty days, the longest first and
    gaps of equal length in the order in which they were recorded.  A gap
    of more than thirty days that is left out is not longer than any gap
    in the list, and nothing is left out when there are at most twenty
    such gaps. *)
Theorem big_gaps_largest (gaps : list touchpoint_gap) :
  let over_30 := List.filter (λ g, (30 <? gap_days g)%Z) gaps in
  length (big_gaps gaps) ≤ 20
  ∧ (∀ g, g ∈ big_gaps gaps → g ∈ gaps ∧ (30 < gap_days g)%Z)
  ∧ StronglySorted (λ g h, (gap_days h ≤ gap_days g)%Z) (big_gaps gaps)
  ∧ (∀ days, filter (λ g, gap_days g = days) (big_gaps gaps)
             `prefix_of` filter (λ g, gap_days g = days) gaps)
  ∧ (∀ g h, g ∈ big_gaps gaps → h ∈ over_30 → h ∉ big_gaps gaps →
            (gap_days h ≤ gap_days g)%Z)
  ∧ (length over_30 ≤ 20 → big_gaps gaps ≡ₚ over_30).
Proof.
  cbn zeta. unfold big_gaps.
  set (key := λ g : touchpoint_gap, (- gap_days g)%Z).
  set (over_30 := List.filter (λ g, (30 <? gap_days g)%Z) gaps).
  pose proof (sorted_by_number_perm key over_30) as Hperm.
  pose proof (sorted_by_number_sorted key over_30) as Hsorted.
  assert (StronglySorted (λ g h, (gap_days h ≤ gap_days g)%Z)
            (sorted_by_number key over_30)) as Hdesc.
  { eapply sorted_impl; [|exact Hsorted].
    intros g h. unfold key. lia. }
  rewrite <- (take_drop 20 (sorted_by_number key over_30)) in Hdesc.
  split; [rewrite length_take; lia|].
  split.
  { intros g Hg. eapply elem_of_sublist in Hg; [|apply sublist_take].
    rewrite Hperm in Hg. unfold over_30 in Hg.
    apply list_elem_of_In, List.filter_In in Hg as [Hin Hlt].
    split; [by apply list_elem_of_In|by apply Z.ltb_lt]. }
  split; [by eapply StronglySorted_app_1_l|].
  split.
  { intros days.
    assert (filter (λ g, gap_days g = days) (sorted_by_number key over_30)
            = filter (λ g, gap_days g = days) over_30) as Hstable.
    { rewrite (list_filter_iff _ (λ g, key g = (- days)%Z))
        by (intros g; unfold key; lia).
      rewrite sorted_by_number_stable.
      apply list_filter_iff. intros g. unfold key. lia. }
    rewrite <- (take_drop 20 (sorted_by_number key over_30)) in Hstable
      at 1.
    rewrite filter_app in Hstable.
    assert (filter (λ g, gap_days g = days) over_30
            = filter (λ g, gap_days g = days)
                (filter (λ g, (30 < gap_days g)%Z) gaps)) as Hover.
    { f_equal. unfold over_30. clear.
      induction gaps as [|g gaps IH]; [reflexivity|].
      cbn [List.filter]. rewrite filter_cons.
      destruct (30 <? gap_days g)%Z eqn:E.
      - apply Z.ltb_lt in E. rewrite decide_True by exact E. by rewrite IH.
      - apply Z.ltb_ge in E. rewrite decide_False by lia. exact IH. }
    rewrite Hover, list_filter_filter in Hstable.
    destruct (decide (30 < days)%Z) as [Hd|Hd].
    - rewrite (list_filter_iff (λ g, _ ∧ _) (λ g, gap_days g = days) gaps)
        in Hstable by (intros g; lia).
      rewrite <- Hstable. by eexists.
    - rewrite (filter_nothing (λ g, _ ∧ _)) in Hstable by (intros g; lia).
      apply app_eq_nil in Hstable as [-> _]. apply prefix_nil. }
  split.
  { intros g h Hg Hh Hout.
    rewrite <- Hperm, <- (take_drop 20 (sorted_by_number key over_30)) in Hh.
    apply elem_of_app in Hh as [Hh|Hh]; [done|].
    by eapply (StronglySorted_app_1_elem_of _ _ _ g h Hdesc). }
  intros Hlen. rewrite take_ge; [exact Hperm|]. by rewrite Hperm.
Qed.

(** ** The warnings of the timeline and the gaps of the analysis *)

Section TimelineFacts.

Variable days_between : string → string → option Z.

Lemma timeline_warnings_marks (c : customer) (tps : list touchpoint) :
  Forall (λ tp, counted tp = true) tps →
  timeline_warnings days_between tps
  = filter (λ days, (7 < days)%Z)
      (gap_days
       <$> flat_map (gap_between days_between c) (consecutive (marks tps))).
Proof.
  induction 1 as [|tp tps Htp Htps IH]; [reflexivity|].
  destruct Htps as [|next tps Hnext Htps].
  { rewrite marks_cons, Htp. reflexivity. }
  change (timeline_warnings days_between (tp :: next :: tps))
    with ((if truthy (date tp) && truthy (date next) then
             match days_between (str (date tp)) (str (date next)) with
             | Some gap =>
                 if negb (gap =? 0)%Z && (7 <? gap)%Z then [gap] else []
             | None => []
             end
           else [])
          ++ timeline_warnings days_between (next :: tps)).
  rewrite IH, (marks_cons tp), Htp, (marks_cons next), Hnext.
  change (consecutive ((date tp, type tp) :: (date next, type next) :: marks tps))
    with (((date tp, type tp), (date next, type next))
          :: consecutive ((date next, type next) :: marks tps)).
  cbn [flat_map]. rewrite fmap_app, filter_app. f_equal.
  unfold counted in Htp, Hnext.
  apply andb_true_iff in Htp as [-> _], Hnext as [-> _]. cbn [andb].
  unfold gap_between. cbn [fst snd].
  destruct (days_between (str (date tp)) (str (date next))) as [gap|];
    [|reflexivity].
  destruct (gap =? 0)%Z eqn:H0; cbn [negb andb].
  - apply Z.eqb_eq in H0. subst gap. reflexivity.
  - apply Z.eqb_neq in H0. destruct (7 <? gap)%Z eqn:H7.
    + apply Z.ltb_lt in H7. rewrite (proj2 (Z.ltb_lt 0 gap)) by lia.
      cbn [fmap list_fmap gap_days]. rewrite filter_cons, decide_True by exact H7.
      reflexivity.
    + apply Z.ltb_ge in H7. destruct (0 <? gap)%Z; [|reflexivity].
      cbn [fmap list_fmap gap_days]. rewrite filter_cons, decide_False by lia.
      reflexivity.
Qed.

(** X28.  For a customer whose touchpoints are all dated and none of the
    kind "Last Sales Activity", the timeline warns about exactly the gaps
    of more than seven days that the analysis records for it, in their
    order. *)
Theorem timeline_warnings_gaps (c : customer) :
  Forall (λ tp, counted tp = true) (touchpoints c) →
  timeline_warnings days_between (touchpoints c)
  = filter (λ days, (7 < days)%Z)
      (gap_days <$> customer_gaps days_between c).
Proof.
  intros Hc. unfold customer_gaps. rewrite gap_loop_start.
  by apply timeline_warnings_marks.
Qed.

End TimelineFacts.

Lemma timeline_warnings_gaps_witness :
  Forall (λ tp, counted tp = true) (touchpoints customer_acme_counted)
  ∧ timeline_warnings days_between_acme (touchpoints customer_acme_counted)
    = [56%Z]
  ∧ gap_days <$> customer_gaps days_between_acme customer_acme_counted
    = [56%Z; 6%Z].
Proof.
  assert (Forall (λ tp, counted tp = true) (touchpoints customer_acme_counted))
    as Hc.
  { repeat constructor. }
  split; [exact Hc|]. split; [|vm_compute; reflexivity].
  rewrite (timeline_warnings_gaps days_between_acme customer_acme_counted Hc).
  vm_compute; reflexivity.
Defined.

(** ** The stages of a record *)

(** X11.  In every record that the normalizer produces, the analyzer reads
    its stages from the "Deal Stage Change" touchpoints of the record whose
    detail holds "moved to:", in the order of the record.  That is the
    order of the sort keys (the date string, "9999" without a date), not the
    order of the histories of the deals, and no two of these touchpoints
    have the same key of the deduplication: a stage change that is listed
    again in the same minute with the same first 50 characters of detail
    is read once. *)
Theorem record_stages_in_order (api : crm)
    (call_seconds : string → result string) (j : journey) (c : customer) :
  process_journey api call_seconds j = Ok c →
  ∃ stages,
    stages_seen (touchpoints c) = Ok stages
    ∧ stages = (λ tp, (date tp, extracted_stage (detail tp)))
               <$> List.filter stage_changed (touchpoints c)
    ∧ stages.*2 = customer_stages c
    ∧ StronglySorted (λ a b, (or_str a.1 "9999" ≤ or_str b.1 "9999")%string)
        stages
    ∧ NoDup (dedup_key <$> List.filter stage_changed (touchpoints c)).
Proof.
  intros Hc. destruct (customer_stages_seen c) as [Hseen Hstages].
  eexists. split; [exact Hseen|]. split; [reflexivity|].
  split; [exact Hstages|].
  pose proof (filter_sublist stage_changed (touchpoints c)) as Hsub.
  split.
  - apply (StronglySorted_fmap _ (key_le sort_key)); [by intros a b|].
    eapply StronglySorted_sublist; [exact Hsub|].
    by eapply process_journey_sorted.
  - destruct (process_journey_record _ _ _ _ Hc) as (_ & _ & _ & Hnd & _).
    eapply sublist_NoDup; [exact Hnd|]. by apply fmap_sublist.
Qed.

Lemma record_stages_in_order_witness :
  ∃ c,
    process_journey crm_newest_first no_call_seconds journey_acme_deal = Ok c
    ∧ customer_stages c = ["Lead"; "Demo Scheduled"]
    ∧ ∃ stages,
        stages_seen (touchpoints c) = Ok stages
        ∧ StronglySorted
            (λ a b, (or_str a.1 "9999" ≤ or_str b.1 "9999")%string) stages.
Proof.
  eexists. split; [vm_compute; reflexivity|].
  split; [vm_compute; reflexivity|].
  edestruct (record_stages_in_order crm_newest_first no_call_seconds
               journey_acme_deal)
    as (stages & Hseen & _ & _ & Hsorted & _); [vm_compute; reflexivity|].
  exists stages. split; [exact Hseen|exact Hsorted].
Defined.
